(** * QBTM runtime: values, Gaussian-rational matrices, circuit executor,
      binary container.

    A shallow embedding of the Go package [runtime] (value.go, the
    arithmetic and matrix code, the executor and the embedded-binary code)
    together with the properties of it that the specification states. *)

From Stdlib Require Import ZArith QArith Qcanon Lia Lqa List Bool.
From Stdlib Require Import Strings.String Strings.Ascii Strings.Byte.
From Stdlib Require Import Numbers.DecimalString.
From stdpp Require Import base option list numbers countable gmap vector.

Local Open Scope Z_scope.

(** ** Bytes and machine integers *)

(** Go's [byte(x)] conversion keeps the low eight bits. *)
Definition byte_of_Z (z : Z) : byte :=
  match Byte.of_N (Z.to_N (z mod 256)) with
  | Some b => b
  | None => "000"%byte
  end.

Definition Z_of_byte (b : byte) : Z := Z.of_N (Byte.to_N b).

#[global] Instance byte_eq_dec : EqDecision byte := Byte.byte_eq_dec.

#[global] Program Instance byte_countable : Countable byte :=
  inj_countable Byte.to_N Byte.of_N _.
Next Obligation. intros b. apply Byte.of_to_N. Qed.

(** Two's-complement wrap-around of Go's 64-bit [int] / [int64], of
    [uint32] and of [uint64]. *)
Definition wrap64 (z : Z) : Z := (z + 2 ^ 63) mod 2 ^ 64 - 2 ^ 63.
Definition wrapu32 (z : Z) : Z := z mod 2 ^ 32.
Definition wrapu64 (z : Z) : Z := z mod 2 ^ 64.

(** Fixed-size byte arrays ([[4]byte], [[32]byte]).  [copy_to_array n l] is
    Go's [copy(a[:], l)] into a zeroed array of size [n]: the first [n]
    bytes of [l], padded with zero bytes when [l] is shorter. *)
Fixpoint copy_to_array (n : nat) (l : list byte) : vec byte n :=
  match n with
  | O => [#]
  | S n' =>
      match l with
      | [] => "000"%byte ::: copy_to_array n' []
      | b :: l' => b ::: copy_to_array n' l'
      end
  end.

Lemma copy_to_array_vec_to_list n (v : vec byte n) :
  copy_to_array n (vec_to_list v) = v.
Proof. induction v as [|b n v IH]; simpl; [reflexivity | now rewrite IH]. Qed.

(** Digests are the keys of the store's maps. *)
#[global] Program Instance array32_countable : Countable (vec byte 32) | 0 :=
  inj_countable vec_to_list (fun l => Some (copy_to_array 32 l)) _.
Next Obligation. intros v. exact (f_equal Some (copy_to_array_vec_to_list 32 v)). Qed.

(** The [n] low-order bytes of [z], most significant first. *)
Fixpoint be_bytes (n : nat) (z : Z) : list byte :=
  match n with
  | O => []
  | S n' => byte_of_Z (Z.shiftr z (8 * Z.of_nat n')) :: be_bytes n' z
  end.

Definition be_word (bs : list byte) : Z :=
  fold_left (fun acc b => acc * 256 + Z_of_byte b) bs 0.

(** ** SHA-256 (FIPS 180-4), the digest behind [sha256.Sum256] *)

Module SHA256.

Definition add32 (a b : Z) : Z := (a + b) mod 2 ^ 32.
Definition rotr (n x : Z) : Z :=
  Z.lor (Z.shiftr x n) ((Z.shiftl x (32 - n)) mod 2 ^ 32).
Definition not32 (x : Z) : Z := Z.lxor x (2 ^ 32 - 1).

Definition Ch (x y z : Z) : Z := Z.lxor (Z.land x y) (Z.land (not32 x) z).
Definition Maj (x y z : Z) : Z :=
  Z.lxor (Z.lxor (Z.land x y) (Z.land x z)) (Z.land y z).
Definition Sigma0 (x : Z) : Z := Z.lxor (Z.lxor (rotr 2 x) (rotr 13 x)) (rotr 22 x).
Definition Sigma1 (x : Z) : Z := Z.lxor (Z.lxor (rotr 6 x) (rotr 11 x)) (rotr 25 x).
Definition sigma0 (x : Z) : Z := Z.lxor (Z.lxor (rotr 7 x) (rotr 18 x)) (Z.shiftr x 3).
Definition sigma1 (x : Z) : Z := Z.lxor (Z.lxor (rotr 17 x) (rotr 19 x)) (Z.shiftr x 10).

(** The round constants: the first 32 bits of the fractional parts of the
    cube roots of the first 64 primes. *)
Definition K : list Z :=
  [
   1116352408; 1899447441; 3049323471; 3921009573;
   961987163; 1508970993; 2453635748; 2870763221;
   3624381080; 310598401; 607225278; 1426881987;
   1925078388; 2162078206; 2614888103; 3248222580;
   3835390401; 4022224774; 264347078; 604807628;
   770255983; 1249150122; 1555081692; 1996064986;
   2554220882; 2821834349; 2952996808; 3210313671;
   3336571891; 3584528711; 113926993; 338241895;
   666307205; 773529912; 1294757372; 1396182291;
   1695183700; 1986661051; 2177026350; 2456956037;
   2730485921; 2820302411; 3259730800; 3345764771;
   3516065817; 3600352804; 4094571909; 275423344;
   430227734; 506948616; 659060556; 883997877;
   958139571; 1322822218; 1537002063; 1747873779;
   1955562222; 2024104815; 2227730452; 2361852424;
   2428436474; 2756734187; 3204031479; 3329325298
  ].

(** Padding: a one bit, zero bits up to 56 mod 64, the bit length on 64 bits. *)
Definition pad (msg : list byte) : list byte :=
  let len := Z.of_nat (length msg) in
  msg ++ "128"%byte :: replicate (Z.to_nat ((55 - len) mod 64)) "000"%byte
      ++ be_bytes 8 (8 * len).

Fixpoint words (n : nat) (bs : list byte) : list Z :=
  match n with
  | O => []
  | S n' => be_word (firstn 4 bs) :: words n' (skipn 4 bs)
  end.

Fixpoint schedule (n : nat) (w : list Z) : list Z :=
  match n with
  | O => w
  | S n' =>
      let t := length w in
      let x := add32 (add32 (sigma1 (nth (t - 2) w 0)) (nth (t - 7) w 0))
                     (add32 (sigma0 (nth (t - 15) w 0)) (nth (t - 16) w 0)) in
      schedule n' (w ++ [x])
  end.

Definition regs : Type := (Z * Z * Z * Z * Z * Z * Z * Z)%type.

Definition round (r : regs) (kw : Z * Z) : regs :=
  let '(a, b, c, d, e, f, g, h) := r in
  let t1 := add32 (add32 (add32 h (Sigma1 e)) (add32 (Ch e f g) (fst kw))) (snd kw) in
  let t2 := add32 (Sigma0 a) (Maj a b c) in
  (add32 t1 t2, a, b, c, add32 d t1, e, f, g).

Definition compress (r : regs) (block : list byte) : regs :=
  let w := schedule 48 (words 16 block) in
  let '(a, b, c, d, e, f, g, h) := fold_left round (combine K w) r in
  let '(a0, b0, c0, d0, e0, f0, g0, h0) := r in
  (add32 a0 a, add32 b0 b, add32 c0 c, add32 d0 d,
   add32 e0 e, add32 f0 f, add32 g0 g, add32 h0 h).

Fixpoint blocks (n : nat) (r : regs) (bs : list byte) : regs :=
  match n with
  | O => r
  | S n' => blocks n' (compress r (firstn 64 bs)) (skipn 64 bs)
  end.

(** The initial hash value: the first 32 bits of the fractional parts of the
    square roots of the first 8 primes. *)
Definition init : regs :=
  (1779033703, 3144134277, 1013904242, 2773480762,
   1359893119, 2600822924, 528734635, 1541459225).

Definition digest (msg : list byte) : list byte :=
  let p := pad msg in
  let '(a, b, c, d, e, f, g, h) := blocks (length p / 64)%nat init p in
  be_bytes 4 a ++ be_bytes 4 b ++ be_bytes 4 c ++ be_bytes 4 d ++
  be_bytes 4 e ++ be_bytes 4 f ++ be_bytes 4 g ++ be_bytes 4 h.

Definition Sum256 (msg : list byte) : vec byte 32 := copy_to_array 32 (digest msg).

End SHA256.

Definition bytes_of_string (s : string) : list byte := list_byte_of_string s.

(** ** Values (value.go) *)

(** [big.Int] is an integer of [Z]; [big.Rat] keeps its fraction in lowest
    terms with a positive denominator, which is a canonical rational [Qc].
    The pointers inside [Int] and [Rat] are those the constructors
    allocate, never nil. *)
#[warnings="-register-all"] Inductive Value : Type :=
  | Int (V : Z)
  | Rat (V : Qc)
  | Bytes (V : list byte)
  | Text (V : string)
  | Seq (Items : list Value)
  | Tag (Label Payload : Value)
  | Bool (V : bool)
  | Nil.

Definition MakeInt (n : Z) : Value := Int n.
Definition MakeBigInt (n : Z) : Value := Int n.
Definition MakeBigRat (r : Qc) : Value := Rat r.
Definition MakeBytes (b : list byte) : Value := Bytes b.
Definition MakeText (s : string) : Value := Text s.
Definition MakeSeq (items : list Value) : Value := Seq items.
Definition MakeTag (label payload : Value) : Value := Tag label payload.
Definition MakeBool (b : bool) : Value := Bool b.
Definition MakeNil : Value := Nil.

(** [big.Int.Bytes]: the big-endian magnitude without leading zero bytes. *)
Definition big_Bytes (z : Z) : list byte :=
  let m := Z.abs z in
  if m =? 0 then [] else be_bytes (Z.to_nat (Z.log2 m / 8 + 1)) m.

(** [big.Int.BitLen]. *)
Definition big_BitLen (z : Z) : Z :=
  let m := Z.abs z in
  if m =? 0 then 0 else Z.log2 m + 1.

(** [big.Int.Int64]: the low 64 bits, as a signed integer. *)
Definition big_Int64 (z : Z) : Z := wrap64 z.

Definition Rat_Num (q : Qc) : Z := Qnum (this q).
Definition Rat_Denom (q : Qc) : Z := Z.pos (Qden (this q)).
Definition Rat_Sign (q : Qc) : Z := Z.sgn (Rat_Num q).

(** The loop of [encodeVarint]; a [uint64] leaves it within ten rounds. *)
Fixpoint encodeVarint_loop (fuel : nat) (n : Z) : list byte :=
  match fuel with
  | O => [byte_of_Z n]
  | S fuel' =>
      if 128 <=? n
      then byte_of_Z (Z.lor (Z.land n 0x7F) 0x80) :: encodeVarint_loop fuel' (Z.shiftr n 7)
      else [byte_of_Z n]
  end.

Definition encodeVarint (n : Z) : list byte :=
  if n <? 128 then [byte_of_Z n] else encodeVarint_loop 10 n.

(** [uint64(len(x))]. *)
Definition len64 {A} (l : list A) : Z := wrapu64 (Z.of_nat (length l)).

Definition Int_Encode (v : Z) : list byte :=
  if Z.sgn v =? 0 then ["000"%byte]
  else if (0 <? Z.sgn v) && (big_BitLen v <=? 7) then [byte_of_Z (big_Int64 v)]
  else
    let bytes := big_Bytes v in
    (if Z.sgn v <? 0 then byte_of_Z 0x80 else byte_of_Z 0x40)
      :: byte_of_Z (Z.of_nat (length bytes)) :: bytes.

Definition Rat_Encode (v : Qc) : list byte :=
  if Rat_Sign v =? 0 then [byte_of_Z 0x90; byte_of_Z 0x00]
  else
    let numBytes := big_Bytes (Rat_Num v) in
    let denomBytes := big_Bytes (Rat_Denom v) in
    byte_of_Z 0x90
      :: (if Rat_Sign v <? 0 then byte_of_Z 0x80 else byte_of_Z 0x00)
      :: byte_of_Z (Z.of_nat (length numBytes)) :: numBytes
      ++ byte_of_Z (Z.of_nat (length denomBytes)) :: denomBytes.

Fixpoint Encode (v : Value) : list byte :=
  match v with
  | Int n => Int_Encode n
  | Rat q => Rat_Encode q
  | Bytes b => byte_of_Z 0xA0 :: encodeVarint (len64 b) ++ b
  | Text s =>
      let bytes := bytes_of_string s in
      byte_of_Z 0xB0 :: encodeVarint (len64 bytes) ++ bytes
  | Seq items =>
      byte_of_Z 0xC0 :: encodeVarint (len64 items)
        ++ (fix items_Encode (l : list Value) : list byte :=
              match l with
              | [] => []
              | item :: l' => Encode item ++ items_Encode l'
              end) items
  | Tag label payload => byte_of_Z 0xD0 :: Encode label ++ Encode payload
  | Bool b => if b then [byte_of_Z 0xE1] else [byte_of_Z 0xE0]
  | Nil => [byte_of_Z 0xF0]
  end.

Abbreviation QGID_t := (vec byte 32).

(** [QGID]: the identity hash of a value. *)
Definition QGID (v : Value) : QGID_t := SHA256.Sum256 (Encode v).

(** The element loop of the [Bytes] case of [Equal], entered with equal
    lengths. *)
Fixpoint bytes_loop_equal (a b : list byte) : bool :=
  match a, b with
  | x :: a', y :: b' => if Byte.eqb x y then bytes_loop_equal a' b' else false
  | _, _ => true
  end.

Fixpoint Equal (a b : Value) : bool :=
  match a, b with
  | Int x, Int y => Z.eqb x y
  | Rat x, Rat y => Qc_eq_bool x y
  | Bytes x, Bytes y =>
      if negb (length x =? length y)%nat then false else bytes_loop_equal x y
  | Text x, Text y => String.eqb x y
  | Seq xs, Seq ys =>
      if negb (length xs =? length ys)%nat then false
      else (fix items_equal (l1 l2 : list Value) : bool :=
              match l1, l2 with
              | x :: l1', y :: l2' => if Equal x y then items_equal l1' l2' else false
              | _, _ => true
              end) xs ys
  | Tag l1 p1, Tag l2 p2 => Equal l1 l2 && Equal p1 p2
  | Bool x, Bool y => Bool.eqb x y
  | Nil, Nil => true
  | _, _ => false
  end.

(** ** Gaussian rationals *)

Record QI : Type := mkQI { Re : Qc; Im : Qc }.

Definition NewQI (re im : Qc) : QI := mkQI re im.
Definition QIZero : QI := mkQI 0%Qc 0%Qc.
Definition QIOne : QI := mkQI 1%Qc 0%Qc.
Definition QII : QI := mkQI 0%Qc 1%Qc.

Definition QINeg (q : QI) : QI := mkQI (- Re q)%Qc (- Im q)%Qc.
Definition QIAdd (a b : QI) : QI := mkQI (Re a + Re b)%Qc (Im a + Im b)%Qc.
Definition QISub (a b : QI) : QI := mkQI (Re a - Re b)%Qc (Im a - Im b)%Qc.

Definition QIMul (a b : QI) : QI :=
  let ac := (Re a * Re b)%Qc in
  let bd := (Im a * Im b)%Qc in
  let ad := (Re a * Im b)%Qc in
  let bc := (Im a * Re b)%Qc in
  mkQI (ac - bd)%Qc (ad + bc)%Qc.

Definition QIConj (q : QI) : QI := mkQI (Re q) (- Im q)%Qc.

Definition QINormSq (q : QI) : Qc :=
  let reSq := (Re q * Re q)%Qc in
  let imSq := (Im q * Im q)%Qc in
  (reSq + imSq)%Qc.

(** [QIInv] returns [1/q] and [true], or zero and [false] when the norm
    vanishes. *)
Definition QIInv (q : QI) : QI * bool :=
  let normSq := QINormSq q in
  if Rat_Sign normSq =? 0 then (QIZero, false)
  else
    let conj := QIConj q in
    (mkQI (Re conj / normSq)%Qc (Im conj / normSq)%Qc, true).

Definition QIDiv (a b : QI) : QI * bool :=
  let '(inv, ok) := QIInv b in
  if negb ok then (QIZero, false) else (QIMul a inv, true).

Definition QIEqual (a b : QI) : bool :=
  Qc_eq_bool (Re a) (Re b) && Qc_eq_bool (Im a) (Im b).

Definition QIIsZero (q : QI) : bool :=
  (Rat_Sign (Re q) =? 0) && (Rat_Sign (Im q) =? 0).

Definition QIScale (q : QI) (r : Qc) : QI := mkQI (Re q * r)%Qc (Im q * r)%Qc.

(** ** Circuits, objects and the store (data) *)

(** [Prim] is an [int]; the constants are its [iota] values. *)
Definition Prim : Type := Z.
Definition PrimId : Prim := 0.
Definition PrimCompose : Prim := 1.
Definition PrimTensor : Prim := 2.
Definition PrimSwap : Prim := 3.
Definition PrimBisum : Prim := 4.
Definition PrimInject : Prim := 5.
Definition PrimProject : Prim := 6.
Definition PrimCopy : Prim := 7.
Definition PrimDelete : Prim := 8.
Definition PrimEncode : Prim := 9.
Definition PrimDecode : Prim := 10.
Definition PrimDiscard : Prim := 11.
Definition PrimTrace : Prim := 12.
Definition PrimChoi : Prim := 13.
Definition PrimKraus : Prim := 14.
Definition PrimUnitary : Prim := 15.
Definition PrimInstrument : Prim := 16.
Definition PrimBranch : Prim := 17.
Definition PrimPrepare : Prim := 18.
Definition PrimAdd : Prim := 19.
Definition PrimScale : Prim := 20.
Definition PrimZero : Prim := 21.
Definition PrimAssert : Prim := 22.
Definition PrimWitness : Prim := 23.

(** [Blocks] holds [uint32] block sizes. *)
Record Object : Type := mkObject { Blocks : list Z }.

(** [Data] is an interface value and may be nil. *)
Record Circuit : Type := mkCircuit {
  Domain : Object;
  Codomain : Object;
  CPrim : Prim;
  Data : option Value;
  Children : list QGID_t
}.

Record Store : Type := mkStore {
  circuits : gmap QGID_t Circuit;
  values : gmap QGID_t Value
}.

Definition NewStore : Store := mkStore ∅ ∅.

(** ** Matrices on the heap *)

Record Matrix : Type := mkMatrix { Rows : Z; Cols : Z; MData : list QI }.

(** A [*Matrix] is an address of the heap, or nil. *)
Definition ptr : Type := option nat.

(** The program state: the matrices allocated so far and the store the
    executor and the runner point to. *)
Record State : Type := mkState { heap : list Matrix; store : Store }.

(** Outcome of a call: it returns, it panics, or the interpreter's
    recursion is cut off (the model's only source of non-termination). *)
Inductive Res (A : Type) : Type :=
  | Ok (a : A)
  | Panic (msg : string)
  | OutOfFuel.
Arguments Ok {A} a.
Arguments Panic {A} msg.
Arguments OutOfFuel {A}.

Definition M (A : Type) : Type := State -> Res A * State.

Definition ret {A} (a : A) : M A := fun s => (Ok a, s).
Definition panic {A} (msg : string) : M A := fun s => (Panic msg, s).
Definition bind {A B} (m : M A) (f : A -> M B) : M B :=
  fun s =>
    match m s with
    | (Ok a, s') => f a s'
    | (Panic msg, s') => (Panic msg, s')
    | (OutOfFuel, s') => (OutOfFuel, s')
    end.

Notation "x <- m ;; k" := (bind m (fun x => k))
  (at level 20, m at level 99, k at level 200, only parsing).
Notation "m ;;; k" := (bind m (fun _ => k))
  (at level 100, k at level 200, right associativity, only parsing).

Definition nil_deref : string := "invalid memory address or nil pointer dereference".
Definition index_out_of_range : string := "index out of range".
Definition makeslice_len : string := "makeslice: len out of range".

(** Reading the record behind a pointer. *)
Definition deref (p : ptr) : M Matrix := fun s =>
  match p with
  | None => (Panic nil_deref, s)
  | Some a =>
      match heap s !! a with
      | Some m => (Ok m, s)
      | None => (Panic nil_deref, s)
      end
  end.

Definition alloc (m : Matrix) : M ptr := fun s =>
  (Ok (Some (length (heap s))), mkState (heap s ++ [m]) (store s)).

(** [p.Data[i]] *)
Definition data_get (p : ptr) (i : Z) : M QI :=
  m <- deref p ;;
  if (i <? 0) || (Z.of_nat (length (MData m)) <=? i) then panic index_out_of_range
  else match MData m !! Z.to_nat i with
       | Some q => ret q
       | None => panic index_out_of_range
       end.

(** [p.Data[i] = v] *)
Definition data_set (p : ptr) (i : Z) (v : QI) : M unit :=
  m <- deref p ;;
  if (i <? 0) || (Z.of_nat (length (MData m)) <=? i) then panic index_out_of_range
  else fun s =>
    match p with
    | Some a =>
        (Ok tt, mkState (<[a := mkMatrix (Rows m) (Cols m) (<[Z.to_nat i := v]> (MData m))]> (heap s))
                        (store s))
    | None => (Panic nil_deref, s)
    end.

(** [for i := 0; i < n; i++ { body }] *)
Fixpoint for_loop (k : nat) (i : Z) (body : Z -> M unit) : M unit :=
  match k with
  | O => ret tt
  | S k' => body i ;;; for_loop k' (i + 1) body
  end.
Definition for_upto (n : Z) (body : Z -> M unit) : M unit :=
  for_loop (Z.to_nat n) 0 body.

(** The same loop around a local variable that the body updates. *)
Fixpoint for_acc_loop {A} (k : nat) (i : Z) (body : Z -> A -> M A) (acc : A) : M A :=
  match k with
  | O => ret acc
  | S k' => acc' <- body i acc ;; for_acc_loop k' (i + 1) body acc'
  end.
Definition for_acc {A} (n : Z) (body : Z -> A -> M A) (acc : A) : M A :=
  for_acc_loop (Z.to_nat n) 0 body acc.

(** [NewMatrix]: [make] panics on a negative length; the loop fills the
    slice with [QIZero()]. *)
Definition NewMatrix (rows cols : Z) : M ptr :=
  let n := wrap64 (rows * cols) in
  if n <? 0 then panic makeslice_len
  else alloc (mkMatrix rows cols (replicate (Z.to_nat n) QIZero)).

Definition Matrix_Get (m : ptr) (i j : Z) : M QI :=
  r <- deref m ;;
  data_get m (wrap64 (i * Cols r + j)).

Definition Matrix_Set (m : ptr) (i j : Z) (v : QI) : M unit :=
  r <- deref m ;;
  data_set m (wrap64 (i * Cols r + j)) v.

Definition Identity (n : Z) : M ptr :=
  m <- NewMatrix n n ;;
  for_upto n (fun i => Matrix_Set m i i QIOne) ;;;
  ret m.

Definition Zero (rows cols : Z) : M ptr := NewMatrix rows cols.

(** [MatMul]: nil on a shape mismatch. *)
Definition MatMul (A B : ptr) : M ptr :=
  a <- deref A ;;
  b <- deref B ;;
  if negb (Cols a =? Rows b) then ret None
  else
    C <- NewMatrix (Rows a) (Cols b) ;;
    for_upto (Rows a) (fun i =>
      for_upto (Cols b) (fun j =>
        sum <- for_acc (Cols a) (fun k sum =>
                 x <- Matrix_Get A i k ;;
                 y <- Matrix_Get B k j ;;
                 ret (QIAdd sum (QIMul x y))) QIZero ;;
        Matrix_Set C i j sum)) ;;;
    ret C.

Definition MatAdd (A B : ptr) : M ptr :=
  a <- deref A ;;
  b <- deref B ;;
  if negb (Rows a =? Rows b) || negb (Cols a =? Cols b) then ret None
  else
    C <- NewMatrix (Rows a) (Cols a) ;;
    for_upto (Z.of_nat (length (MData a))) (fun i =>
      x <- data_get A i ;;
      y <- data_get B i ;;
      data_set C i (QIAdd x y)) ;;;
    ret C.

Definition MatSub (A B : ptr) : M ptr :=
  a <- deref A ;;
  b <- deref B ;;
  if negb (Rows a =? Rows b) || negb (Cols a =? Cols b) then ret None
  else
    C <- NewMatrix (Rows a) (Cols a) ;;
    for_upto (Z.of_nat (length (MData a))) (fun i =>
      x <- data_get A i ;;
      y <- data_get B i ;;
      data_set C i (QISub x y)) ;;;
    ret C.

Definition MatScale (A : ptr) (r : Qc) : M ptr :=
  a <- deref A ;;
  C <- NewMatrix (Rows a) (Cols a) ;;
  for_upto (Z.of_nat (length (MData a))) (fun i =>
    x <- data_get A i ;;
    data_set C i (QIScale x r)) ;;;
  ret C.

Definition Dagger (A : ptr) : M ptr :=
  a <- deref A ;;
  B <- NewMatrix (Cols a) (Rows a) ;;
  for_upto (Rows a) (fun i =>
    for_upto (Cols a) (fun j =>
      x <- Matrix_Get A i j ;;
      Matrix_Set B j i (QIConj x))) ;;;
  ret B.

Definition Trace (A : ptr) : M QI :=
  a <- deref A ;;
  if negb (Rows a =? Cols a) then ret QIZero
  else
    for_acc (Rows a) (fun i sum =>
      x <- Matrix_Get A i i ;;
      ret (QIAdd sum x)) QIZero.

Definition Kronecker (A B : ptr) : M ptr :=
  a <- deref A ;;
  b <- deref B ;;
  let rows := wrap64 (Rows a * Rows b) in
  let cols := wrap64 (Cols a * Cols b) in
  C <- NewMatrix rows cols ;;
  for_upto (Rows a) (fun i =>
    for_upto (Cols a) (fun j =>
      for_upto (Rows b) (fun k =>
        for_upto (Cols b) (fun l =>
          let row := wrap64 (i * Rows b + k) in
          let col := wrap64 (j * Cols b + l) in
          x <- Matrix_Get A i j ;;
          y <- Matrix_Get B k l ;;
          Matrix_Set C row col (QIMul x y))))) ;;;
  ret C.

Definition Matrix_Clone (m : ptr) : M ptr :=
  r <- deref m ;;
  result <- NewMatrix (Rows r) (Cols r) ;;
  for_upto (Z.of_nat (length (MData r))) (fun i =>
    x <- data_get m i ;;
    data_set result i (NewQI (Re x) (Im x))) ;;;
  ret result.


(** The element loop of [MatrixEqual]; [false] is its early return. *)
Fixpoint MatrixEqual_loop (k : nat) (i : Z) (A B : ptr) : M bool :=
  match k with
  | O => ret true
  | S k' =>
      x <- data_get A i ;;
      y <- data_get B i ;;
      if negb (QIEqual x y) then ret false else MatrixEqual_loop k' (i + 1) A B
  end.

Definition MatrixEqual (A B : ptr) : M bool :=
  a <- deref A ;;
  b <- deref B ;;
  if negb (Rows a =? Rows b) || negb (Cols a =? Cols b) then ret false
  else MatrixEqual_loop (length (MData a)) 0 A B.

(** ** Matrices as values *)

Definition qi_to_value (q : QI) : Value :=
  MakeTag (MakeText "qi") (MakeSeq [MakeBigRat (Re q); MakeBigRat (Im q)]).

Definition MatrixToValue (m : ptr) : M Value :=
  r <- deref m ;;
  ret (MakeTag (MakeText "matrix")
         (MakeSeq [MakeInt (Rows r); MakeInt (Cols r);
                   MakeSeq (map qi_to_value (MData r))])).

Definition qiFromValue (v : Value) : QI * bool :=
  match v with
  | Tag (Text label) (Seq (Rat re :: Rat im :: _)) =>
      if negb (String.eqb label "qi") then (QIZero, false)
      else (NewQI re im, true)
  | _ => (QIZero, false)
  end.

(** The [range data.Items] loop of [MatrixFromValue]; [false] is its early
    return. *)
Fixpoint MatrixFromValue_loop (m : ptr) (i : Z) (items : list Value) : M bool :=
  match items with
  | [] => ret true
  | item :: rest =>
      let '(qi, ok) := qiFromValue item in
      if negb ok then ret false
      else data_set m i qi ;;; MatrixFromValue_loop m (i + 1) rest
  end.

(** [MatrixFromValue]; the argument is an interface value and may be nil. *)
Definition MatrixFromValue (v : option Value) : M (ptr * bool) :=
  match v with
  | Some (Tag (Text label) (Seq (Int rows :: Int cols :: Seq data :: _))) =>
      if negb (String.eqb label "matrix") then ret (None, false)
      else
        m <- NewMatrix (big_Int64 rows) (big_Int64 cols) ;;
        ok <- MatrixFromValue_loop m 0 data ;;
        if ok then ret (m, true) else ret (None, false)
  | _ => ret (None, false)
  end.

(** ** Objects and circuits as values *)

(** [objectDim]: [n * n] is a [uint32] product, the sum an [int]. *)
Definition objectDim (obj : Object) : Z :=
  match Blocks obj with
  | [] => 1
  | _ => fold_left (fun dim n => wrap64 (dim + wrapu32 (n * n))) (Blocks obj) 0
  end.

Definition ObjectToValue (obj : Object) : Value :=
  MakeTag (MakeText "object") (MakeSeq (map MakeInt (Blocks obj))).

Definition CircuitToValue (c : Circuit) : Value :=
  let children := map (fun id : QGID_t => MakeBytes (vec_to_list id)) (Children c) in
  let data := match Data c with None => MakeNil | Some d => d end in
  MakeTag (MakeText "circuit")
    (MakeSeq [ObjectToValue (Domain c); ObjectToValue (Codomain c);
              MakeInt (CPrim c); data; MakeSeq children]).

Definition ObjectEqual (a b : Object) : bool :=
  if negb (length (Blocks a) =? length (Blocks b))%nat then false
  else forallb (fun p => fst p =? snd p) (combine (Blocks a) (Blocks b)).

(** [ObjectFromValue]; on failure the zero [Object] and [false]. *)
Fixpoint ObjectFromValue_loop (items : list Value) : option (list Z) :=
  match items with
  | [] => Some []
  | Int n :: rest =>
      match ObjectFromValue_loop rest with
      | Some blocks => Some (wrapu32 (big_Int64 n) :: blocks)
      | None => None
      end
  | _ :: _ => None
  end.

Definition ObjectFromValue (v : Value) : Object * bool :=
  match v with
  | Tag (Text label) (Seq items) =>
      if negb (String.eqb label "object") then (mkObject [], false)
      else match ObjectFromValue_loop items with
           | Some blocks => (mkObject blocks, true)
           | None => (mkObject [], false)
           end
  | _ => (mkObject [], false)
  end.

(** The children loop of [CircuitFromValue]: every item is a [Bytes] of at
    least 32 bytes, of which the first 32 are kept. *)
Fixpoint CircuitFromValue_children (items : list Value) : option (list QGID_t) :=
  match items with
  | [] => Some []
  | Bytes b :: rest =>
      if (length b <? 32)%nat then None
      else match CircuitFromValue_children rest with
           | Some children => Some (copy_to_array 32 (take 32 b) :: children)
           | None => None
           end
  | _ :: _ => None
  end.

(** The zero [Circuit]. *)
Definition Circuit_zero : Circuit := mkCircuit (mkObject []) (mkObject []) 0 None [].

Definition CircuitFromValue (v : Value) : Circuit * bool :=
  match v with
  | Tag (Text label) (Seq (d :: c :: p :: data :: ch :: _)) =>
      if negb (String.eqb label "circuit") then (Circuit_zero, false)
      else
        let '(domain, ok) := ObjectFromValue d in
        if negb ok then (Circuit_zero, false)
        else
          let '(codomain, ok) := ObjectFromValue c in
          if negb ok then (Circuit_zero, false)
          else
            match p with
            | Int prim =>
                match ch with
                | Seq childSeq =>
                    match CircuitFromValue_children childSeq with
                    | Some children =>
                        (mkCircuit domain codomain (big_Int64 prim) (Some data) children, true)
                    | None => (Circuit_zero, false)
                    end
                | _ => (Circuit_zero, false)
                end
            | _ => (Circuit_zero, false)
            end
  | _ => (Circuit_zero, false)
  end.

(** ** The store (methods) *)

Definition Store_Get (id : QGID_t) : M (option Circuit) := fun s =>
  (Ok (circuits (store s) !! id), s).

Definition Store_Put (c : Circuit) : M QGID_t := fun s =>
  let v := CircuitToValue c in
  let id := QGID v in
  (Ok id, mkState (heap s)
            (mkStore (<[id := c]> (circuits (store s))) (<[id := v]> (values (store s))))).

Definition Store_GetValue (id : QGID_t) : M (option Value) := fun s =>
  (Ok (values (store s) !! id), s).

Definition Store_PutValue (v : Value) : M QGID_t := fun s =>
  let id := QGID v in
  (Ok id, mkState (heap s) (mkStore (circuits (store s)) (<[id := v]> (values (store s))))).

(** ** The executor *)

(** A Go [error]: nil, or a message. *)
Definition error : Type := option string.

Definition string_of_Z (z : Z) : string := NilZero.string_of_int (Z.to_int z).

Definition applySwap (domain codomain : Object) (input : ptr) : M (ptr * error) :=
  let n := objectDim domain in
  result <- NewMatrix n n ;;
  for_upto n (fun i => Matrix_Set result i i QIOne) ;;;
  t <- MatMul result input ;;
  d <- Dagger result ;;
  r <- MatMul t d ;;
  ret (r, None).

Definition applyDiscard (domain : Object) (input : ptr) : M (ptr * error) :=
  tr <- Trace input ;;
  result <- NewMatrix 1 1 ;;
  Matrix_Set result 0 0 tr ;;;
  ret (result, None).

Definition applyUnitary (c : Circuit) (input : ptr) : M (ptr * error) :=
  r <- MatrixFromValue (Data c) ;;
  let '(U, ok) := r in
  if negb ok then ret (None, Some "unitary data must be matrix"%string)
  else
    Udag <- Dagger U ;;
    t <- MatMul U input ;;
    r <- MatMul t Udag ;;
    ret (r, None).

Definition applyChoi (c : Circuit) (input : ptr) : M (ptr * error) :=
  r <- MatrixFromValue (Data c) ;;
  let '(J, ok) := r in
  if negb ok then ret (None, Some "choi data must be matrix"%string)
  else
    let inDim := objectDim (Domain c) in
    let outDim := objectDim (Codomain c) in
    result <- NewMatrix outDim outDim ;;
    for_upto outDim (fun i =>
      for_upto outDim (fun j =>
        sum <- for_acc inDim (fun k sum =>
                 for_acc inDim (fun l sum =>
                   rhoEntry <- Matrix_Get input l k ;;
                   let jRow := wrap64 (k * outDim + i) in
                   let jCol := wrap64 (l * outDim + j) in
                   j' <- deref J ;;
                   if (jRow <? Rows j') && (jCol <? Cols j') then
                     jEntry <- Matrix_Get J jRow jCol ;;
                     ret (QIAdd sum (QIMul rhoEntry jEntry))
                   else ret sum) sum) QIZero ;;
        Matrix_Set result i j sum)) ;;;
    ret (result, None).

Definition applyPrepare (c : Circuit) : M (ptr * error) :=
  r <- MatrixFromValue (Data c) ;;
  let '(rho, ok) := r in
  if negb ok then ret (None, Some "prepare data must be matrix"%string)
  else
    r <- Matrix_Clone rho ;;
    ret (r, None).

(** [Execute].  [fuel] bounds the depth of the recursion through the
    store; the Go function has no such bound. *)
Fixpoint Execute (fuel : nat) (c : Circuit) (input : ptr) : M (ptr * error) :=
  match fuel with
  | O => fun s => (OutOfFuel, s)
  | S fuel' =>
      if CPrim c =? PrimId then
        r <- Matrix_Clone input ;; ret (r, None)
      else if CPrim c =? PrimCompose then
        match Children c with
        | [c0; c1] =>
            f <- Store_Get c0 ;;
            match f with
            | None => ret (None, Some "child 0 not found"%string)
            | Some f =>
                g <- Store_Get c1 ;;
                match g with
                | None => ret (None, Some "child 1 not found"%string)
                | Some g =>
                    r <- Execute fuel' f input ;;
                    match r with
                    | (_, Some err) => ret (None, Some err)
                    | (intermediate, None) => Execute fuel' g intermediate
                    end
                end
            end
        | _ => ret (None, Some "compose requires 2 children"%string)
        end
      else if CPrim c =? PrimTensor then
        match Children c with
        | [c0; c1] =>
            f <- Store_Get c0 ;;
            match f with
            | None => ret (None, Some "child 0 not found"%string)
            | Some f =>
                g <- Store_Get c1 ;;
                match g with
                | None => ret (None, Some "child 1 not found"%string)
                | Some g =>
                    let fDim := objectDim (Domain f) in
                    let gDim := objectDim (Domain g) in
                    fId <- Identity fDim ;;
                    gId <- Identity gDim ;;
                    r <- Execute fuel' f fId ;;
                    match r with
                    | (_, Some err) => ret (None, Some err)
                    | (fResult, None) =>
                        r <- Execute fuel' g gId ;;
                        match r with
                        | (_, Some err) => ret (None, Some err)
                        | (gResult, None) =>
                            k <- Kronecker fResult gResult ;; ret (k, None)
                        end
                    end
                end
            end
        | _ => ret (None, Some "tensor requires 2 children"%string)
        end
      else if CPrim c =? PrimSwap then applySwap (Domain c) (Codomain c) input
      else if CPrim c =? PrimDiscard then applyDiscard (Domain c) input
      else if CPrim c =? PrimZero then
        let outDim := objectDim (Codomain c) in
        r <- NewMatrix outDim outDim ;; ret (r, None)
      else if CPrim c =? PrimUnitary then applyUnitary c input
      else if CPrim c =? PrimChoi then applyChoi c input
      else if CPrim c =? PrimPrepare then applyPrepare c
      else if CPrim c =? PrimAdd then
        match Children c with
        | [c0; c1] =>
            f <- Store_Get c0 ;;
            match f with
            | None => ret (None, Some "child 0 not found"%string)
            | Some f =>
                g <- Store_Get c1 ;;
                match g with
                | None => ret (None, Some "child 1 not found"%string)
                | Some g =>
                    r <- Execute fuel' f input ;;
                    match r with
                    | (_, Some err) => ret (None, Some err)
                    | (fResult, None) =>
                        r <- Execute fuel' g input ;;
                        match r with
                        | (_, Some err) => ret (None, Some err)
                        | (gResult, None) =>
                            k <- MatAdd fResult gResult ;; ret (k, None)
                        end
                    end
                end
            end
        | _ => ret (None, Some "add requires 2 children"%string)
        end
      else if CPrim c =? PrimScale then
        match Children c with
        | [c0] =>
            match Data c with
            | Some (Rat r) =>
                child <- Store_Get c0 ;;
                match child with
                | None => ret (None, Some "child not found"%string)
                | Some child =>
                    res <- Execute fuel' child input ;;
                    match res with
                    | (_, Some err) => ret (None, Some err)
                    | (result, None) => k <- MatScale result r ;; ret (k, None)
                    end
                end
            | _ => ret (None, Some "scale data must be Rat"%string)
            end
        | _ => ret (None, Some "scale requires 1 child"%string)
        end
      else ret (None, Some ("unsupported primitive: " ++ string_of_Z (CPrim c))%string)
  end.

(** ** The embedded binary *)

Record EmbeddedBinary : Type := mkEmbeddedBinary {
  Magic : vec byte 4;
  Entrypoint : QGID_t;
  Name : string;
  Version : string;
  StoreData : list byte
}.

(** [copy(dst[off:], src)] for [off <= len(dst)]. *)
Definition copy_at (dst : list byte) (off : nat) (src : list byte) : list byte :=
  take off dst ++ take (length dst - off) src ++ drop (off + length src) dst.

Definition QMB_magic : vec byte 4 := [# "Q"%byte; "M"%byte; "B"%byte; "001"%byte].

(** [EmbeddedBinary.Encode]: the header fields are written at their offsets
    of a buffer of the final size. *)
Definition Binary_Encode (e : EmbeddedBinary) : list byte :=
  let nameBytes := bytes_of_string (Name e) in
  let versionBytes := bytes_of_string (Version e) in
  let size := (4 + 32 + 4 + length nameBytes + 4 + length versionBytes
               + length (StoreData e))%nat in
  let result := replicate size "000"%byte in
  let offset := 0%nat in
  let result := copy_at result offset (vec_to_list (Magic e)) in
  let offset := (offset + 4)%nat in
  let result := copy_at result offset (vec_to_list (Entrypoint e)) in
  let offset := (offset + 32)%nat in
  let nlen := Z.of_nat (length nameBytes) in
  let result := <[offset := byte_of_Z (Z.shiftr nlen 24)]> result in
  let result := <[(offset + 1)%nat := byte_of_Z (Z.shiftr nlen 16)]> result in
  let result := <[(offset + 2)%nat := byte_of_Z (Z.shiftr nlen 8)]> result in
  let result := <[(offset + 3)%nat := byte_of_Z nlen]> result in
  let offset := (offset + 4)%nat in
  let result := copy_at result offset nameBytes in
  let offset := (offset + length nameBytes)%nat in
  let vlen := Z.of_nat (length versionBytes) in
  let result := <[offset := byte_of_Z (Z.shiftr vlen 24)]> result in
  let result := <[(offset + 1)%nat := byte_of_Z (Z.shiftr vlen 16)]> result in
  let result := <[(offset + 2)%nat := byte_of_Z (Z.shiftr vlen 8)]> result in
  let result := <[(offset + 3)%nat := byte_of_Z vlen]> result in
  let offset := (offset + 4)%nat in
  let result := copy_at result offset versionBytes in
  let offset := (offset + length versionBytes)%nat in
  copy_at result offset (StoreData e).

(** [data[i]] below a length check. *)
Definition byte_at (data : list byte) (i : nat) : byte :=
  match data !! i with Some b => b | None => "000"%byte end.

(** [int(data[o])<<24 | int(data[o+1])<<16 | int(data[o+2])<<8 | int(data[o+3])] *)
Definition read_u32 (data : list byte) (o : nat) : Z :=
  Z.lor (Z.lor (Z.lor (Z.shiftl (Z_of_byte (byte_at data o)) 24)
                      (Z.shiftl (Z_of_byte (byte_at data (o + 1))) 16))
               (Z.shiftl (Z_of_byte (byte_at data (o + 2))) 8))
        (Z_of_byte (byte_at data (o + 3))).

(** [data[a:b]] for [a <= b <= len(data)]. *)
Definition slice (data : list byte) (a b : nat) : list byte := take (b - a) (drop a data).

Definition Decode (data : list byte) : option EmbeddedBinary * error :=
  if (length data <? 4)%nat then (None, Some "data too short"%string)
  else if negb (Byte.eqb (byte_at data 0) "Q"%byte) || negb (Byte.eqb (byte_at data 1) "M"%byte)
          || negb (Byte.eqb (byte_at data 2) "B"%byte) || negb (Byte.eqb (byte_at data 3) "001"%byte)
  then (None, Some "invalid magic: expected QMB\x01"%string)
  else if (length data <? 36)%nat then (None, Some "data too short for entrypoint"%string)
  else
    let magic := copy_to_array 4 (slice data 0 4) in
    let entrypoint := copy_to_array 32 (slice data 4 36) in
    let offset := 36%nat in
    if (length data <? offset + 4)%nat then (None, Some "data too short for name length"%string)
    else
      let nameLen := read_u32 data offset in
      let offset := (offset + 4)%nat in
      if Z.of_nat (length data) <? Z.of_nat offset + nameLen
      then (None, Some "data too short for name"%string)
      else
        let name := string_of_list_byte (slice data offset (offset + Z.to_nat nameLen)) in
        let offset := (offset + Z.to_nat nameLen)%nat in
        if (length data <? offset + 4)%nat
        then (None, Some "data too short for version length"%string)
        else
          let versionLen := read_u32 data offset in
          let offset := (offset + 4)%nat in
          if Z.of_nat (length data) <? Z.of_nat offset + versionLen
          then (None, Some "data too short for version"%string)
          else
            let version :=
              string_of_list_byte (slice data offset (offset + Z.to_nat versionLen)) in
            let offset := (offset + Z.to_nat versionLen)%nat in
            (Some (mkEmbeddedBinary magic entrypoint name version (drop offset data)), None).

(** ** The runner *)

(** A [Runner] points to its binary, to a store and to an executor on that
    store; the store is the one of the program state. *)
Record Runner : Type := mkRunner { binary : EmbeddedBinary }.

Definition decodeValue (data : list byte) : Value * error :=
  match data with
  | [] => (MakeNil, None)
  | b :: _ =>
      if Byte.eqb b "000"%byte then (MakeInt 0, None)
      else if Byte.eqb b (byte_of_Z 0xF0) then (MakeNil, None)
      else if Byte.eqb b (byte_of_Z 0xE0) then (MakeBool false, None)
      else if Byte.eqb b (byte_of_Z 0xE1) then (MakeBool true, None)
      else (MakeBytes data, None)
  end.

Fixpoint importValues_loop (items : list Value) : M unit :=
  match items with
  | [] => ret tt
  | item :: rest => Store_PutValue item ;;; importValues_loop rest
  end.

Definition importValues (v : Value) : M error :=
  match v with
  | Seq items => importValues_loop items ;;; ret None
  | _ => Store_PutValue v ;;; ret None
  end.

Definition loadStoreData (data : list byte) : M error :=
  match data with
  | [] => ret None
  | _ =>
      match decodeValue data with
      | (_, Some err) => ret (Some err)
      | (v, None) => importValues v
      end
  end.

(** [store := NewStore()] *)
Definition new_store : M unit := fun s => (Ok tt, mkState (heap s) NewStore).

Definition NewRunner (data : list byte) : M (option Runner * error) :=
  match Decode data with
  | (Some bin, None) =>
      new_store ;;;
      err <- loadStoreData (StoreData bin) ;;
      match err with
      | Some e => ret (None, Some ("load store failed: " ++ e)%string)
      | None => ret (Some (mkRunner bin), None)
      end
  | (_, Some e) => ret (None, Some ("decode failed: " ++ e)%string)
  | (None, None) => panic nil_deref
  end.

Definition Runner_Run (fuel : nat) (r : Runner) (input : ptr) : M (ptr * error) :=
  c <- Store_Get (Entrypoint (binary r)) ;;
  match c with
  | None => ret (None, Some "entrypoint circuit not found"%string)
  | Some c => Execute fuel c input
  end.

(** [RunWithValue]: a value that is no matrix is replaced by the 1x1
    identity. *)
Definition Runner_RunWithValue (fuel : nat) (r : Runner) (input : option Value)
    : M (option Value * error) :=
  p <- MatrixFromValue input ;;
  let '(matrix, ok) := p in
  matrix <- (if negb ok then Identity 1 else ret matrix) ;;
  res <- Runner_Run fuel r matrix ;;
  match res with
  | (_, Some err) => ret (None, Some err)
  | (result, None) => v <- MatrixToValue result ;; ret (Some v, None)
  end.

Definition Runner_Name (r : Runner) : string := Name (binary r).
Definition Runner_Version (r : Runner) : string := Version (binary r).
Definition Runner_Entrypoint (r : Runner) : QGID_t := Entrypoint (binary r).
Definition Runner_GetCircuit (id : QGID_t) : M (option Circuit) := Store_Get id.
Definition Runner_GetValue (id : QGID_t) : M (option Value) := Store_GetValue id.

(** [Embed]: the store data is left nil. *)
Definition Embed (entrypoint : QGID_t) (name version : string) : EmbeddedBinary :=
  mkEmbeddedBinary QMB_magic entrypoint name version [].

(** ** Predicates and example inputs of the properties *)

(** Induction on values that reaches the items of a sequence. *)
Section Value_induction.
Variable P : Value -> Prop.
Hypothesis HInt : forall n, P (Int n).
Hypothesis HRat : forall q, P (Rat q).
Hypothesis HBytes : forall b, P (Bytes b).
Hypothesis HText : forall s, P (Text s).
Hypothesis HSeq : forall items, Forall P items -> P (Seq items).
Hypothesis HTag : forall l p, P l -> P p -> P (Tag l p).
Hypothesis HBool : forall b, P (Bool b).
Hypothesis HNil : P Nil.

Fixpoint Value_nested_ind (v : Value) : P v :=
  match v with
  | Int n => HInt n
  | Rat q => HRat q
  | Bytes b => HBytes b
  | Text s => HText s
  | Seq items =>
      HSeq items
        ((fix go (l : list Value) : Forall P l :=
            match l with
            | [] => @Stdlib.Lists.List.Forall_nil _ P
            | x :: l0 => @Stdlib.Lists.List.Forall_cons _ P x l0 (Value_nested_ind x) (go l0)
            end) items)
  | Tag l p => HTag l p (Value_nested_ind l) (Value_nested_ind p)
  | Bool b => HBool b
  | Nil => HNil
  end.
End Value_induction.

Definition collide_a : Value := Seq [Int 64; Int 1; Tag Nil Nil].
Definition collide_b : Value := Seq [Int 208; Nil; Nil].

Inductive StoreOp : Type :=
  | OpPut (c : Circuit)
  | OpPutValue (v : Value).

Definition run_StoreOp (op : StoreOp) : M QGID_t :=
  match op with
  | OpPut c => Store_Put c
  | OpPutValue v => Store_PutValue v
  end.

Fixpoint run_StoreOps (ops : list StoreOp) (s : State) : State :=
  match ops with
  | [] => s
  | op :: rest => run_StoreOps rest (snd (run_StoreOp op s))
  end.

Definition store_keys_ok (st : Store) : Prop :=
  (forall id c, circuits st !! id = Some c -> id = QGID (CircuitToValue c)) /\
  (forall id v, values st !! id = Some v -> id = QGID v).

Definition binary_wf (c : EmbeddedBinary) : Prop :=
  Magic c = QMB_magic /\
  Z.of_nat (length (bytes_of_string (Name c))) < 2 ^ 32 /\
  Z.of_nat (length (bytes_of_string (Version c))) < 2 ^ 32.

Definition bad_magic_binary : EmbeddedBinary :=
  mkEmbeddedBinary (copy_to_array 4 []) (copy_to_array 32 []) "" "" [].

Definition test_binary : EmbeddedBinary :=
  mkEmbeddedBinary QMB_magic
    (copy_to_array 32 (map byte_of_Z (map Z.of_nat (seq 0 32))))
    "test-binary" "1.0.0" (bytes_of_string "test store data").

(** The part of the state that existed when a call started is untouched:
    same store, same matrices below address [b]. *)
Definition preserves (b : nat) (s s' : State) : Prop :=
  store s' = store s /\
  take b (heap s') = take b (heap s) /\
  (length (heap s) <= length (heap s'))%nat.

(** [frame b m Q]: run from a state with at least [b] matrices, [m] preserves
    the store and the first [b] matrices, and a returned value satisfies [Q]. *)
Definition frame {A} (b : nat) (m : M A) (Q : A -> Prop) : Prop :=
  forall s, (b <= length (heap s))%nat ->
    preserves b s (snd (m s)) /\ forall a, fst (m s) = Ok a -> Q a.

(** A pointer that is nil or was allocated at or after address [b]. *)
Definition fresh (b : nat) (p : ptr) : Prop :=
  forall a, p = Some a -> (b <= a)%nat.

Definition any {A} (a : A) : Prop := True.

(** [m2] does what [m1] does whenever [m1] is not cut off. *)
Definition refines {A} (m1 m2 : M A) : Prop :=
  forall s r s', m1 s = (r, s') -> r <> OutOfFuel -> m2 s = (r, s').

(** The Go call [Execute(c, input)] from state [s] ends with outcome [r] in
    state [s']. *)
Definition Executes (c : Circuit) (input : ptr) (s : State)
    (r : Res (ptr * error)) (s' : State) : Prop :=
  exists fuel, Execute fuel c input s = (r, s') /\ r <> OutOfFuel.

Definition compose_outcome (fuel : nat) (f g : Circuit) (input : ptr) (s : State)
    : Res (ptr * error) * State :=
  match Execute fuel f input s with
  | (Ok (intermediate, None), s1) => Execute fuel g intermediate s1
  | (Ok (_, Some err), s1) => (Ok (None, Some err), s1)
  | (Panic msg, s1) => (Panic msg, s1)
  | (OutOfFuel, s1) => (OutOfFuel, s1)
  end.

Definition id_circuit : Circuit :=
  mkCircuit (mkObject [2]) (mkObject [2]) PrimId None [].
Definition id_QGID : QGID_t := QGID (CircuitToValue id_circuit).
Definition compose_circuit : Circuit :=
  mkCircuit (mkObject [2]) (mkObject [2]) PrimCompose None [id_QGID; id_QGID].
Definition compose_state : State :=
  mkState [mkMatrix 1 1 [QIOne]]
          (mkStore {[ id_QGID := id_circuit ]} {[ id_QGID := CircuitToValue id_circuit ]}).

Definition swap_circuit : Circuit :=
  mkCircuit (mkObject [1]) (mkObject [1]) PrimSwap None [].

(** A state whose only matrix is the zero matrix of the given shape. *)
Definition zero_state (rows cols : Z) : State :=
  mkState [mkMatrix rows cols (replicate (Z.to_nat (rows * cols)) QIZero)] NewStore.

Definition zero_circuit (n : Z) : Circuit :=
  mkCircuit (mkObject [n]) (mkObject [n]) PrimZero None [].
Definition add_circuit : Circuit :=
  mkCircuit (mkObject [1]) (mkObject [1]) PrimAdd None
    [QGID (CircuitToValue (zero_circuit 1)); QGID (CircuitToValue (zero_circuit 2))].
Definition add_state : State :=
  snd (Store_Put (zero_circuit 2) (snd (Store_Put (zero_circuit 1) (zero_state 1 1)))).

(** A binary whose store payload is the canonical encoding of its
    entrypoint circuit. *)
Definition entry_binary : EmbeddedBinary :=
  mkEmbeddedBinary QMB_magic id_QGID "id" "1.0.0" (Encode (CircuitToValue id_circuit)).
Definition empty_state : State := mkState [] NewStore.

(** The value [MatrixFromValue] reads a matrix from. *)
Definition matrix_value (rows cols : Z) (entries rest : list Value) : Value :=
  Tag (Text "matrix") (Seq (Int rows :: Int cols :: Seq entries :: rest)).


(** Every entry is a well-formed ["qi"] value; [qs] are the numbers read. *)
Definition entries_parse (entries : list Value) (qs : list QI) : Prop :=
  map qiFromValue entries = map (fun q => (q, true)) qs.

(** The state after one more matrix was allocated. *)
Definition pushed (s : State) (m : Matrix) : State :=
  mkState (heap s ++ [m]) (store s).


(** The data-model invariant of a matrix: non-negative shape, a data array
    of length [rows * cols], which is the length of a Go slice. *)
Definition wf_matrix (m : Matrix) : Prop :=
  0 <= Rows m /\ 0 <= Cols m /\
  Z.of_nat (length (MData m)) = Rows m * Cols m /\
  Rows m * Cols m < 2 ^ 63.

(** [m[i,j]] of the row-major data. *)
Definition entry (m : Matrix) (i j : Z) : QI :=
  nth (Z.to_nat (i * Cols m + j)) (MData m) QIZero.

(** [i0, i0+1, ..., i0+k-1] *)
Fixpoint Zseq (i0 : Z) (k : nat) : list Z :=
  match k with
  | O => []
  | S k' => i0 :: Zseq (i0 + 1) k'
  end.

(** The [(i,j)] entry of the matrix product: the sum over [k] of
    [a[i,k] * b[k,j]]. *)
Definition product_entry (a b : Matrix) (i j : Z) : QI :=
  fold_left (fun sum k => QIAdd sum (QIMul (entry a i k) (entry b k j)))
            (Zseq 0 (Z.to_nat (Cols a))) QIZero.

(** A row [(1, i)] and a column [(i, 1)] on the heap. *)
Definition row_col_state : State :=
  mkState [mkMatrix 1 2 [QIOne; QII]; mkMatrix 2 1 [QII; QIOne]] NewStore.

(** Rows below [i] of the product of [a] and [b] are in place in [d]. *)
Definition product_rows_done (a b : Matrix) (i : Z) (d : list QI) : Prop :=
  forall i' j', 0 <= i' < i -> 0 <= j' < Cols b ->
    d !! Z.to_nat (i' * Cols b + j') = Some (product_entry a b i' j').

(** The tests of the package, as programs of the model. *)
Definition TestKronecker : M bool :=
  I2 <- Identity 2 ;;
  result <- Kronecker I2 I2 ;;
  I4 <- Identity 4 ;;
  MatrixEqual result I4.

Definition TestMatMul : M bool :=
  I <- Identity 2 ;;
  result <- MatMul I I ;;
  MatrixEqual result I.

Definition TestDagger : M bool :=
  m <- NewMatrix 2 2 ;;
  Matrix_Set m 0 0 QIOne ;;;
  Matrix_Set m 0 1 QII ;;;
  Matrix_Set m 1 0 QIZero ;;;
  Matrix_Set m 1 1 QIOne ;;;
  d <- Dagger m ;;
  d00 <- Matrix_Get d 0 0 ;;
  d01 <- Matrix_Get d 0 1 ;;
  d10 <- Matrix_Get d 1 0 ;;
  d11 <- Matrix_Get d 1 1 ;;
  ret (QIEqual d00 QIOne && QIEqual d01 QIZero && QIEqual d10 (QINeg QII) && QIEqual d11 QIOne).

Definition TestTrace : M bool :=
  I <- Identity 3 ;;
  tr <- Trace I ;;
  ret (QIEqual tr (NewQI (Q2Qc 3) 0%Qc)).

Definition TestExecuteZero : M bool :=
  input <- Identity 2 ;;
  r <- Execute 1 (mkCircuit (mkObject [2]) (mkObject [2]) PrimZero None []) input ;;
  match r with
  | (_, Some _) => ret false
  | (result, None) => zero <- NewMatrix 4 4 ;; MatrixEqual result zero
  end.

Definition TestExecuteCompose : M bool :=
  idID <- Store_Put id_circuit ;;
  input <- Identity 4 ;;
  r <- Execute 2 (mkCircuit (mkObject [2]) (mkObject [2]) PrimCompose None [idID; idID]) input ;;
  match r with
  | (_, Some _) => ret false
  | (result, None) => MatrixEqual result input
  end.

Definition TestMatrixToFromValue : M bool :=
  m <- Identity 2 ;;
  v <- MatrixToValue m ;;
  r <- MatrixFromValue (Some v) ;;
  let '(parsed, ok) := r in
  if negb ok then ret false else MatrixEqual parsed m.

(** The number a varint byte string stands for: seven bits per byte, least
    significant group first. *)
Fixpoint varint_value (bs : list byte) : Z :=
  match bs with
  | [] => 0
  | b :: rest => Z.land (Z_of_byte b) 0x7F + 128 * varint_value rest
  end.

(** Every byte but the last carries the continuation bit. *)
Fixpoint varint_framed (bs : list byte) : Prop :=
  match bs with
  | [] => False
  | [b] => Z_of_byte b < 128
  | b :: rest => 128 <= Z_of_byte b /\ varint_framed rest
  end.

(** Block sizes are [uint32] values. *)
Definition blocks_uint32 (o : Object) : Prop :=
  Forall (fun n => 0 <= n < 2 ^ 32) (Blocks o).

(** A circuit as the Go types hold it: [uint32] block sizes and a
    primitive tag that is a 64-bit [int]. *)
Definition circuit_typed (c : Circuit) : Prop :=
  blocks_uint32 (Domain c) /\ blocks_uint32 (Codomain c) /\
  - 2 ^ 63 <= CPrim c < 2 ^ 63.

(** A circuit with its nil [Data] replaced by the [Nil] value. *)
Definition with_data (c : Circuit) : Circuit :=
  mkCircuit (Domain c) (Codomain c) (CPrim c)
            (Some (match Data c with None => MakeNil | Some d => d end)) (Children c).

(** The sum of the squares of the block sizes. *)
Definition sum_squares (blocks : list Z) : Z :=
  fold_right (fun n acc => n * n + acc) 0 blocks.

(** The store of a runner after loading the payload [sd]: no circuit, and
    the payload as a single value unless it is empty. *)
Definition loaded_store (sd : list byte) : Store :=
  mkStore ∅ (match sd with
             | [] => ∅
             | _ => {[ QGID (fst (decodeValue sd)) := fst (decodeValue sd) ]}
             end).

(** [m] with its entry at linear index [k] replaced by [v]. *)
Definition with_entry (m : Matrix) (k : Z) (v : QI) : Matrix :=
  mkMatrix (Rows m) (Cols m) (<[Z.to_nat k := v]> (MData m)).

(** The state in which the matrix at address [p] is [m]. *)
Definition stored (s : State) (p : nat) (m : Matrix) : State :=
  mkState (<[p := m]> (heap s)) (store s).

(** The sum of the diagonal entries, in the order [Trace] adds them. *)
Definition diagonal_sum (m : Matrix) : QI :=
  fold_left (fun sum i => QIAdd sum (entry m i i)) (Zseq 0 (Z.to_nat (Rows m))) QIZero.

(** The data array after the writes [ws] (index, entry), first to last. *)
Definition apply_writes (ws : list (nat * QI)) (d : list QI) : list QI :=
  fold_left (fun d w => <[fst w := snd w]> d) ws d.



(** The primitives [Execute] has a case for. *)
Definition executable_prims : list Prim :=
  [PrimId; PrimCompose; PrimTensor; PrimSwap; PrimDiscard; PrimZero;
   PrimUnitary; PrimChoi; PrimPrepare; PrimAdd; PrimScale].

(** The call returns the error [msg] and no matrix, and leaves the state as
    it was. *)
Definition fails_with (r : Res (ptr * error) * State) (msg : string) (s : State) : Prop :=
  r = (Ok (None, Some msg), s).



Definition scale_circuit : Circuit :=
  mkCircuit (mkObject [1]) (mkObject [1]) PrimScale (Some (Rat (Q2Qc 2))) [id_QGID].


(** * Properties *)

(** ** Gaussian rationals *)

Lemma Rat_Sign_zero (q : Qc) : (Rat_Sign q =? 0) = true <-> q = 0%Qc.
Proof.
  unfold Rat_Sign, Rat_Num. rewrite Z.eqb_eq, Z.sgn_null_iff.
  split.
  - intros H. apply Qc_is_canon. destruct q as [[n d] Hc]; simpl in *. subst n. reflexivity.
  - intros ->. reflexivity.
Qed.

Lemma Q_sum_squares_zero (x y : Q) : (x * x + y * y == 0)%Q -> (x == 0)%Q /\ (y == 0)%Q.
Proof.
  intros H.
  assert (Hx : (0 <= x * x)%Q) by nra.
  assert (Hy : (0 <= y * y)%Q) by nra.
  split; nra.
Qed.

Lemma QINormSq_zero (q : QI) : QINormSq q = 0%Qc <-> q = QIZero.
Proof.
  destruct q as [re im]. unfold QINormSq, QIZero; simpl. split.
  - intros H.
    assert (Hq : (this re * this re + this im * this im == 0)%Q).
    { apply (f_equal this) in H. simpl in H.
      rewrite <- (Qred_correct (this re * this re)), <- (Qred_correct (this im * this im)).
      rewrite <- Qred_correct. rewrite H. reflexivity. }
    apply Q_sum_squares_zero in Hq as [Hr Hi].
    f_equal; apply Qc_is_canon; assumption.
  - intros [= -> ->]. apply Qc_is_canon. reflexivity.
Qed.

Lemma QIMul_QIInv (q : QI) : q <> QIZero -> QIMul q (fst (QIInv q)) = QIOne.
Proof.
  intros Hq. unfold QIInv.
  destruct (Rat_Sign (QINormSq q) =? 0) eqn:E.
  - apply Rat_Sign_zero, QINormSq_zero in E. contradiction.
  - assert (Hn : QINormSq q <> 0%Qc).
    { intros H. apply Rat_Sign_zero in H. congruence. }
    destruct q as [re im]. unfold QIMul, QIOne, QIConj, QINormSq in *; simpl in *.
    f_equal; field; assumption.
Qed.

(** C7.  [QIInv q] fails (its flag is [false]) exactly when the squared norm
    of [q] is zero, which is exactly when [q] is zero; and for every
    non-zero [q] it succeeds with [q * inv q = 1]. *)
Theorem QIInv_spec (q : QI) :
  (snd (QIInv q) = false <-> QINormSq q = 0%Qc) /\
  (QINormSq q = 0%Qc <-> q = QIZero) /\
  (q <> QIZero -> snd (QIInv q) = true /\ QIMul q (fst (QIInv q)) = QIOne).
Proof.
  assert (Hsnd : snd (QIInv q) = false <-> QINormSq q = 0%Qc).
  { unfold QIInv. destruct (Rat_Sign (QINormSq q) =? 0) eqn:E; simpl.
    - apply Rat_Sign_zero in E. tauto.
    - split; [discriminate|]. intros H. apply Rat_Sign_zero in H. congruence. }
  split; [exact Hsnd|]. split; [apply QINormSq_zero|].
  intros Hq. split; [|now apply QIMul_QIInv].
  apply not_false_iff_true. intros E. apply Hsnd, QINormSq_zero in E. contradiction.
Qed.

(** C7 at the imaginary unit. *)
Lemma QIInv_spec_witness :
  QII <> QIZero /\ snd (QIInv QII) = true /\ QIMul QII (fst (QIInv QII)) = QIOne.
Proof.
  assert (H : QII <> QIZero).
  { intros E. apply (f_equal Im) in E. apply (f_equal this) in E. discriminate E. }
  split; [exact H|]. destruct (QIInv_spec QII) as (_ & _ & Hinv). exact (Hinv H).
Defined.

(** ** The digest *)

(** The digest of ["abc"], as in FIPS 180-4. *)
Lemma Sum256_abc :
  map Z_of_byte (vec_to_list (SHA256.Sum256 (bytes_of_string "abc"))) =
  [186; 120; 22; 191; 143; 1; 207; 234; 65; 65; 64; 222; 93; 174; 34; 35;
   176; 3; 97; 163; 150; 23; 122; 156; 180; 16; 255; 97; 242; 0; 21; 173].
Proof. vm_compute. reflexivity. Qed.

(** The digest of the empty message. *)
Lemma Sum256_empty :
  map Z_of_byte (vec_to_list (SHA256.Sum256 [])) =
  [227; 176; 196; 66; 152; 252; 28; 20; 154; 251; 244; 200; 153; 111; 185; 36;
   39; 174; 65; 228; 100; 155; 147; 76; 164; 149; 153; 27; 120; 82; 184; 85].
Proof. vm_compute. reflexivity. Qed.

(** ** Equality and digests of values *)

Lemma bytes_loop_equal_eq (a b : list byte) :
  length a = length b -> bytes_loop_equal a b = true -> a = b.
Proof.
  revert b. induction a as [|x a IH]; intros [|y b]; simpl; try discriminate; auto.
  intros [= Hl]. destruct (Byte.eqb x y) eqn:E; [|discriminate].
  intros H. apply Byte.byte_dec_bl in E. subst. f_equal. auto.
Qed.

Lemma bytes_loop_equal_refl (a : list byte) : bytes_loop_equal a a = true.
Proof.
  induction a as [|x a IH]; simpl; [reflexivity|].
  now rewrite (Byte.byte_dec_lb (eq_refl x)).
Qed.

Lemma Equal_eq (a b : Value) : Equal a b = true -> a = b.
Proof.
  revert b. induction a using Value_nested_ind; intros [] Heq; simpl in Heq;
    try discriminate; try reflexivity.
  - apply Z.eqb_eq in Heq. now subst.
  - apply Qc_eq_bool_correct in Heq. now subst.
  - destruct (length b =? length V)%nat eqn:E; [|discriminate]. simpl in Heq.
    apply Nat.eqb_eq in E. f_equal. now apply bytes_loop_equal_eq.
  - apply String.eqb_eq in Heq. now subst.
  - destruct (length items =? length Items)%nat eqn:E; [|discriminate]. simpl in Heq.
    apply Nat.eqb_eq in E. f_equal.
    revert Items E Heq. induction H as [|x l Hx Hl IH]; intros [|y l'] E Heq;
      try discriminate; [reflexivity|].
    destruct (Equal x y) eqn:Exy; [|discriminate].
    f_equal; [now apply Hx|]. apply IH; [now injection E | exact Heq].
  - apply andb_true_iff in Heq as [H1 H2]. f_equal; auto.
  - apply Bool.eqb_prop in Heq. now subst.
Qed.

Lemma Equal_refl (a : Value) : Equal a a = true.
Proof.
  induction a using Value_nested_ind; simpl.
  - apply Z.eqb_refl.
  - unfold Qc_eq_bool. destruct (Qcanon.Qc_eq_dec q q); [reflexivity | contradiction].
  - rewrite Nat.eqb_refl. simpl. apply bytes_loop_equal_refl.
  - apply String.eqb_refl.
  - rewrite Nat.eqb_refl. simpl. induction H as [|x l Hx Hl IH]; [reflexivity|].
    now rewrite Hx.
  - now rewrite IHa1, IHa2.
  - apply Bool.eqb_reflx.
  - reflexivity.
Qed.

Lemma Equal_QGID (a b : Value) : Equal a b = true -> QGID a = QGID b.
Proof. intros H. apply Equal_eq in H. now subst. Qed.

(** C2 (fails on the code).  Equality and digests disagree: the two values
    are structurally different ([Equal] is false) and have the same
    canonical encoding, hence the same QGID.  The byte [0x40] is both the
    small integer 64 and the marker of a long non-negative integer. *)
Theorem Equal_QGID_disagree :
  Equal collide_a collide_b = false /\
  Encode collide_a = Encode collide_b /\
  QGID collide_a = QGID collide_b.
Proof.
  assert (He : Encode collide_a = Encode collide_b) by (vm_compute; reflexivity).
  split; [vm_compute; reflexivity|]. split; [exact He|].
  unfold QGID. now rewrite He.
Qed.

(** ** The store is content-addressed *)

Lemma store_keys_ok_new : store_keys_ok NewStore.
Proof. split; intros id x H; simpl in H; rewrite lookup_empty in H; discriminate. Qed.

Lemma store_keys_ok_op op s :
  store_keys_ok (store s) -> store_keys_ok (store (snd (run_StoreOp op s))).
Proof.
  intros [Hc Hv]. destruct op as [c|v]; split; intros id x H; simpl in H.
  - apply lookup_insert_Some in H as [[<- <-]|[_ H]]; [reflexivity | now apply Hc].
  - apply lookup_insert_Some in H as [[<- <-]|[_ H]]; [reflexivity | now apply Hv].
  - now apply Hc.
  - apply lookup_insert_Some in H as [[<- <-]|[_ H]]; [reflexivity | now apply Hv].
Qed.

Lemma store_keys_ok_ops ops s :
  store_keys_ok (store s) -> store_keys_ok (store (run_StoreOps ops s)).
Proof.
  revert s. induction ops as [|op ops IH]; intros s H; simpl; [exact H|].
  apply IH. now apply store_keys_ok_op.
Qed.

(** C8.  In every store reached from the empty store by [Put] and
    [PutValue], each circuit is keyed by the QGID of its encoding as a
    value and each value by its own QGID; and [Put] is idempotent: putting
    a circuit twice returns the same digest both times and the second put
    leaves the store as the first left it. *)
Theorem store_content_addressed (ops : list StoreOp) (h : list Matrix) (c : Circuit) :
  let s := run_StoreOps ops (mkState h NewStore) in
  store_keys_ok (store s) /\
  (let '(r1, s1) := Store_Put c s in
   let '(r2, s2) := Store_Put c s1 in
   r1 = Ok (QGID (CircuitToValue c)) /\ r2 = r1 /\ s2 = s1 /\
   circuits (store s1) !! QGID (CircuitToValue c) = Some c /\
   store_keys_ok (store s1)).
Proof.
  intros s.
  assert (Hs : store_keys_ok (store s)).
  { apply store_keys_ok_ops. simpl. apply store_keys_ok_new. }
  split; [exact Hs|]. destruct Hs as [Hc Hv].
  unfold Store_Put; simpl. repeat split.
  - now rewrite !insert_insert_eq.
  - apply lookup_insert_eq.
  - intros id x H. simpl in H.
    apply lookup_insert_Some in H as [[<- <-]|[_ H]]; [reflexivity | now apply Hc].
  - intros id x H. simpl in H.
    apply lookup_insert_Some in H as [[<- <-]|[_ H]]; [reflexivity | now apply Hv].
Qed.

(** ** The embedded binary: round trip *)

Lemma Z_of_byte_of_Z (z : Z) : Z_of_byte (byte_of_Z z) = z mod 256.
Proof.
  unfold Z_of_byte, byte_of_Z.
  assert (Hr : 0 <= z mod 256 < 256) by (apply Z.mod_pos_bound; lia).
  destruct (Byte.of_N (Z.to_N (z mod 256))) as [b|] eqn:E.
  - apply Byte.to_of_N in E. rewrite E. lia.
  - apply Byte.of_N_None_iff in E. lia.
Qed.

Lemma byte_of_Z_of_byte (b : byte) : byte_of_Z (Z_of_byte b) = b.
Proof.
  unfold Z_of_byte, byte_of_Z.
  pose proof (Byte.to_N_bounded b) as Hb.
  rewrite Z.mod_small by lia. rewrite N2Z.id, Byte.of_to_N. reflexivity.
Qed.

Lemma u32_bytes (n : Z) :
  0 <= n < 2 ^ 32 ->
  Z.lor (Z.lor (Z.lor (Z.shiftl (Z.shiftr n 24 mod 256) 24)
                      (Z.shiftl (Z.shiftr n 16 mod 256) 16))
               (Z.shiftl (Z.shiftr n 8 mod 256) 8))
        (n mod 256) = n.
Proof.
  intros Hn. apply Z.bits_inj'. intros i Hi.
  change 256 with (2 ^ 8).
  rewrite !Z.lor_spec.
  assert (Hhigh : 32 <= i -> Z.testbit n i = false).
  { intros H. destruct (Z.eq_dec n 0) as [->|Hz]; [apply Z.bits_0|].
    assert (Z.log2 n < 32) by (apply Z.log2_lt_pow2; lia).
    apply Z.bits_above_log2; lia. }
  destruct (Z_lt_dec i 8); [|destruct (Z_lt_dec i 16); [|destruct (Z_lt_dec i 24);
    [|destruct (Z_lt_dec i 32)]]].
  - rewrite !Z.shiftl_spec_low by lia. rewrite Z.mod_pow2_bits_low by lia. reflexivity.
  - rewrite (Z.shiftl_spec_low _ 24), (Z.shiftl_spec_low _ 16) by lia.
    rewrite Z.shiftl_spec by lia. rewrite Z.mod_pow2_bits_low by lia.
    rewrite Z.shiftr_spec by lia. rewrite (Z.mod_pow2_bits_high n) by lia.
    replace (i - 8 + 8) with i by lia. simpl. now rewrite orb_false_r.
  - rewrite (Z.shiftl_spec_low _ 24) by lia.
    rewrite !Z.shiftl_spec by lia. rewrite Z.mod_pow2_bits_low by lia.
    rewrite (Z.mod_pow2_bits_high (Z.shiftr n 8)) by lia.
    rewrite Z.shiftr_spec by lia. rewrite (Z.mod_pow2_bits_high n) by lia.
    replace (i - 16 + 16) with i by lia. simpl. now rewrite !orb_false_r.
  - rewrite !Z.shiftl_spec by lia. rewrite Z.mod_pow2_bits_low by lia.
    rewrite (Z.mod_pow2_bits_high (Z.shiftr n 8)) by lia.
    rewrite (Z.mod_pow2_bits_high (Z.shiftr n 16)) by lia.
    rewrite Z.shiftr_spec by lia. rewrite (Z.mod_pow2_bits_high n) by lia.
    replace (i - 24 + 24) with i by lia. now rewrite !orb_false_r.
  - rewrite !Z.shiftl_spec by lia.
    rewrite (Z.mod_pow2_bits_high (Z.shiftr n 8)) by lia.
    rewrite (Z.mod_pow2_bits_high (Z.shiftr n 16)) by lia.
    rewrite (Z.mod_pow2_bits_high (Z.shiftr n 24)) by lia.
    rewrite (Z.mod_pow2_bits_high n) by lia. rewrite Hhigh by lia. reflexivity.
Qed.

Lemma byte_at_app_r (pre rest : list byte) (k : nat) :
  byte_at (pre ++ rest) (length pre + k) = byte_at rest k.
Proof. unfold byte_at. now rewrite lookup_app_r, Nat.add_comm, Nat.add_sub by lia. Qed.

Lemma read_u32_be_bytes (pre rest : list byte) (n : Z) :
  0 <= n < 2 ^ 32 ->
  read_u32 (pre ++ be_bytes 4 n ++ rest) (length pre) = n.
Proof.
  intros Hn. unfold read_u32.
  rewrite <- (Nat.add_0_r (length pre)) at 1.
  rewrite !byte_at_app_r. simpl.
  unfold byte_at; simpl. rewrite !Z_of_byte_of_Z. rewrite Z.shiftr_0_r.
  now apply u32_bytes.
Qed.

Lemma copy_at_zeros (pre src : list byte) (k off : nat) :
  off = length pre -> (length src <= k)%nat ->
  copy_at (pre ++ replicate k "000"%byte) off src
  = (pre ++ src) ++ replicate (k - length src) "000"%byte.
Proof.
  intros -> Hk. unfold copy_at.
  rewrite take_app_length, length_app, length_replicate.
  replace (length pre + k - length pre)%nat with k by lia.
  rewrite (take_ge src) by lia.
  rewrite drop_app_add', drop_replicate by reflexivity.
  now rewrite <- app_assoc.
Qed.

Lemma insert_zeros (pre : list byte) (b : byte) (k off : nat) :
  off = length pre -> (0 < k)%nat ->
  <[off := b]> (pre ++ replicate k "000"%byte)
  = (pre ++ [b]) ++ replicate (k - 1) "000"%byte.
Proof.
  intros -> Hk. destruct k as [|k]; [lia|].
  rewrite insert_app_r_alt, Nat.sub_diag by lia. simpl.
  rewrite Nat.sub_0_r. now rewrite <- app_assoc.
Qed.

Lemma Binary_Encode_concat (e : EmbeddedBinary) :
  Binary_Encode e =
  vec_to_list (Magic e) ++ vec_to_list (Entrypoint e)
    ++ be_bytes 4 (Z.of_nat (length (bytes_of_string (Name e)))) ++ bytes_of_string (Name e)
    ++ be_bytes 4 (Z.of_nat (length (bytes_of_string (Version e)))) ++ bytes_of_string (Version e)
    ++ StoreData e.
Proof.
  unfold Binary_Encode.
  set (N := bytes_of_string (Name e)). set (V := bytes_of_string (Version e)).
  set (Mg := vec_to_list (Magic e)). set (Ep := vec_to_list (Entrypoint e)).
  assert (HM : length Mg = 4%nat) by apply length_vec_to_list.
  assert (HE : length Ep = 32%nat) by apply length_vec_to_list.
  cbv zeta.
  rewrite <- (app_nil_l (replicate _ _)).
  rewrite copy_at_zeros by (simpl; lia).
  rewrite copy_at_zeros by (rewrite ?length_app; simpl; lia).
  do 4 (rewrite insert_zeros by (rewrite ?length_app; simpl; lia)).
  rewrite copy_at_zeros by (rewrite ?length_app; simpl; lia).
  do 4 (rewrite insert_zeros by (rewrite ?length_app; simpl; lia)).
  rewrite copy_at_zeros by (rewrite ?length_app; simpl; lia).
  rewrite copy_at_zeros by (rewrite ?length_app; simpl; lia).
  match goal with |- context [replicate ?k _] => replace k with 0%nat by lia end.
  simpl. rewrite Z.shiftr_0_r. rewrite <- !app_assoc. simpl. rewrite app_nil_r. reflexivity.
Qed.

Lemma slice_app (pre mid rest : list byte) (a b : nat) :
  a = length pre -> b = (length pre + length mid)%nat ->
  slice (pre ++ mid ++ rest) a b = mid.
Proof.
  intros -> ->. unfold slice.
  rewrite drop_app_length. replace (length pre + length mid - length pre)%nat with (length mid) by lia.
  apply take_app_length.
Qed.

Lemma be_bytes_length n z : length (be_bytes n z) = n.
Proof. induction n; simpl; congruence. Qed.

Lemma string_of_bytes_of_string s : string_of_list_byte (bytes_of_string s) = s.
Proof. apply string_of_list_byte_of_string. Qed.

(** C6 (as amended).  For every container whose magic is [QMB_magic] and
    whose name and version are shorter than [2^32] bytes,
    [Decode (Encode c)] succeeds and returns [c] itself: magic, entrypoint,
    name, version and store payload. *)
Theorem Decode_Encode_roundtrip (c : EmbeddedBinary) :
  binary_wf c -> Decode (Binary_Encode c) = (Some c, None).
Proof.
  intros (HM & HN & HV). rewrite Binary_Encode_concat.
  destruct c as [Mg Ep name version sd];
    cbn [Magic Entrypoint Name Version StoreData] in *. subst Mg.
  set (N := bytes_of_string name) in *. set (V := bytes_of_string version) in *.
  set (E := vec_to_list Ep).
  assert (HE : length E = 32%nat) by apply length_vec_to_list.
  set (LN := be_bytes 4 (Z.of_nat (length N))).
  set (LV := be_bytes 4 (Z.of_nat (length V))).
  assert (HLN : length LN = 4%nat) by apply be_bytes_length.
  assert (HLV : length LV = 4%nat) by apply be_bytes_length.
  set (data := vec_to_list QMB_magic ++ E ++ LN ++ N ++ LV ++ V ++ sd).
  assert (Hlen : length data = (4 + 32 + 4 + length N + 4 + length V + length sd)%nat).
  { unfold data. rewrite !length_app. rewrite HE, HLN, HLV. simpl. lia. }
  assert (Hn : read_u32 data 36 = Z.of_nat (length N)).
  { unfold data. rewrite app_assoc.
    replace 36%nat with (length (vec_to_list QMB_magic ++ E)) by (rewrite length_app, HE; reflexivity).
    apply read_u32_be_bytes. lia. }
  assert (Hv : read_u32 data (36 + 4 + length N) = Z.of_nat (length V)).
  { unfold data. rewrite (app_assoc _ E), (app_assoc _ LN), (app_assoc _ N).
    replace (36 + 4 + length N)%nat with (length (((vec_to_list QMB_magic ++ E) ++ LN) ++ N))
      by (rewrite !length_app, HE, HLN; simpl; lia).
    apply read_u32_be_bytes. lia. }
  unfold Decode. cbv zeta.
  replace (length data <? 4)%nat with false by (symmetry; apply Nat.ltb_ge; lia).
  replace (byte_at data 0) with "Q"%byte by reflexivity.
  replace (byte_at data 1) with "M"%byte by reflexivity.
  replace (byte_at data 2) with "B"%byte by reflexivity.
  replace (byte_at data 3) with "001"%byte by reflexivity.
  cbn [Byte.eqb negb orb].
  replace (length data <? 36)%nat with false by (symmetry; apply Nat.ltb_ge; lia).
  replace (length data <? 36 + 4)%nat with false by (symmetry; apply Nat.ltb_ge; lia).
  rewrite Hn, Nat2Z.id.
  replace (Z.of_nat (length data) <? Z.of_nat (36 + 4) + Z.of_nat (length N)) with false
    by (symmetry; apply Z.ltb_ge; lia).
  replace (length data <? 36 + 4 + length N + 4)%nat with false
    by (symmetry; apply Nat.ltb_ge; lia).
  rewrite Hv, Nat2Z.id.
  replace (Z.of_nat (length data) <? Z.of_nat (36 + 4 + length N + 4) + Z.of_nat (length V))
    with false by (symmetry; apply Z.ltb_ge; lia).
  assert (H1 : copy_to_array 4 (slice data 0 4) = QMB_magic) by reflexivity.
  assert (H2 : copy_to_array 32 (slice data 4 36) = Ep).
  { unfold data. change (vec_to_list QMB_magic ++ E ++ LN ++ N ++ LV ++ V ++ sd)
      with (vec_to_list QMB_magic ++ E ++ (LN ++ N ++ LV ++ V ++ sd)).
    rewrite slice_app by (rewrite ?HE; reflexivity).
    apply copy_to_array_vec_to_list. }
  assert (H3 : slice data (36 + 4) (36 + 4 + length N) = N).
  { unfold data. rewrite (app_assoc _ E), (app_assoc _ LN).
    apply slice_app; rewrite !length_app, ?HE, ?HLN; simpl; lia. }
  assert (H4 : slice data (36 + 4 + length N + 4) (36 + 4 + length N + 4 + length V) = V).
  { unfold data. rewrite (app_assoc _ E), (app_assoc _ LN), (app_assoc _ N), (app_assoc _ LV).
    apply slice_app; rewrite !length_app, ?HE, ?HLN, ?HLV; simpl; lia. }
  assert (H5 : drop (36 + 4 + length N + 4 + length V) data = sd).
  { unfold data. rewrite (app_assoc _ E), (app_assoc _ LN), (app_assoc _ N), (app_assoc _ LV),
      (app_assoc _ V).
    apply drop_app_length'. rewrite !length_app, ?HE, ?HLN, ?HLV; simpl; lia. }
  rewrite H1, H2, H3, H4, H5. unfold N, V. now rewrite !string_of_bytes_of_string.
Qed.

(** C6 (as amended) at the container of the round-trip example. *)
Lemma Decode_Encode_roundtrip_witness :
  binary_wf test_binary /\ Decode (Binary_Encode test_binary) = (Some test_binary, None).
Proof.
  assert (H : binary_wf test_binary).
  { split; [reflexivity|]. split; vm_compute; reflexivity. }
  split; [exact H | exact (Decode_Encode_roundtrip test_binary H)].
Defined.

(** C6 as stated fails: a container whose magic is four zero bytes encodes
    to bytes that [Decode] rejects. *)
Lemma Decode_Encode_bad_magic :
  Decode (Binary_Encode bad_magic_binary)
  = (None, Some "invalid magic: expected QMB\x01"%string).
Proof. vm_compute. reflexivity. Qed.

(** ** The executor reads the state and writes only what it allocates *)

Lemma preserves_refl b s : preserves b s s.
Proof. repeat split; lia. Qed.

Lemma preserves_trans b s1 s2 s3 :
  preserves b s1 s2 -> preserves b s2 s3 -> preserves b s1 s3.
Proof. intros (?&?&?) (?&?&?). repeat split; try congruence; lia. Qed.

Lemma frame_ret {A} b (a : A) (Q : A -> Prop) : Q a -> frame b (ret a) Q.
Proof.
  intros HQ s Hb. split; [apply preserves_refl|].
  intros a' [= <-]. exact HQ.
Qed.

Lemma frame_panic {A} b msg (Q : A -> Prop) : frame b (panic msg) Q.
Proof. intros s Hb. split; [apply preserves_refl | discriminate]. Qed.

Lemma frame_bind {A B} b (m : M A) (f : A -> M B) (Q : A -> Prop) (R : B -> Prop) :
  frame b m Q -> (forall a, Q a -> frame b (f a) R) -> frame b (bind m f) R.
Proof.
  intros Hm Hf s Hb. destruct (Hm s Hb) as [Hp HQ]. unfold bind.
  destruct (m s) as [[a|msg|] s1] eqn:E; simpl in *;
    try (split; [exact Hp | discriminate]).
  destruct Hp as (Hs & Ht & Hl).
  destruct (Hf a (HQ a eq_refl) s1 ltac:(lia)) as [Hp' HR].
  split; [|exact HR].
  eapply preserves_trans; [|exact Hp']. repeat split; assumption.
Qed.

Lemma frame_weaken {A} b (m : M A) (Q Q' : A -> Prop) :
  frame b m Q -> (forall a, Q a -> Q' a) -> frame b m Q'.
Proof. intros Hm HQ s Hb. destruct (Hm s Hb) as [Hp H]. split; auto. Qed.

Lemma frame_deref b p : frame b (deref p) any.
Proof.
  intros s Hb. unfold deref. destruct p as [a|]; [destruct (heap s !! a)|];
    (split; [apply preserves_refl | intros; exact I]).
Qed.

Lemma frame_alloc b m : frame b (alloc m) (fresh b).
Proof.
  intros s Hb. unfold alloc; simpl. split.
  - repeat split; simpl.
    + now rewrite take_app_le.
    + rewrite length_app. lia.
  - intros a [= <-] a' [= <-]. exact Hb.
Qed.

Lemma frame_data_get b p i : frame b (data_get p i) any.
Proof.
  unfold data_get. eapply frame_bind; [apply frame_deref|]. intros m _.
  destruct (_ || _); [apply frame_panic|].
  destruct (MData m !! Z.to_nat i); [now apply frame_ret | apply frame_panic].
Qed.

Lemma frame_data_set b p i v : fresh b p -> frame b (data_set p i v) any.
Proof.
  intros Hp. unfold data_set. eapply frame_bind; [apply frame_deref|]. intros m _.
  destruct (_ || _); [apply frame_panic|].
  intros s Hb. destruct p as [a|]; simpl; [|split; [apply preserves_refl | discriminate]].
  split; [|intros; exact I]. repeat split; simpl.
  - apply take_insert_ge. now apply Hp.
  - now rewrite length_insert.
Qed.

Lemma frame_for_loop b k i body :
  (forall j, frame b (body j) any) -> frame b (for_loop k i body) any.
Proof.
  intros Hbody. revert i. induction k as [|k IH]; intros i; simpl.
  - now apply frame_ret.
  - eapply frame_bind; [apply Hbody|]. intros _ _. apply IH.
Qed.

Lemma frame_for_upto b n body :
  (forall j, frame b (body j) any) -> frame b (for_upto n body) any.
Proof. intros H. now apply frame_for_loop. Qed.

Lemma frame_for_acc_loop {A} b k i (body : Z -> A -> M A) acc :
  (forall j a, frame b (body j a) any) -> frame b (for_acc_loop k i body acc) any.
Proof.
  intros Hbody. revert i acc. induction k as [|k IH]; intros i acc; simpl.
  - now apply frame_ret.
  - eapply frame_bind; [apply Hbody|]. intros a _. apply IH.
Qed.

Lemma frame_for_acc {A} b n (body : Z -> A -> M A) acc :
  (forall j a, frame b (body j a) any) -> frame b (for_acc n body acc) any.
Proof. intros H. now apply frame_for_acc_loop. Qed.

Lemma frame_NewMatrix b rows cols : frame b (NewMatrix rows cols) (fresh b).
Proof. unfold NewMatrix. destruct (_ <? 0); [apply frame_panic | apply frame_alloc]. Qed.

Lemma frame_Matrix_Get b m i j : frame b (Matrix_Get m i j) any.
Proof.
  unfold Matrix_Get. eapply frame_bind; [apply frame_deref|]. intros r _.
  apply frame_data_get.
Qed.

Lemma frame_Matrix_Set b m i j v : fresh b m -> frame b (Matrix_Set m i j v) any.
Proof.
  intros Hm. unfold Matrix_Set. eapply frame_bind; [apply frame_deref|]. intros r _.
  now apply frame_data_set.
Qed.

Lemma fresh_None b : fresh b None.
Proof. intros a [=]. Qed.

Create HintDb frame.
#[local] Hint Resolve frame_deref frame_alloc frame_data_get frame_data_set
  frame_NewMatrix frame_Matrix_Get frame_Matrix_Set frame_panic fresh_None : frame.
#[local] Hint Extern 1 (any _) => exact I : frame.

(** One step of a frame proof: split a bind, enter a loop or a branch. *)
Ltac frame_step :=
  lazymatch goal with
  | |- frame _ (bind _ _) _ => eapply frame_bind; [ | intros ? ?]
  | |- frame _ (ret _) _ => apply frame_ret
  | |- frame _ (for_upto _ _) _ => apply frame_for_upto; intros ?
  | |- frame _ (for_acc _ _ _) _ => apply frame_for_acc; intros ? ?
  | |- frame _ (if ?c then _ else _) _ => destruct c
  | |- frame _ (match ?x with _ => _ end) _ => destruct x
  | |- frame _ (let '(_, _) := ?x in _) _ => destruct x
  | |- _ => solve [eauto with frame]
  end.
Ltac frame_tac := repeat frame_step.

Lemma frame_Identity b n : frame b (Identity n) (fresh b).
Proof. unfold Identity. frame_tac. Qed.

Lemma frame_MatMul b A B : frame b (MatMul A B) (fresh b).
Proof. unfold MatMul. frame_tac. Qed.

Lemma frame_MatAdd b A B : frame b (MatAdd A B) (fresh b).
Proof. unfold MatAdd. frame_tac. Qed.

Lemma frame_MatScale b A r : frame b (MatScale A r) (fresh b).
Proof. unfold MatScale. frame_tac. Qed.

Lemma frame_Dagger b A : frame b (Dagger A) (fresh b).
Proof. unfold Dagger. frame_tac. Qed.

Lemma frame_Trace b A : frame b (Trace A) any.
Proof. unfold Trace. frame_tac. Qed.

Lemma frame_Kronecker b A B : frame b (Kronecker A B) (fresh b).
Proof. unfold Kronecker. frame_tac. Qed.

Lemma frame_Matrix_Clone b m : frame b (Matrix_Clone m) (fresh b).
Proof. unfold Matrix_Clone. frame_tac. Qed.

Lemma frame_MatrixFromValue_loop b m i items :
  fresh b m -> frame b (MatrixFromValue_loop m i items) any.
Proof.
  intros Hm. revert i. induction items as [|item rest IH]; intros i; simpl.
  - now apply frame_ret.
  - destruct (qiFromValue item) as [qi ok]. destruct (negb ok); [now apply frame_ret|].
    eapply frame_bind; [now apply frame_data_set|]. intros _ _. apply IH.
Qed.

Lemma frame_MatrixFromValue b v : frame b (MatrixFromValue v) any.
Proof.
  unfold MatrixFromValue.
  repeat lazymatch goal with
  | |- frame _ (match ?x with _ => _ end) _ => destruct x
  | |- frame _ (if ?c then _ else _) _ => destruct c
  | |- frame _ (ret _) _ => now apply frame_ret
  end.
  eapply frame_bind; [apply frame_NewMatrix|]. intros m Hm.
  eapply frame_bind; [now apply frame_MatrixFromValue_loop|]. intros [] _;
    now apply frame_ret.
Qed.

#[local] Hint Resolve frame_Identity frame_MatMul frame_MatAdd frame_MatScale frame_Dagger
  frame_Trace frame_Kronecker frame_Matrix_Clone frame_MatrixFromValue : frame.

Lemma frame_Store_Get b id : frame b (Store_Get id) any.
Proof. intros s Hb. split; [apply preserves_refl | intros; exact I]. Qed.
#[local] Hint Resolve frame_Store_Get : frame.

Lemma frame_applySwap b d c input : frame b (applySwap d c input) any.
Proof. unfold applySwap. frame_tac. Qed.

Lemma frame_applyDiscard b d input : frame b (applyDiscard d input) any.
Proof. unfold applyDiscard. frame_tac. Qed.

Lemma frame_applyUnitary b c input : frame b (applyUnitary c input) any.
Proof. unfold applyUnitary. frame_tac. Qed.

Lemma frame_applyChoi b c input : frame b (applyChoi c input) any.
Proof. unfold applyChoi. frame_tac. Qed.

Lemma frame_applyPrepare b c : frame b (applyPrepare c) any.
Proof. unfold applyPrepare. frame_tac. Qed.

#[local] Hint Resolve frame_applySwap frame_applyDiscard frame_applyUnitary frame_applyChoi
  frame_applyPrepare : frame.

Lemma frame_Execute b fuel c input : frame b (Execute fuel c input) any.
Proof.
  revert c input. induction fuel as [|fuel IH]; intros c input.
  - intros s Hb. split; [apply preserves_refl | discriminate].
  - cbn [Execute]. frame_tac.
Qed.

(** C9.  Whatever [Execute] returns (a matrix, an error, a panic), the store
    is the one it started with, and every matrix that existed before the
    call, the input among them, is unchanged: the heap only grows by the
    matrices the call allocates. *)
Theorem Execute_frame (fuel : nat) (c : Circuit) (input : ptr) (s : State) :
  let '(r, s') := Execute fuel c input s in
  store s' = store s /\
  (exists ext, heap s' = heap s ++ ext) /\
  (forall a m, heap s !! a = Some m -> heap s' !! a = Some m).
Proof.
  destruct (frame_Execute (length (heap s)) fuel c input s (le_n _)) as [(Hs & Ht & Hl) _].
  destruct (Execute fuel c input s) as [r s']. simpl in *.
  rewrite firstn_all in Ht.
  assert (He : heap s' = heap s ++ drop (length (heap s)) (heap s')).
  { rewrite <- Ht at 1. symmetry. apply take_drop. }
  split; [exact Hs|]. split; [eauto|].
  intros a m Ha. rewrite He. now apply lookup_app_l_Some.
Qed.

(** ** Recursion depth *)

Lemma refines_refl {A} (m : M A) : refines m m.
Proof. intros s r s' H _. exact H. Qed.

Lemma refines_bind {A B} (m1 m2 : M A) (f1 f2 : A -> M B) :
  refines m1 m2 -> (forall a, refines (f1 a) (f2 a)) ->
  refines (bind m1 f1) (bind m2 f2).
Proof.
  intros Hm Hf s r s' H Hr. unfold bind in *.
  destruct (m1 s) as [[a|msg|] s1] eqn:E.
  - rewrite (Hm s _ _ E) by discriminate. now apply Hf.
  - rewrite (Hm s _ _ E) by discriminate. exact H.
  - injection H as <- <-. contradiction.
Qed.

Ltac refines_step :=
  lazymatch goal with
  | |- refines (bind _ _) (bind _ _) => apply refines_bind; [ | intros ?]
  | |- refines (if ?c then _ else _) _ => destruct c
  | |- refines (match ?x with _ => _ end) _ => destruct x
  | |- refines ?m ?m => apply refines_refl
  | |- _ => solve [auto]
  end.

Lemma Execute_fuel_S (fuel : nat) :
  forall c input, refines (Execute fuel c input) (Execute (S fuel) c input).
Proof.
  induction fuel as [|fuel IH]; intros c input.
  - intros s r s' [= <- <-] Hr. contradiction.
  - remember (S fuel) as n eqn:Hn. cbn [Execute]. subst n. cbn [Execute].
    repeat refines_step.
Qed.

Lemma Execute_fuel_le (n k : nat) c input :
  (n <= k)%nat -> refines (Execute n c input) (Execute k c input).
Proof.
  induction 1 as [|k Hle IH]; [apply refines_refl|].
  intros s r s' H Hr. apply Execute_fuel_S; auto.
Qed.

Lemma Executes_deterministic c input s r1 s1 r2 s2 :
  Executes c input s r1 s1 -> Executes c input s r2 s2 -> r1 = r2 /\ s1 = s2.
Proof.
  intros (n1 & H1 & Hr1) (n2 & H2 & Hr2).
  destruct (Nat.le_ge_cases n1 n2) as [Hle|Hle].
  - pose proof (Execute_fuel_le _ _ _ _ Hle _ _ _ H1 Hr1). split; congruence.
  - pose proof (Execute_fuel_le _ _ _ _ Hle _ _ _ H2 Hr2). split; congruence.
Qed.

(** ** Composition *)

Lemma Compose_unfold fuel c input s c0 c1 f g :
  CPrim c = PrimCompose -> Children c = [c0; c1] ->
  circuits (store s) !! c0 = Some f -> circuits (store s) !! c1 = Some g ->
  Execute (S fuel) c input s = compose_outcome fuel f g input s.
Proof.
  intros Hp Hc Hf Hg. cbn [Execute]. rewrite Hp, Hc. cbn [Z.eqb PrimId PrimCompose Pos.eqb].
  unfold compose_outcome, bind, Store_Get. rewrite Hf, Hg.
  destruct (Execute fuel f input s) as [[[m [e|]]|msg|] s1]; reflexivity.
Qed.

(** C5.  A Compose circuit.  With exactly two children [(f, g)], both in
    the store, [Execute] is [Execute g] on the result of [Execute f] on the
    input (an error of [f] is returned as it is), at any recursion depth;
    with another number of children it returns the error
    [compose requires 2 children]; with a child that is not in the store it
    returns [child 0 not found] or [child 1 not found]. *)
Theorem Execute_Compose (c : Circuit) (input : ptr) (s : State) :
  CPrim c = PrimCompose ->
  (forall c0 c1 f g,
      Children c = [c0; c1] ->
      circuits (store s) !! c0 = Some f -> circuits (store s) !! c1 = Some g ->
      (forall fuel, Execute (S fuel) c input s = compose_outcome fuel f g input s) /\
      (forall m s1 r s2,
          Executes f input s (Ok (m, None)) s1 -> Executes g m s1 r s2 ->
          Executes c input s r s2) /\
      (forall m e s1,
          Executes f input s (Ok (m, Some e)) s1 ->
          Executes c input s (Ok (None, Some e)) s1)) /\
  (length (Children c) <> 2%nat ->
   forall fuel, Execute (S fuel) c input s
                = (Ok (None, Some "compose requires 2 children"%string), s)) /\
  (forall c0 c1,
      Children c = [c0; c1] -> circuits (store s) !! c0 = None ->
      forall fuel, Execute (S fuel) c input s
                   = (Ok (None, Some "child 0 not found"%string), s)) /\
  (forall c0 c1 f,
      Children c = [c0; c1] ->
      circuits (store s) !! c0 = Some f -> circuits (store s) !! c1 = None ->
      forall fuel, Execute (S fuel) c input s
                   = (Ok (None, Some "child 1 not found"%string), s)).
Proof.
  intros Hp. split; [intros c0 c1 f g Hc Hf Hg; split; [|split] | split; [|split]].
  - intros fuel. now apply (Compose_unfold fuel c input s c0 c1).
  - intros m s1 r s2 (n1 & H1 & _) (n2 & H2 & Hr).
    exists (S (Nat.max n1 n2)). split; [|exact Hr].
    rewrite (Compose_unfold _ _ _ _ _ _ _ _ Hp Hc Hf Hg). unfold compose_outcome.
    rewrite (Execute_fuel_le n1 (Nat.max n1 n2) f input (Nat.le_max_l _ _) _ _ _ H1)
      by discriminate.
    exact (Execute_fuel_le n2 (Nat.max n1 n2) g m (Nat.le_max_r _ _) _ _ _ H2 Hr).
  - intros m e s1 (n1 & H1 & _). exists (S n1). split; [|discriminate].
    rewrite (Compose_unfold _ _ _ _ _ _ _ _ Hp Hc Hf Hg). unfold compose_outcome.
    now rewrite H1.
  - intros Hlen fuel. cbn [Execute]. rewrite Hp. cbn [Z.eqb PrimId PrimCompose Pos.eqb].
    destruct (Children c) as [|c0 [|c1 [|c2 l]]]; try reflexivity. now contradiction Hlen.
  - intros c0 c1 Hc H0 fuel. cbn [Execute]. rewrite Hp, Hc.
    cbn [Z.eqb PrimId PrimCompose Pos.eqb]. unfold bind, Store_Get. now rewrite H0.
  - intros c0 c1 f Hc H0 H1 fuel. cbn [Execute]. rewrite Hp, Hc.
    cbn [Z.eqb PrimId PrimCompose Pos.eqb]. unfold bind, Store_Get. now rewrite H0, H1.
Qed.

(** C5 at the composition of the identity circuit with itself. *)
Lemma Execute_Compose_witness :
  CPrim compose_circuit = PrimCompose /\
  Children compose_circuit = [id_QGID; id_QGID] /\
  circuits (store compose_state) !! id_QGID = Some id_circuit /\
  Executes id_circuit (Some 0%nat) compose_state (Ok (Some 1%nat, None))
    (mkState [mkMatrix 1 1 [QIOne]; mkMatrix 1 1 [QIOne]] (store compose_state)) /\
  Executes compose_circuit (Some 0%nat) compose_state (Ok (Some 2%nat, None))
    (mkState [mkMatrix 1 1 [QIOne]; mkMatrix 1 1 [QIOne]; mkMatrix 1 1 [QIOne]]
             (store compose_state)).
Proof.
  assert (Hp : CPrim compose_circuit = PrimCompose) by reflexivity.
  assert (Hc : Children compose_circuit = [id_QGID; id_QGID]) by reflexivity.
  assert (Hl : circuits (store compose_state) !! id_QGID = Some id_circuit)
    by apply lookup_singleton_eq.
  assert (H1 : Executes id_circuit (Some 0%nat) compose_state (Ok (Some 1%nat, None))
            (mkState [mkMatrix 1 1 [QIOne]; mkMatrix 1 1 [QIOne]] (store compose_state))).
  { exists 1%nat. split; [reflexivity | discriminate]. }
  assert (H2 : Executes id_circuit (Some 1%nat)
            (mkState [mkMatrix 1 1 [QIOne]; mkMatrix 1 1 [QIOne]] (store compose_state))
            (Ok (Some 2%nat, None))
            (mkState [mkMatrix 1 1 [QIOne]; mkMatrix 1 1 [QIOne]; mkMatrix 1 1 [QIOne]]
                     (store compose_state))).
  { exists 1%nat. split; [reflexivity | discriminate]. }
  repeat split; try assumption.
  destruct (Execute_Compose compose_circuit (Some 0%nat) compose_state Hp) as [H _].
  destruct (H id_QGID id_QGID id_circuit id_circuit Hc Hl Hl) as (_ & Hok & _).
  exact (Hok _ _ _ _ H1 H2).
Defined.

(** ** Shape mismatches during execution *)

(** C3 (fails on the code).  A dimension mismatch is not reported as an
    error.  For a Swap circuit of dimension 1, [Execute] returns a nil matrix
    together with a nil error on a 1x2 input, and panics on a nil pointer on
    a 2x2 input; an Add of a 1x1 and a 4x4 result returns nil without an
    error as well. *)
Theorem Execute_shape_mismatch_unreported (fuel : nat) :
  Execute (S fuel) swap_circuit (Some 0%nat) (zero_state 1 2)
    = (Ok (None, None),
       mkState (heap (zero_state 1 2)
                  ++ [mkMatrix 1 1 [QIOne]; mkMatrix 1 2 [QIZero; QIZero]; mkMatrix 1 1 [QIOne]])
               NewStore) /\
  fst (Execute (S fuel) swap_circuit (Some 0%nat) (zero_state 2 2)) = Panic nil_deref /\
  fst (Execute (S (S fuel)) add_circuit (Some 0%nat) add_state) = Ok (None, None).
Proof.
  split; [|split]; vm_compute; reflexivity.
Qed.

(** ** Loading a binary *)

Lemma importValues_loop_circuits items s :
  fst (importValues_loop items s) = Ok tt /\
  circuits (store (snd (importValues_loop items s))) = circuits (store s) /\
  heap (snd (importValues_loop items s)) = heap s.
Proof.
  revert s. induction items as [|item rest IH]; intros s; simpl; [auto|].
  unfold bind. simpl.
  destruct (IH (mkState (heap s)
             (mkStore (circuits (store s)) (<[QGID item := item]> (values (store s))))))
    as (H1 & H2 & H3).
  auto.
Qed.

Lemma loadStoreData_circuits data s :
  fst (loadStoreData data s) = Ok None /\
  circuits (store (snd (loadStoreData data s))) = circuits (store s) /\
  heap (snd (loadStoreData data s)) = heap s.
Proof.
  unfold loadStoreData. destruct data as [|b data]; [simpl; auto|].
  assert (Hd : exists v, decodeValue (b :: data) = (v, None)).
  { unfold decodeValue. repeat destruct (Byte.eqb _ _); eauto. }
  destruct Hd as [v ->]. unfold importValues.
  assert (Hput : forall w,
    fst ((Store_PutValue w ;;; ret (None : error)) s) = Ok None /\
    circuits (store (snd ((Store_PutValue w ;;; ret (None : error)) s))) = circuits (store s) /\
    heap (snd ((Store_PutValue w ;;; ret (None : error)) s)) = heap s) by (intros w; simpl; auto).
  destruct v; try apply Hput.
  unfold bind. destruct (importValues_loop_circuits Items s) as (H1 & H2 & H3).
  destruct (importValues_loop Items s) as [[[]|msg|] s1]; simpl in *; try discriminate; auto.
Qed.

(** Whatever the binary, the runner's store holds no circuit after loading. *)
Lemma NewRunner_no_circuits data s r s' :
  NewRunner data s = (Ok (Some r, None), s') -> circuits (store s') = ∅.
Proof.
  unfold NewRunner. destruct (Decode data) as [[bin|] [e|]]; try discriminate.
  unfold bind. simpl.
  destruct (loadStoreData_circuits (StoreData bin) (mkState (heap s) NewStore)) as (H1 & H2 & _).
  destruct (loadStoreData (StoreData bin) _) as [[[e|]|msg|] s1]; simpl in *; try discriminate.
  intros [= <- <-]. exact H2.
Qed.

Lemma Runner_Run_no_circuits fuel r input s :
  circuits (store s) = ∅ ->
  Runner_Run fuel r input s = (Ok (None, Some "entrypoint circuit not found"%string), s).
Proof.
  intros H. unfold Runner_Run, bind, Store_Get. rewrite H, lookup_empty. reflexivity.
Qed.

(** C1 (fails on the code).  [entry_binary] carries, as its store payload,
    the canonical encoding of its entrypoint circuit, and names that
    circuit's QGID as entrypoint.  [NewRunner] loads it without error, but
    the loader only ever calls [PutValue]: no circuit is stored, the
    entrypoint is not resolvable, and [Run] returns the error
    [entrypoint circuit not found] for every input instead of executing the
    circuit. *)
Theorem Runner_entrypoint_unresolved :
  StoreData entry_binary = Encode (CircuitToValue id_circuit) /\
  Entrypoint entry_binary = QGID (CircuitToValue id_circuit) /\
  exists s',
    NewRunner (Binary_Encode entry_binary) empty_state = (Ok (Some (mkRunner entry_binary), None), s') /\
    circuits (store s') !! Entrypoint entry_binary = None /\
    forall fuel input,
      Runner_Run fuel (mkRunner entry_binary) input s'
      = (Ok (None, Some "entrypoint circuit not found"%string), s').
Proof.
  split; [reflexivity|]. split; [reflexivity|].
  assert (Hr : fst (NewRunner (Binary_Encode entry_binary) empty_state)
               = Ok (Some (mkRunner entry_binary), None)) by (vm_compute; reflexivity).
  destruct (NewRunner (Binary_Encode entry_binary) empty_state) as [r s'] eqn:E.
  cbn [fst] in Hr. subst r. exists s'. split; [reflexivity|].
  pose proof (NewRunner_no_circuits _ _ _ _ E) as Hc.
  split; [rewrite Hc; apply lookup_empty|].
  intros fuel input. now apply Runner_Run_no_circuits.
Qed.

(** ** Reading a matrix from a value *)

Lemma wrap64_small z : - 2 ^ 63 <= z < 2 ^ 63 -> wrap64 z = z.
Proof. intros H. unfold wrap64. rewrite Z.mod_small; lia. Qed.

Lemma deref_pushed_new s m : deref (Some (length (heap s))) (pushed s m) = (Ok m, pushed s m).
Proof. unfold deref, pushed. simpl. now rewrite list_lookup_middle. Qed.

Lemma deref_pushed_old s m a x :
  heap s !! a = Some x -> deref (Some a) (pushed s m) = (Ok x, pushed s m).
Proof. intros H. unfold deref, pushed. simpl. now rewrite (lookup_app_l_Some _ _ _ _ H). Qed.

Lemma data_set_pushed s m i v :
  0 <= i < Z.of_nat (length (MData m)) ->
  data_set (Some (length (heap s))) i v (pushed s m)
  = (Ok tt, pushed s (mkMatrix (Rows m) (Cols m) (<[Z.to_nat i := v]> (MData m)))).
Proof.
  intros Hi. unfold data_set, bind. rewrite deref_pushed_new.
  replace (i <? 0) with false by (symmetry; apply Z.ltb_ge; lia).
  replace (Z.of_nat (length (MData m)) <=? i) with false by (symmetry; apply Z.leb_gt; lia).
  simpl. unfold pushed. simpl. f_equal. f_equal.
  rewrite insert_app_r_alt, Nat.sub_diag by lia. reflexivity.
Qed.


Lemma entries_parse_cons item rest qs :
  entries_parse (item :: rest) qs ->
  exists q qs', qs = q :: qs' /\ qiFromValue item = (q, true) /\ entries_parse rest qs'.
Proof.
  unfold entries_parse. destruct qs as [|q qs']; simpl; [discriminate|].
  intros [= H1 H2]. eauto.
Qed.

Lemma entries_parse_length entries qs : entries_parse entries qs -> length qs = length entries.
Proof.
  unfold entries_parse. intros H. apply (f_equal length) in H.
  now rewrite !length_map in H.
Qed.

Lemma MatrixFromValue_loop_ok s r c entries : forall qs d1 d2,
  entries_parse entries qs -> (length qs <= length d2)%nat ->
  MatrixFromValue_loop (Some (length (heap s))) (Z.of_nat (length d1)) entries
    (pushed s (mkMatrix r c (d1 ++ d2)))
  = (Ok true, pushed s (mkMatrix r c (d1 ++ qs ++ drop (length qs) d2))).
Proof.
  induction entries as [|item rest IH]; intros qs d1 d2 Hp Hl.
  - apply entries_parse_length in Hp. destruct qs; [|discriminate]. reflexivity.
  - apply entries_parse_cons in Hp as (q & qs' & -> & Hq & Hp).
    simpl in Hl. destruct d2 as [|x d2]; [simpl in Hl; lia|].
    cbn [MatrixFromValue_loop]. rewrite Hq. cbn [negb]. unfold bind.
    rewrite data_set_pushed by (simpl; rewrite length_app; simpl; lia).
    cbn [Rows Cols MData]. rewrite Nat2Z.id.
    replace (<[length d1 := q]> (d1 ++ x :: d2)) with ((d1 ++ [q]) ++ d2).
    2:{ rewrite insert_app_r_alt, Nat.sub_diag by lia. simpl. now rewrite <- app_assoc. }
    replace (Z.of_nat (length d1) + 1) with (Z.of_nat (length (d1 ++ [q])))
      by (rewrite length_app; simpl; lia).
    rewrite (IH qs' (d1 ++ [q]) d2 Hp) by (simpl in Hl; lia).
    simpl. now rewrite <- app_assoc.
Qed.


Lemma NewMatrix_ok rows cols s :
  0 <= wrap64 (rows * cols) ->
  NewMatrix rows cols s
  = (Ok (Some (length (heap s))),
     pushed s (mkMatrix rows cols (replicate (Z.to_nat (wrap64 (rows * cols))) QIZero))).
Proof.
  intros H. unfold NewMatrix.
  replace (wrap64 (rows * cols) <? 0) with false by (symmetry; apply Z.ltb_ge; lia).
  reflexivity.
Qed.





(** ** Matrix product *)

Lemma for_acc_loop_pure {A} (body : Z -> A -> M A) (f : Z -> A -> A) (s : State) :
  forall k i0 acc,
  (forall t acc, i0 <= t < i0 + Z.of_nat k -> body t acc s = (Ok (f t acc), s)) ->
  for_acc_loop k i0 body acc s = (Ok (fold_left (fun acc t => f t acc) (Zseq i0 k) acc), s).
Proof.
  induction k as [|k IH]; intros i0 acc Hbody; [reflexivity|].
  cbn [for_acc_loop Zseq fold_left]. unfold bind. rewrite Hbody by lia.
  apply IH. intros t acc' Ht. apply Hbody. lia.
Qed.

Lemma for_loop_inv (I : Z -> State -> Prop) (body : Z -> M unit) :
  forall k i0 s,
  I i0 s ->
  (forall t st, i0 <= t < i0 + Z.of_nat k -> I t st ->
     exists st', body t st = (Ok tt, st') /\ I (t + 1) st') ->
  exists s', for_loop k i0 body s = (Ok tt, s') /\ I (i0 + Z.of_nat k) s'.
Proof.
  induction k as [|k IH]; intros i0 s HI Hbody.
  - exists s. split; [reflexivity|]. now rewrite Z.add_0_r.
  - destruct (Hbody i0 s ltac:(lia) HI) as (s1 & Hb & HI1).
    destruct (IH (i0 + 1) s1 HI1) as (s' & Hl & HI').
    { intros t st Ht. apply Hbody. lia. }
    exists s'. split.
    + cbn [for_loop]. unfold bind. now rewrite Hb.
    + replace (i0 + Z.of_nat (S k)) with (i0 + 1 + Z.of_nat k) by lia. exact HI'.
Qed.

Lemma bind_Ok {A B} (m : M A) (f : A -> M B) s a s' :
  m s = (Ok a, s') -> bind m f s = f a s'.
Proof. intros H. unfold bind. now rewrite H. Qed.

Lemma deref_ok s p m : heap s !! p = Some m -> deref (Some p) s = (Ok m, s).
Proof. intros H. unfold deref. now rewrite H. Qed.

Lemma wf_index m i j :
  wf_matrix m -> 0 <= i < Rows m -> 0 <= j < Cols m ->
  0 <= i * Cols m + j < Z.of_nat (length (MData m)) /\ i * Cols m + j < 2 ^ 63.
Proof. intros (Hr & Hc & Hl & Hb) Hi Hj. rewrite Hl. nia. Qed.

Lemma Matrix_Get_old s a pa i j c :
  heap s !! pa = Some a -> wf_matrix a -> 0 <= i < Rows a -> 0 <= j < Cols a ->
  Matrix_Get (Some pa) i j (pushed s c) = (Ok (entry a i j), pushed s c).
Proof.
  intros Ha Hwf Hi Hj. destruct (wf_index a i j Hwf Hi Hj) as [Hidx Hb].
  unfold Matrix_Get, data_get, bind. rewrite !(deref_pushed_old s c pa a Ha).
  rewrite wrap64_small by lia.
  replace (i * Cols a + j <? 0) with false by (symmetry; apply Z.ltb_ge; lia).
  replace (Z.of_nat (length (MData a)) <=? i * Cols a + j) with false
    by (symmetry; apply Z.leb_gt; lia).
  cbn [orb]. unfold entry. rewrite nth_lookup.
  destruct (MData a !! Z.to_nat (i * Cols a + j)) as [q|] eqn:E; [reflexivity|].
  apply lookup_ge_None in E. lia.
Qed.

Lemma Matrix_Set_pushed s c i j v :
  0 <= i * Cols c + j < Z.of_nat (length (MData c)) -> i * Cols c + j < 2 ^ 63 ->
  Matrix_Set (Some (length (heap s))) i j v (pushed s c)
  = (Ok tt, pushed s (mkMatrix (Rows c) (Cols c) (<[Z.to_nat (i * Cols c + j) := v]> (MData c)))).
Proof.
  intros Hidx Hb. unfold Matrix_Set, bind. rewrite deref_pushed_new.
  rewrite wrap64_small by lia. now apply data_set_pushed.
Qed.

Section MatMul_correct.
Variables (s : State) (pa pb : nat) (a b : Matrix).
Hypothesis Ha : heap s !! pa = Some a.
Hypothesis Hb : heap s !! pb = Some b.
Hypothesis Hwfa : wf_matrix a.
Hypothesis Hwfb : wf_matrix b.
Hypothesis Hshape : Cols a = Rows b.
Hypothesis Hsize : Rows a * Cols b < 2 ^ 63.

Local Abbreviation N := (Z.to_nat (Rows a * Cols b)).
Local Abbreviation C d := (mkMatrix (Rows a) (Cols b) d).
Local Abbreviation rows_done := (product_rows_done a b).



End MatMul_correct.




(** ** The tests of the package pass on the model *)

Lemma tests_pass :
  fst (TestKronecker empty_state) = Ok true /\
  fst (TestMatMul empty_state) = Ok true /\
  fst (TestDagger empty_state) = Ok true /\
  fst (TestTrace empty_state) = Ok true /\
  fst (TestExecuteZero empty_state) = Ok true /\
  fst (TestExecuteCompose empty_state) = Ok true /\
  fst (TestMatrixToFromValue empty_state) = Ok true /\
  objectDim (mkObject [2]) = 4 /\ objectDim (mkObject []) = 1 /\
  QIEqual (fst (QIInv QII)) (QINeg QII) = true /\ snd (QIInv QIZero) = false /\
  fst (Decode (map byte_of_Z [88; 89; 90; 0])) = None /\
  fst (Decode (map byte_of_Z [1; 2; 3])) = None.
Proof. repeat (split; [vm_compute; reflexivity|]). vm_compute; reflexivity. Qed.


(** ** Further properties: values *)

(** X1.  [Equal] decides structural equality of values; equal values have
    the same canonical encoding and the same QGID. *)
Theorem Equal_structural (a b : Value) :
  (Equal a b = true <-> a = b) /\
  (Equal a b = true -> Encode a = Encode b /\ QGID a = QGID b) /\
  Equal a b = Equal b a.
Proof.
  assert (H : Equal a b = true <-> a = b).
  { split; [apply Equal_eq | intros ->; apply Equal_refl]. }
  split; [exact H|]. split.
  - intros E. apply H in E. subst. split; reflexivity.
  - destruct (Equal a b) eqn:E1, (Equal b a) eqn:E2; try reflexivity.
    + apply Equal_eq in E1. subst. rewrite Equal_refl in E2. discriminate.
    + apply Equal_eq in E2. subst. rewrite Equal_refl in E1. discriminate.
Qed.

Lemma Equal_structural_witness :
  Equal (Seq [Int 1; Text "a"]) (Seq [Int 1; Text "a"]) = true /\
  QGID (Seq [Int 1; Text "a"]) = QGID (Seq [Int 1; Text "a"]).
Proof.
  assert (E : Equal (Seq [Int 1; Text "a"]) (Seq [Int 1; Text "a"]) = true) by reflexivity.
  split; [exact E|].
  destruct (Equal_structural (Seq [Int 1; Text "a"]) (Seq [Int 1; Text "a"])) as (_ & H & _).
  exact (proj2 (H E)).
Defined.

Lemma land_127 (n : Z) : Z.land n 0x7F = n mod 128.
Proof. change 0x7F with (Z.ones 7). now rewrite Z.land_ones by lia. Qed.

Lemma lor_128 (x : Z) : 0 <= x < 128 -> Z.lor x 0x80 = x + 128.
Proof.
  intros Hx.
  assert (Hl : Z.land x 128 = 0).
  { apply Z.bits_inj'. intros i Hi. rewrite Z.land_spec, Z.bits_0.
    destruct (Z.eq_dec i 7) as [->|Hne].
    - replace (Z.testbit x 7) with false; [reflexivity|]. symmetry.
      destruct (Z.eq_dec x 0) as [->|Hz]; [apply Z.bits_0|].
      apply Z.bits_above_log2; [lia|].
      assert (Z.log2 x < 7) by (apply Z.log2_lt_pow2; lia). lia.
    - change 128 with (2 ^ 7). rewrite Z.pow2_bits_false by lia. apply andb_false_r. }
  rewrite <- (Z.lxor_lor _ _ Hl). symmetry. now apply Z.add_nocarry_lxor.
Qed.

Lemma encodeVarint_loop_spec (fuel : nat) : forall n,
  0 <= n < 128 ^ Z.of_nat (S fuel) ->
  varint_value (encodeVarint_loop fuel n) = n /\
  varint_framed (encodeVarint_loop fuel n) /\
  (length (encodeVarint_loop fuel n) <= S fuel)%nat.
Proof.
  induction fuel as [|fuel IH]; intros n Hn.
  - change (128 ^ Z.of_nat 1) with 128 in Hn. cbn [encodeVarint_loop varint_value varint_framed length].
    rewrite Z_of_byte_of_Z, land_127.
    rewrite (Z.mod_small _ 256), (Z.mod_small _ 128) by lia.
    repeat split; lia.
  - cbn [encodeVarint_loop]. destruct (128 <=? n) eqn:E.
    + apply Z.leb_le in E.
      assert (Hd : 0 <= Z.shiftr n 7 < 128 ^ Z.of_nat (S fuel)).
      { rewrite Z.shiftr_div_pow2 by lia. change (2 ^ 7) with 128.
        replace (128 ^ Z.of_nat (S (S fuel))) with (128 * 128 ^ Z.of_nat (S fuel)) in Hn
          by (rewrite (Nat2Z.inj_succ (S fuel)), Z.pow_succ_r by lia; reflexivity).
        split; [apply Z.div_pos; lia|]. apply Z.div_lt_upper_bound; lia. }
      destruct (IH _ Hd) as (Hv & Hf & Hl).
      assert (Hb : Z_of_byte (byte_of_Z (Z.lor (Z.land n 0x7F) 0x80)) = n mod 128 + 128).
      { rewrite Z_of_byte_of_Z, land_127.
        pose proof (Z.mod_pos_bound n 128 ltac:(lia)).
        rewrite lor_128 by lia. apply Z.mod_small. lia. }
      pose proof (Z.mod_pos_bound n 128 ltac:(lia)) as Hm.
      split; [|split].
      * cbn [varint_value]. rewrite Hv, Hb, land_127.
        replace ((n mod 128 + 128) mod 128) with (n mod 128)
          by (rewrite <- Z.add_mod_idemp_r, Z.mod_same, Z.add_0_r, Z.mod_mod by lia; reflexivity).
        rewrite Z.shiftr_div_pow2 by lia. change (2 ^ 7) with 128.
        rewrite (Z.div_mod n 128) at 3 by lia. lia.
      * cbn [varint_framed].
        destruct (encodeVarint_loop fuel (Z.shiftr n 7)) as [|b' rest'] eqn:El;
          [destruct Hf|]. split; [rewrite Hb; lia | exact Hf].
      * cbn [length]. lia.
    + apply Z.leb_gt in E. cbn [varint_value varint_framed length].
      rewrite Z_of_byte_of_Z, land_127.
    rewrite (Z.mod_small _ 256), (Z.mod_small _ 128) by lia.
      repeat split; lia.
Qed.

Lemma encodeVarint_loop_length (fuel : nat) : forall n (d : nat),
  (1 <= d)%nat -> 0 <= n < 128 ^ Z.of_nat d ->
  (length (encodeVarint_loop fuel n) <= d)%nat.
Proof.
  induction fuel as [|fuel IH]; intros n d Hd Hn; [simpl; lia|].
  cbn [encodeVarint_loop]. destruct (128 <=? n) eqn:E; [|simpl; lia].
  apply Z.leb_le in E. destruct d as [|[|d]]; [lia | change (128 ^ Z.of_nat 1) with 128 in Hn; lia|].
  cbn [length]. apply le_n_S. apply IH; [lia|].
  rewrite Z.shiftr_div_pow2 by lia. change (2 ^ 7) with 128.
  replace (128 ^ Z.of_nat (S (S d))) with (128 * 128 ^ Z.of_nat (S d)) in Hn
    by (rewrite (Nat2Z.inj_succ (S d)), Z.pow_succ_r by lia; reflexivity).
  split; [apply Z.div_pos; lia|]. apply Z.div_lt_upper_bound; lia.
Qed.

(** X2.  [encodeVarint] writes a [uint64] as a little-endian base-128
    number: at most ten bytes, the continuation bit on every byte but the
    last, and the seven-bit groups add up to the number; so distinct
    lengths never share a varint. *)
Theorem encodeVarint_spec (n : Z) :
  0 <= n < 2 ^ 64 ->
  varint_value (encodeVarint n) = n /\
  varint_framed (encodeVarint n) /\
  (1 <= length (encodeVarint n) <= 10)%nat /\
  (n < 128 -> encodeVarint n = [byte_of_Z n]) /\
  (forall m, 0 <= m < 2 ^ 64 -> encodeVarint m = encodeVarint n -> m = n).
Proof.
  intros Hn.
  assert (Hall : forall k, 0 <= k < 2 ^ 64 ->
    varint_value (encodeVarint k) = k /\ varint_framed (encodeVarint k) /\
    (1 <= length (encodeVarint k) <= 10)%nat).
  { intros k Hk. unfold encodeVarint. destruct (k <? 128) eqn:E.
    - apply Z.ltb_lt in E. cbn [varint_value varint_framed length].
      rewrite Z_of_byte_of_Z, land_127.
    rewrite (Z.mod_small _ 256), (Z.mod_small _ 128) by lia. repeat split; lia.
    - apply Z.ltb_ge in E.
      assert (Hk' : 0 <= k < 128 ^ Z.of_nat 11).
      { change (128 ^ Z.of_nat 11) with (2 ^ 77). split; [lia|].
        apply Z.lt_trans with (2 ^ 64); [lia | reflexivity]. }
      destruct (encodeVarint_loop_spec 10 k Hk') as (Hv & Hf & _).
      pose proof (encodeVarint_loop_length 10 k 10 ltac:(lia)) as Hl.
      assert (Hk10 : 0 <= k < 128 ^ Z.of_nat 10).
      { change (128 ^ Z.of_nat 10) with (2 ^ 70). split; [lia|].
        apply Z.lt_trans with (2 ^ 64); [lia | reflexivity]. }
      specialize (Hl Hk10).
      split; [exact Hv|]. split; [exact Hf|]. split; [|exact Hl].
      destruct (encodeVarint_loop 10 k); [destruct Hf | simpl; lia]. }
  destruct (Hall n Hn) as (Hv & Hf & Hl).
  split; [exact Hv|]. split; [exact Hf|]. split; [exact Hl|]. split.
  - intros Hs. unfold encodeVarint. now replace (n <? 128) with true
      by (symmetry; apply Z.ltb_lt; lia).
  - intros m Hm E. destruct (Hall m Hm) as (Hvm & _). rewrite E in Hvm. congruence.
Qed.

Lemma encodeVarint_spec_witness :
  0 <= 300 < 2 ^ 64 /\ varint_value (encodeVarint 300) = 300 /\
  map Z_of_byte (encodeVarint 300) = [172; 2].
Proof.
  assert (H : 0 <= 300 < 2 ^ 64) by (split; [lia | reflexivity]).
  split; [exact H|]. split; [exact (proj1 (encodeVarint_spec 300 H)) | reflexivity].
Defined.

Lemma be_word_be_bytes_acc (n : nat) : forall m acc,
  fold_left (fun acc b => acc * 256 + Z_of_byte b) (be_bytes n m) acc
  = acc * 256 ^ Z.of_nat n + m mod 256 ^ Z.of_nat n.
Proof.
  induction n as [|n IH]; intros m acc.
  - simpl. rewrite Z.mod_1_r. lia.
  - cbn [be_bytes fold_left]. rewrite IH, Z_of_byte_of_Z.
    rewrite Z.shiftr_div_pow2 by lia.
    replace (2 ^ (8 * Z.of_nat n)) with (256 ^ Z.of_nat n)
      by (change 256 with (2 ^ 8); rewrite <- Z.pow_mul_r by lia; reflexivity).
    rewrite Nat2Z.inj_succ, Z.pow_succ_r by lia.
    assert (Hp : 0 < 256 ^ Z.of_nat n) by (apply Z.pow_pos_nonneg; lia).
    rewrite (Z.mul_comm 256 (256 ^ Z.of_nat n)).
    rewrite (Z.rem_mul_r m (256 ^ Z.of_nat n) 256) by lia. lia.
Qed.

Lemma be_word_big_Bytes (z : Z) : be_word (big_Bytes z) = Z.abs z.
Proof.
  unfold be_word, big_Bytes. destruct (Z.abs z =? 0) eqn:E.
  - apply Z.eqb_eq in E. simpl. lia.
  - apply Z.eqb_neq in E. assert (Hz : 0 < Z.abs z) by lia.
    rewrite be_word_be_bytes_acc. rewrite Z.mul_0_l, Z.add_0_l.
    apply Z.mod_small. split; [lia|].
    pose proof (Z.log2_nonneg (Z.abs z)) as Hl.
    assert (Hk : 0 <= Z.log2 (Z.abs z) / 8) by (apply Z.div_pos; lia).
    rewrite Z2Nat.id by lia.
    change 256 with (2 ^ 8). rewrite <- Z.pow_mul_r by lia.
    apply Z.log2_lt_pow2; [lia|].
    pose proof (Z.mod_pos_bound (Z.log2 (Z.abs z)) 8 ltac:(lia)).
    pose proof (Z.div_mod (Z.log2 (Z.abs z)) 8 ltac:(lia)). lia.
Qed.

Lemma big_Bytes_length_pos (z : Z) : z <> 0 -> (1 <= length (big_Bytes z))%nat.
Proof.
  intros Hz. unfold big_Bytes.
  replace (Z.abs z =? 0) with false by (symmetry; apply Z.eqb_neq; lia).
  rewrite be_bytes_length.
  pose proof (Z.log2_nonneg (Z.abs z)).
  assert (0 <= Z.log2 (Z.abs z) / 8) by (apply Z.div_pos; lia). lia.
Qed.

Lemma byte_of_Z_inj (x y : Z) :
  0 <= x < 256 -> 0 <= y < 256 -> byte_of_Z x = byte_of_Z y -> x = y.
Proof.
  intros Hx Hy E. apply (f_equal Z_of_byte) in E.
  rewrite !Z_of_byte_of_Z, !Z.mod_small in E; lia.
Qed.

(** X3.  Integers have pairwise distinct encodings: zero is the single byte
    [0x00], [1..127] are their own byte, every other integer is a sign
    marker, a length byte and its magnitude; two integers with the same
    encoding are the same integer. *)
Theorem Int_Encode_injective (v w : Z) :
  Int_Encode v = Int_Encode w -> v = w.
Proof.
  assert (Hsmall : forall u, 0 < u -> big_BitLen u <= 7 -> 0 < u < 128).
  { intros u Hu Hb. unfold big_BitLen in Hb.
    replace (Z.abs u =? 0) with false in Hb by (symmetry; apply Z.eqb_neq; lia).
    rewrite Z.abs_eq in Hb by lia. split; [lia|].
    change 128 with (2 ^ 7). apply Z.log2_lt_pow2; lia. }
  assert (Hcase : forall u,
    (u = 0 /\ Int_Encode u = ["000"%byte]) \/
    (0 < u < 128 /\ Int_Encode u = [byte_of_Z u]) \/
    (u <> 0 /\ Int_Encode u
       = (if u <? 0 then byte_of_Z 0x80 else byte_of_Z 0x40)
           :: byte_of_Z (Z.of_nat (length (big_Bytes u))) :: big_Bytes u)).
  { intros u. unfold Int_Encode. destruct (Z.sgn u =? 0) eqn:E0.
    - left. split; [|reflexivity]. apply Z.sgn_null_iff. now apply Z.eqb_eq.
    - apply Z.eqb_neq in E0. assert (u <> 0) by (intros ->; now apply E0).
      destruct ((0 <? Z.sgn u) && (big_BitLen u <=? 7)) eqn:E1.
      + right. left. apply andb_true_iff in E1 as [Hs Hb].
        apply Z.ltb_lt in Hs. apply Z.leb_le in Hb.
        assert (Hu : 0 < u) by (destruct u; simpl in Hs; lia).
        pose proof (Hsmall u Hu Hb). split; [assumption|].
        unfold big_Int64. rewrite wrap64_small; [reflexivity|].
        split; [lia|]. apply Z.lt_trans with 128; [lia | reflexivity].
      + right. right. split; [assumption|].
        replace (Z.sgn u <? 0) with (u <? 0); [reflexivity|].
        destruct u; reflexivity. }
  intros E.
  destruct (Hcase v) as [[Hv Ev]|[[Hv Ev]|[Hv Ev]]],
           (Hcase w) as [[Hw Ew]|[[Hw Ew]|[Hw Ew]]]; rewrite Ev, Ew in E.
  - lia.
  - injection E as E. apply (byte_of_Z_inj 0 w) in E; lia.
  - discriminate E.
  - injection E as E. apply (byte_of_Z_inj v 0) in E; lia.
  - injection E as E. apply byte_of_Z_inj in E; lia.
  - discriminate E.
  - discriminate E.
  - discriminate E.
  - injection E as Em _ Eb.
    assert (Ha : Z.abs v = Z.abs w) by (rewrite <- !be_word_big_Bytes; now rewrite Eb).
    destruct (Z.ltb_spec v 0), (Z.ltb_spec w 0); try lia; vm_compute in Em; discriminate Em.
Qed.

Lemma Int_Encode_injective_witness :
  Int_Encode 64 <> Int_Encode 208 /\ map Z_of_byte (Int_Encode 208) = [64; 1; 208].
Proof.
  split; [|reflexivity]. intros E. apply Int_Encode_injective in E. discriminate E.
Defined.

(** ** Further properties: Gaussian rationals *)

Lemma QI_eq (a b : QI) : Re a = Re b -> Im a = Im b -> a = b.
Proof. destruct a, b; simpl; congruence. Qed.

(** X4.  The Gaussian rationals with [QIAdd], [QIMul], [QINeg], [QISub],
    [QIZero] and [QIOne] are a commutative ring, and [QIScale] by [r] is the
    product with [(r, 0)].  Conjugation is an involution that commutes with
    sum and product, [q * conj q] is the real number [QINormSq q], and the
    squared norm is multiplicative. *)
Theorem QI_ring_laws (a b c : QI) (r : Qc) :
  (QIAdd a b = QIAdd b a /\
   QIAdd (QIAdd a b) c = QIAdd a (QIAdd b c) /\
   QIAdd a QIZero = a /\
   QIAdd a (QINeg a) = QIZero /\
   QISub a b = QIAdd a (QINeg b) /\
   QIMul a b = QIMul b a /\
   QIMul (QIMul a b) c = QIMul a (QIMul b c) /\
   QIMul a QIOne = a /\
   QIMul a QIZero = QIZero /\
   QIMul a (QIAdd b c) = QIAdd (QIMul a b) (QIMul a c) /\
   QIMul QII QII = QINeg QIOne /\
   QIScale a r = QIMul a (NewQI r 0%Qc)) /\
  (QIConj (QIConj a) = a /\
   QIConj (QIAdd a b) = QIAdd (QIConj a) (QIConj b) /\
   QIConj (QIMul a b) = QIMul (QIConj a) (QIConj b) /\
   QIMul a (QIConj a) = NewQI (QINormSq a) 0%Qc /\
   QINormSq (QIMul a b) = (QINormSq a * QINormSq b)%Qc /\
   QINormSq (QIConj a) = QINormSq a).
Proof.
  split.
  - repeat split; apply QI_eq; simpl; ring.
  - repeat split; unfold QINormSq, NewQI; try apply QI_eq; simpl; ring.
Qed.

(** X5.  [QIEqual] decides equality of Gaussian rationals and [QIIsZero]
    recognises exactly zero. *)
Theorem QIEqual_spec (a b : QI) :
  (QIEqual a b = true <-> a = b) /\ (QIIsZero a = true <-> a = QIZero).
Proof.
  split.
  - unfold QIEqual. rewrite andb_true_iff. split.
    + intros [H1 H2]. apply Qc_eq_bool_correct in H1, H2. now apply QI_eq.
    + intros ->. unfold Qc_eq_bool.
      destruct (Qcanon.Qc_eq_dec (Re b) (Re b)), (Qcanon.Qc_eq_dec (Im b) (Im b));
        try contradiction; auto.
  - unfold QIIsZero. rewrite andb_true_iff, !Rat_Sign_zero. split.
    + intros [H1 H2]. now apply QI_eq.
    + intros ->. split; reflexivity.
Qed.

(** X6.  [QIDiv a b] fails exactly when [b] is zero; otherwise its result
    times [b] is [a], and it is [a] times the inverse of [b]. *)
Theorem QIDiv_spec (a b : QI) :
  (snd (QIDiv a b) = false <-> b = QIZero) /\
  (b = QIZero -> QIDiv a b = (QIZero, false)) /\
  (b <> QIZero ->
   snd (QIDiv a b) = true /\
   QIMul (fst (QIDiv a b)) b = a /\
   fst (QIDiv a b) = QIMul a (fst (QIInv b))).
Proof.
  assert (Hinv : snd (QIInv b) = false <-> b = QIZero).
  { unfold QIInv. destruct (Rat_Sign (QINormSq b) =? 0) eqn:E; simpl.
    - apply Rat_Sign_zero, QINormSq_zero in E. tauto.
    - split; [discriminate|]. intros H. apply QINormSq_zero, Rat_Sign_zero in H. congruence. }
  assert (Hsnd : snd (QIDiv a b) = snd (QIInv b)).
  { unfold QIDiv. destruct (QIInv b) as [inv [|]]; reflexivity. }
  split; [now rewrite Hsnd|]. clear Hsnd. split.
  - intros Hb. apply Hinv in Hb. unfold QIDiv.
    destruct (QIInv b) as [inv ok]; simpl in Hb; subst ok. reflexivity.
  - intros Hb.
    assert (Hok : snd (QIInv b) = true).
    { apply not_false_iff_true. intros E. now apply Hinv in E. }
    pose proof (QIMul_QIInv b Hb) as Hone.
    unfold QIDiv. destruct (QIInv b) as [inv ok]; simpl in *; subst ok. simpl.
    split; [reflexivity|]. split; [|reflexivity].
    assert (E : QIMul (QIMul a inv) b = QIMul a (QIMul b inv)) by (apply QI_eq; simpl; ring).
    rewrite E, Hone. apply QI_eq; simpl; ring.
Qed.

Lemma QIDiv_spec_witness :
  QII <> QIZero /\ QIMul (fst (QIDiv QIOne QII)) QII = QIOne.
Proof.
  assert (H : QII <> QIZero).
  { intros E. apply (f_equal Im) in E. apply (f_equal this) in E. discriminate E. }
  split; [exact H|].
  destruct (QIDiv_spec QIOne QII) as (_ & _ & Hd). exact (proj1 (proj2 (Hd H))).
Defined.

(** ** Further properties: the store *)

(** X7.  What [Put] and [PutValue] store is what [Get] and [GetValue] return
    under the digest they hand back; other keys are not affected,
    [PutValue] never touches the circuits, a new store holds nothing, and
    no matrix is allocated. *)
Theorem Store_put_get (c : Circuit) (v : Value) (s : State) :
  (id <- Store_Put c ;; Store_Get id) s = (Ok (Some c), snd (Store_Put c s)) /\
  (id <- Store_Put c ;; Store_GetValue id) s
    = (Ok (Some (CircuitToValue c)), snd (Store_Put c s)) /\
  (id <- Store_PutValue v ;; Store_GetValue id) s = (Ok (Some v), snd (Store_PutValue v s)) /\
  fst (Store_Put c s) = Ok (QGID (CircuitToValue c)) /\
  fst (Store_PutValue v s) = Ok (QGID v) /\
  (forall id, id <> QGID (CircuitToValue c) ->
     Store_Get id (snd (Store_Put c s)) = (Ok (circuits (store s) !! id), snd (Store_Put c s)) /\
     Store_GetValue id (snd (Store_Put c s))
       = (Ok (values (store s) !! id), snd (Store_Put c s))) /\
  (forall id, id <> QGID v ->
     Store_GetValue id (snd (Store_PutValue v s))
       = (Ok (values (store s) !! id), snd (Store_PutValue v s))) /\
  circuits (store (snd (Store_PutValue v s))) = circuits (store s) /\
  heap (snd (Store_Put c s)) = heap s /\ heap (snd (Store_PutValue v s)) = heap s /\
  (forall id h, fst (Store_Get id (mkState h NewStore)) = Ok None /\
                fst (Store_GetValue id (mkState h NewStore)) = Ok None).
Proof.
  unfold bind, Store_Put, Store_PutValue, Store_Get, Store_GetValue; simpl.
  repeat split; try reflexivity; intros;
    rewrite ?lookup_insert_eq, ?lookup_insert_ne, ?lookup_empty by congruence; reflexivity.
Qed.

Lemma run_StoreOp_grow op s :
  heap (snd (run_StoreOp op s)) = heap s /\
  (forall id, is_Some (circuits (store s) !! id) ->
     is_Some (circuits (store (snd (run_StoreOp op s))) !! id)) /\
  (forall id, is_Some (values (store s) !! id) ->
     is_Some (values (store (snd (run_StoreOp op s))) !! id)).
Proof.
  destruct op as [c|v]; simpl; repeat split; try tauto; intros id H;
    rewrite lookup_insert; (case_decide; [eexists; reflexivity | assumption]).
Qed.

(** X8.  The store only grows: whatever [Put] and [PutValue] calls follow,
    a key that resolves keeps resolving, in the circuits and in the
    values, and the matrices are left alone. *)
Theorem Store_grow_only (ops : list StoreOp) (s : State) :
  heap (run_StoreOps ops s) = heap s /\
  (forall id, is_Some (circuits (store s) !! id) ->
     is_Some (circuits (store (run_StoreOps ops s)) !! id)) /\
  (forall id, is_Some (values (store s) !! id) ->
     is_Some (values (store (run_StoreOps ops s)) !! id)).
Proof.
  revert s. induction ops as [|op ops IH]; intros s; simpl; [tauto|].
  destruct (run_StoreOp_grow op s) as (Hh & Hc & Hv).
  destruct (IH (snd (run_StoreOp op s))) as (Hh' & Hc' & Hv').
  split; [congruence|]. split; intros id H; auto.
Qed.

(** ** Further properties: objects and circuits as values *)

Lemma ObjectFromValue_loop_map blocks :
  Forall (fun n => 0 <= n < 2 ^ 32) blocks ->
  ObjectFromValue_loop (map MakeInt blocks) = Some blocks.
Proof.
  induction 1 as [|n blocks Hn _ IH]; [reflexivity|].
  cbn [map MakeInt ObjectFromValue_loop]. rewrite IH.
  unfold big_Int64, wrapu32. rewrite wrap64_small.
  - rewrite Z.mod_small by lia. reflexivity.
  - split; [lia|]. apply Z.lt_trans with (2 ^ 32); [lia | reflexivity].
Qed.

Lemma ObjectFromValue_ObjectToValue (o : Object) :
  blocks_uint32 o -> ObjectFromValue (ObjectToValue o) = (o, true).
Proof.
  intros Ho. destruct o as [blocks]. unfold ObjectToValue, ObjectFromValue, MakeTag, MakeText,
    MakeSeq. cbn [Blocks]. simpl String.eqb. cbn [negb].
  now rewrite ObjectFromValue_loop_map.
Qed.

(** X9.  An object written by [ObjectToValue] is read back by
    [ObjectFromValue], and [ObjectEqual] holds exactly between objects with
    the same blocks. *)
Theorem Object_roundtrip (o o' : Object) :
  (blocks_uint32 o -> ObjectFromValue (ObjectToValue o) = (o, true)) /\
  (ObjectEqual o o' = true <-> o = o').
Proof.
  split; [apply ObjectFromValue_ObjectToValue|].
  destruct o as [a], o' as [b]. unfold ObjectEqual. cbn [Blocks].
  destruct (length a =? length b)%nat eqn:E; cbn [negb].
  - apply Nat.eqb_eq in E. split.
    + intros H. f_equal. revert b E H.
      induction a as [|x a IH]; intros [|y b] E H; try discriminate; [reflexivity|].
      simpl in H. apply andb_true_iff in H as [H1 H2]. apply Z.eqb_eq in H1.
      f_equal; [assumption|]. apply IH; [now injection E | assumption].
    + intros [= ->]. clear E. induction b as [|y b IH]; [reflexivity|].
      simpl. now rewrite Z.eqb_refl.
  - apply Nat.eqb_neq in E. split; [discriminate|]. intros [= ->]. contradiction.
Qed.

Lemma Object_roundtrip_witness :
  blocks_uint32 (mkObject [2; 3]) /\
  ObjectFromValue (ObjectToValue (mkObject [2; 3])) = (mkObject [2; 3], true).
Proof.
  assert (H : blocks_uint32 (mkObject [2; 3])).
  { unfold blocks_uint32. simpl. repeat constructor; try lia; reflexivity. }
  split; [exact H | exact (proj1 (Object_roundtrip (mkObject [2; 3]) (mkObject [])) H)].
Defined.

Lemma CircuitFromValue_children_map children :
  CircuitFromValue_children (map (fun id : QGID_t => MakeBytes (vec_to_list id)) children)
  = Some children.
Proof.
  induction children as [|id children IH]; [reflexivity|].
  cbn [map MakeBytes CircuitFromValue_children]. rewrite IH.
  rewrite length_vec_to_list. cbn [Nat.ltb Nat.leb].
  rewrite take_ge by (rewrite length_vec_to_list; lia).
  now rewrite copy_to_array_vec_to_list.
Qed.

(** X10.  A circuit written by [CircuitToValue] is read back by
    [CircuitFromValue], except that a nil [Data] comes back as the [Nil]
    value; the circuit read back has the same value form, hence the same
    QGID. *)
Theorem Circuit_roundtrip (c : Circuit) :
  circuit_typed c ->
  CircuitFromValue (CircuitToValue c) = (with_data c, true) /\
  CircuitToValue (with_data c) = CircuitToValue c /\
  (forall d, Data c = Some d -> with_data c = c).
Proof.
  intros (Hd & Hc & Hp). split; [|split].
  - unfold CircuitToValue, CircuitFromValue, MakeTag, MakeText, MakeSeq.
    simpl String.eqb. cbn [negb].
    rewrite (ObjectFromValue_ObjectToValue (Domain c) Hd).
    rewrite (ObjectFromValue_ObjectToValue (Codomain c) Hc).
    cbn [negb MakeInt]. rewrite CircuitFromValue_children_map.
    unfold big_Int64. rewrite wrap64_small by lia. reflexivity.
  - unfold CircuitToValue, with_data. cbn [Domain Codomain CPrim Data Children]. reflexivity.
  - intros d Hdata. destruct c as [dom cod p data ch]. unfold with_data. simpl in *.
    now subst data.
Qed.

Lemma Circuit_roundtrip_witness :
  circuit_typed id_circuit /\
  CircuitFromValue (CircuitToValue id_circuit) = (with_data id_circuit, true).
Proof.
  assert (H : circuit_typed id_circuit).
  { unfold circuit_typed, blocks_uint32. simpl.
    split; [|split; [|split; [vm_compute; discriminate | reflexivity]]];
      (apply Forall_cons_2; [split; [lia | reflexivity] | apply Forall_nil_2]). }
  split; [exact H | exact (proj1 (Circuit_roundtrip id_circuit H))].
Defined.

Lemma objectDim_fold blocks : forall acc,
  Forall (fun n => 0 <= n < 2 ^ 16) blocks ->
  0 <= acc -> acc + Z.of_nat (length blocks) * 2 ^ 32 < 2 ^ 63 ->
  fold_left (fun dim n => wrap64 (dim + wrapu32 (n * n))) blocks acc
  = acc + sum_squares blocks /\ 0 <= sum_squares blocks <= Z.of_nat (length blocks) * 2 ^ 32.
Proof.
  induction blocks as [|n blocks IH]; intros acc Hb Hacc Hlen.
  - simpl. lia.
  - apply Forall_cons in Hb as [Hn Hb]. cbn [fold_left sum_squares fold_right length] in *.
    assert (Hsq : 0 <= n * n < 2 ^ 32).
    { change (2 ^ 32) with (2 ^ 16 * 2 ^ 16). nia. }
    assert (Hw : wrapu32 (n * n) = n * n) by (unfold wrapu32; apply Z.mod_small; lia).
    rewrite Hw.
    rewrite wrap64_small by lia.
    destruct (IH (acc + n * n) Hb ltac:(lia) ltac:(lia)) as [E Hs].
    rewrite E. fold (sum_squares blocks). lia.
Qed.

(** X11.  [objectDim] is 1 for the unit object and otherwise the sum of the
    squares of the block sizes, for block sizes below [2^16] (whose squares
    fit a [uint32]). *)
Theorem objectDim_sum_squares (o : Object) :
  Forall (fun n => 0 <= n < 2 ^ 16) (Blocks o) ->
  Z.of_nat (length (Blocks o)) < 2 ^ 31 ->
  objectDim o = (if decide (Blocks o = []) then 1 else sum_squares (Blocks o)) /\
  0 <= objectDim o.
Proof.
  intros Hb Hl. unfold objectDim. destruct (Blocks o) as [|n blocks] eqn:E.
  - rewrite decide_True by reflexivity. lia.
  - rewrite decide_False by discriminate.
    destruct (objectDim_fold (n :: blocks) 0 Hb ltac:(lia)) as [Hf Hs].
    { change (2 ^ 63) with (2 ^ 31 * 2 ^ 32). nia. }
    rewrite Hf. lia.
Qed.

Lemma objectDim_sum_squares_witness :
  objectDim (mkObject [2; 1; 1]) = 6.
Proof.
  assert (Hb : Forall (fun n => 0 <= n < 2 ^ 16) (Blocks (mkObject [2; 1; 1]))).
  { simpl. repeat constructor; try lia; reflexivity. }
  assert (Hl : Z.of_nat (length (Blocks (mkObject [2; 1; 1]))) < 2 ^ 31) by reflexivity.
  rewrite (proj1 (objectDim_sum_squares _ Hb Hl)). reflexivity.
Defined.

(** ** Further properties: the binary container *)

Lemma Z_of_byte_range (b : byte) : 0 <= Z_of_byte b < 256.
Proof. unfold Z_of_byte. pose proof (Byte.to_N_bounded b). lia. Qed.

Lemma Z_of_byte_bits_high (b : byte) (i : Z) : 8 <= i -> Z.testbit (Z_of_byte b) i = false.
Proof.
  intros Hi. pose proof (Z_of_byte_range b) as Hb.
  destruct (Z.eq_dec (Z_of_byte b) 0) as [->|Hz]; [apply Z.bits_0|].
  assert (Z.log2 (Z_of_byte b) < 8) by (apply Z.log2_lt_pow2; lia).
  apply Z.bits_above_log2; lia.
Qed.

Lemma byte_of_Z_low (z : Z) (b : byte) : z mod 2 ^ 8 = Z_of_byte b -> byte_of_Z z = b.
Proof.
  intros H. rewrite <- (byte_of_Z_of_byte b), <- H. unfold byte_of_Z.
  change (2 ^ 8) with 256. now rewrite Z.mod_mod by lia.
Qed.

Ltac byte_bits :=
  repeat match goal with
  | |- context [Z.testbit (Z.shiftl ?a ?n) ?m] =>
      first [ rewrite (Z.shiftl_spec_low a n m) by lia
            | rewrite (Z.shiftl_spec a n m) by lia ]
  end;
  repeat match goal with
  | |- context [Z.testbit (Z_of_byte ?b) ?m] =>
      rewrite (Z_of_byte_bits_high b m) by lia
  end;
  rewrite ?orb_false_r, ?orb_false_l.

Lemma read_u32_nonneg (data : list byte) (o : nat) : 0 <= read_u32 data o.
Proof.
  unfold read_u32. pose proof (Z_of_byte_range (byte_at data o)).
  pose proof (Z_of_byte_range (byte_at data (o + 1))).
  pose proof (Z_of_byte_range (byte_at data (o + 2))).
  pose proof (Z_of_byte_range (byte_at data (o + 3))).
  repeat (apply Z.lor_nonneg; split); try apply Z.shiftl_nonneg; lia.
Qed.

Lemma be_bytes_read_u32 (data : list byte) (o : nat) :
  be_bytes 4 (read_u32 data o)
  = [byte_at data o; byte_at data (o + 1); byte_at data (o + 2); byte_at data (o + 3)].
Proof.
  unfold be_bytes, read_u32.
  repeat f_equal; apply byte_of_Z_low; apply Z.bits_inj'; intros i Hi;
    (destruct (Z_lt_dec i 8);
     [ rewrite Z.mod_pow2_bits_low, Z.shiftr_spec by lia; rewrite !Z.lor_spec;
       byte_bits; f_equal; lia
     | rewrite Z.mod_pow2_bits_high by lia; symmetry; apply Z_of_byte_bits_high; lia ]).
Qed.

Lemma slice_bytes4 (data : list byte) (o : nat) :
  (o + 4 <= length data)%nat ->
  slice data o (o + 4)
  = [byte_at data o; byte_at data (o + 1); byte_at data (o + 2); byte_at data (o + 3)].
Proof.
  intros H. unfold slice, byte_at.
  replace (o + 4 - o)%nat with 4%nat by lia.
  replace (data !! o) with (data !! (o + 0)%nat) by (f_equal; lia).
  rewrite <- !lookup_drop.
  assert (Hl : (4 <= length (drop o data))%nat) by (rewrite length_drop; lia).
  destruct (drop o data) as [|a [|b [|c [|d r]]]]; simpl in Hl; try lia. reflexivity.
Qed.

Lemma slice_drop (data : list byte) (a b : nat) :
  (a <= b)%nat -> slice data a b ++ drop b data = drop a data.
Proof.
  intros H. unfold slice. replace b with (a + (b - a))%nat at 2 by lia.
  rewrite <- drop_drop. apply take_drop.
Qed.

Lemma slice_length (data : list byte) (a b : nat) :
  (a <= b <= length data)%nat -> length (slice data a b) = (b - a)%nat.
Proof. intros H. unfold slice. rewrite length_take, length_drop. lia. Qed.

Lemma vec_to_list_copy_to_array (n : nat) : forall l : list byte,
  length l = n -> vec_to_list (copy_to_array n l) = l.
Proof.
  induction n as [|n IH]; intros [|b l] H; simpl in *; try discriminate; [reflexivity|].
  f_equal. apply IH. lia.
Qed.

(** X12.  [Decode] rejects every input shorter than the 44 bytes of the
    fixed part of the format (magic, entrypoint and the two length
    fields). *)
Theorem Decode_rejects_short (data : list byte) :
  (length data < 44)%nat -> exists msg, Decode data = (None, Some msg).
Proof.
  intros Hlen. unfold Decode. cbv zeta.
  destruct (length data <? 4)%nat; [eauto|].
  destruct (negb _ || _ || _ || _); [eauto|].
  destruct (length data <? 36)%nat; [eauto|].
  destruct (length data <? 36 + 4)%nat; [eauto|].
  destruct (Z.of_nat (length data) <? Z.of_nat (36 + 4) + read_u32 data 36) eqn:E1; [eauto|].
  destruct (length data <? 36 + 4 + Z.to_nat (read_u32 data 36) + 4)%nat eqn:E2; [eauto|].
  apply Nat.ltb_ge in E2. lia.
Qed.

Lemma Decode_rejects_short_witness :
  exists msg, Decode (replicate 43 "Q"%byte) = (None, Some msg).
Proof. apply Decode_rejects_short. vm_compute. lia. Defined.

(** X13.  What [Decode] accepts is exactly what [Encode] writes: when
    [Decode] returns a container, its magic is [QMB\x01] and encoding it
    gives back the input bytes, so no byte of an accepted input is ignored. *)
Theorem Decode_sound (data : list byte) (e : EmbeddedBinary) :
  Decode data = (Some e, None) ->
  Binary_Encode e = data /\ Magic e = QMB_magic.
Proof.
  unfold Decode. cbv zeta.
  pose proof (read_u32_nonneg data 36) as Hn.
  set (nl := read_u32 data 36).
  pose proof (read_u32_nonneg data (36 + 4 + Z.to_nat nl)) as Hv.
  set (vl := read_u32 data (36 + 4 + Z.to_nat nl)).
  destruct (length data <? 4)%nat eqn:E0; [discriminate|].
  destruct (negb _ || _ || _ || _) eqn:Em; [discriminate|].
  destruct (length data <? 36)%nat eqn:E1; [discriminate|].
  destruct (length data <? 36 + 4)%nat eqn:E2; [discriminate|].
  destruct (Z.of_nat (length data) <? Z.of_nat (36 + 4) + nl) eqn:E3; [discriminate|].
  destruct (length data <? 36 + 4 + Z.to_nat nl + 4)%nat eqn:E4; [discriminate|].
  destruct (Z.of_nat (length data) <? Z.of_nat (36 + 4 + Z.to_nat nl + 4) + vl) eqn:E5;
    [discriminate|].
  intros H. apply (f_equal fst) in H. cbn [fst] in H.
  apply (inj Some) in H. subst e.
  apply Nat.ltb_ge in E0, E1, E2, E4. apply Z.ltb_ge in E3, E5.
  apply orb_false_elim in Em as [Em Em3]. apply orb_false_elim in Em as [Em Em2].
  apply orb_false_elim in Em as [Em0 Em1].
  apply negb_false_iff, Byte.byte_dec_bl in Em0, Em1, Em2, Em3.
  assert (Hmagic : slice data 0 4 = vec_to_list QMB_magic).
  { change (slice data 0 4) with (slice data 0 (0 + 4)).
    rewrite (slice_bytes4 data 0) by lia. simpl. now rewrite Em0, Em1, Em2, Em3. }
  split.
  - rewrite Binary_Encode_concat.
    cbv beta iota delta [Magic Entrypoint Name Version StoreData].
    unfold bytes_of_string. rewrite !list_byte_of_string_of_list_byte.
    rewrite !vec_to_list_copy_to_array by (rewrite slice_length; lia).
    rewrite !slice_length by lia.
    replace (Z.of_nat (36 + 4 + Z.to_nat nl - (36 + 4))) with nl by lia.
    replace (Z.of_nat (36 + 4 + Z.to_nat nl + 4 + Z.to_nat vl - (36 + 4 + Z.to_nat nl + 4)))
      with vl by lia.
    unfold nl, vl. rewrite !be_bytes_read_u32.
    rewrite <- (slice_bytes4 data 36), <- (slice_bytes4 data (36 + 4 + Z.to_nat nl)) by lia.
    fold nl vl.
    rewrite (slice_drop data (36 + 4 + Z.to_nat nl + 4)) by lia.
    rewrite (slice_drop data (36 + 4 + Z.to_nat nl)) by lia.
    rewrite (slice_drop data (36 + 4)) by lia.
    rewrite (slice_drop data 36) by lia.
    rewrite (slice_drop data 4) by lia.
    now rewrite (slice_drop data 0) by lia.
  - cbv beta iota delta [Magic]. rewrite Hmagic. reflexivity.
Qed.

Lemma Decode_sound_witness :
  Decode (Binary_Encode test_binary) = (Some test_binary, None) /\
  Binary_Encode test_binary = Binary_Encode test_binary /\ Magic test_binary = QMB_magic.
Proof.
  assert (H : Decode (Binary_Encode test_binary) = (Some test_binary, None))
    by (vm_compute; reflexivity).
  split; [exact H | exact (Decode_sound _ _ H)].
Defined.

(** ** Further properties: the runner *)

Lemma Decode_result (data : list byte) : Decode data <> (None, None).
Proof.
  unfold Decode. cbv zeta.
  repeat match goal with
  | |- (if ?c then _ else _) <> _ => destruct c
  end; discriminate.
Qed.

Lemma decodeValue_shape (data : list byte) :
  snd (decodeValue data) = None /\ forall items, fst (decodeValue data) <> Seq items.
Proof.
  unfold decodeValue. destruct data as [|b data]; [split; [reflexivity | discriminate]|].
  repeat match goal with
  | |- context [if ?c then _ else _] => destruct c
  end; (split; [reflexivity | discriminate]).
Qed.

(** X14.  [NewRunner] either reports the decoding error, leaving the state
    alone, or returns a runner for the decoded container: loading the store
    payload never fails, stores no circuit and stores the whole payload as
    one value (nothing when the payload is empty); no matrix is allocated. *)
Theorem NewRunner_spec (data : list byte) (s : State) :
  match Decode data with
  | (Some bin, None) =>
      NewRunner data s
      = (Ok (Some (mkRunner bin), None), mkState (heap s) (loaded_store (StoreData bin)))
  | (_, Some msg) =>
      NewRunner data s = (Ok (None, Some ("decode failed: " ++ msg)%string), s)
  | (None, None) => False
  end.
Proof.
  pose proof (Decode_result data) as Hd. unfold NewRunner.
  destruct (Decode data) as [[bin|] [msg|]]; try reflexivity; [|exact (Hd eq_refl)].
  unfold bind, new_store, loadStoreData, loaded_store.
  destruct (StoreData bin) as [|b sd]; [reflexivity|].
  destruct (decodeValue_shape (b :: sd)) as [He Hv].
  destruct (decodeValue (b :: sd)) as [v e]. cbn [fst snd] in *. subst e.
  unfold importValues. destruct v; try reflexivity. now destruct (Hv Items).
Qed.

(** X15.  A runner never executes anything: after any successful
    [NewRunner], no identifier resolves to a circuit, [Run] returns the
    error [entrypoint circuit not found] for every input, and so does
    [RunWithValue], after allocating the 1x1 identity for an input that is
    no matrix. *)
Theorem Runner_never_executes (data : list byte) (s s' : State) (r : Runner)
    (fuel : nat) :
  NewRunner data s = (Ok (Some r, None), s') ->
  (forall id, Runner_GetCircuit id s' = (Ok None, s')) /\
  (forall input,
     Runner_Run fuel r input s'
     = (Ok (None, Some "entrypoint circuit not found"%string), s')) /\
  Runner_RunWithValue fuel r None s'
  = (Ok (None, Some "entrypoint circuit not found"%string),
     pushed s' (mkMatrix 1 1 [QIOne])) /\
  (forall v res s'', Runner_RunWithValue fuel r v s' = (Ok res, s'') ->
     res = (None, Some "entrypoint circuit not found"%string)).
Proof.
  intros H. pose proof (NewRunner_no_circuits _ _ _ _ H) as Hc.
  split; [|split; [|split]].
  - intros id. unfold Runner_GetCircuit, Store_Get. now rewrite Hc, lookup_empty.
  - intros input. now apply Runner_Run_no_circuits.
  - unfold Runner_RunWithValue, bind. cbn [MatrixFromValue ret negb].
    assert (HI : Identity 1 s' = (Ok (Some (length (heap s'))), pushed s' (mkMatrix 1 1 [QIOne]))).
    { unfold Identity, bind. rewrite NewMatrix_ok by (vm_compute; discriminate).
      change (Z.to_nat (wrap64 (1 * 1))) with 1%nat. cbn [replicate].
      unfold for_upto. change (Z.to_nat 1) with 1%nat. cbn [for_loop]. unfold bind.
      rewrite Matrix_Set_pushed by (simpl; lia). reflexivity. }
    rewrite HI. rewrite Runner_Run_no_circuits by exact Hc. reflexivity.
  - intros v res s'' Hr. unfold Runner_RunWithValue, bind in Hr.
    destruct (frame_MatrixFromValue (length (heap s')) v s' (le_n _)) as [[Hs1 _] _].
    destruct (MatrixFromValue v s') as [[[m ok]|msg|] s1]; try discriminate.
    cbn [snd] in Hs1.
    assert (Hm : exists m' s2, (if negb ok then Identity 1 else ret m) s1 = (m', s2) /\
                               store s2 = store s1).
    { destruct ok; cbn [negb].
      - eexists _, _. split; reflexivity.
      - destruct (frame_Identity (length (heap s1)) 1 s1 (le_n _)) as [[Hs2 _] _].
        destruct (Identity 1 s1) as [m' s2]. eauto. }
    destruct Hm as (m' & s2 & Hm & Hs2). rewrite Hm in Hr.
    destruct m' as [m'|msg|]; try discriminate.
    rewrite Runner_Run_no_circuits in Hr by congruence.
    now injection Hr as <- _.
Qed.

Lemma Runner_never_executes_witness :
  exists s',
    NewRunner (Binary_Encode entry_binary) empty_state
    = (Ok (Some (mkRunner entry_binary), None), s') /\
    Runner_Run 5 (mkRunner entry_binary) None s'
    = (Ok (None, Some "entrypoint circuit not found"%string), s').
Proof.
  assert (Hr : fst (NewRunner (Binary_Encode entry_binary) empty_state)
               = Ok (Some (mkRunner entry_binary), None)) by (vm_compute; reflexivity).
  destruct (NewRunner (Binary_Encode entry_binary) empty_state) as [r s'] eqn:E.
  cbn [fst] in Hr. subst r. exists s'. split; [reflexivity|].
  exact (proj1 (proj2 (Runner_never_executes _ _ _ _ 5%nat E)) None).
Defined.

Lemma Decode_concat (Ep : QGID_t) (N V sd : list byte) :
  Z.of_nat (length N) < 2 ^ 32 -> Z.of_nat (length V) < 2 ^ 32 ->
  Decode (vec_to_list QMB_magic ++ vec_to_list Ep ++ be_bytes 4 (Z.of_nat (length N)) ++ N
            ++ be_bytes 4 (Z.of_nat (length V)) ++ V ++ sd)
  = (Some (mkEmbeddedBinary QMB_magic Ep (string_of_list_byte N) (string_of_list_byte V) sd),
     None).
Proof.
  intros HN HV.
  set (E := vec_to_list Ep).
  assert (HE : length E = 32%nat) by apply length_vec_to_list.
  set (LN := be_bytes 4 (Z.of_nat (length N))).
  set (LV := be_bytes 4 (Z.of_nat (length V))).
  assert (HLN : length LN = 4%nat) by apply be_bytes_length.
  assert (HLV : length LV = 4%nat) by apply be_bytes_length.
  set (hdr := vec_to_list QMB_magic ++ E).
  assert (Hh : length hdr = 36%nat) by (unfold hdr; rewrite length_app, HE; reflexivity).
  set (data := vec_to_list QMB_magic ++ E ++ LN ++ N ++ LV ++ V ++ sd).
  assert (D1 : data = hdr ++ LN ++ N ++ LV ++ V ++ sd)
    by (unfold data, hdr; now rewrite <- app_assoc).
  assert (D2 : data = (hdr ++ LN) ++ N ++ LV ++ V ++ sd)
    by (rewrite D1, <- !app_assoc; reflexivity).
  assert (D3 : data = ((hdr ++ LN) ++ N) ++ LV ++ V ++ sd)
    by (rewrite D1, <- !app_assoc; reflexivity).
  assert (D4 : data = (((hdr ++ LN) ++ N) ++ LV) ++ V ++ sd)
    by (rewrite D1, <- !app_assoc; reflexivity).
  assert (D5 : data = ((((hdr ++ LN) ++ N) ++ LV) ++ V) ++ sd)
    by (rewrite D1, <- !app_assoc; reflexivity).
  assert (Hlen : length data = (44 + length N + length V + length sd)%nat).
  { rewrite D1, !length_app, Hh, HLN, HLV. lia. }
  assert (Hn : read_u32 data 36 = Z.of_nat (length N)).
  { rewrite D1, <- Hh. apply read_u32_be_bytes. lia. }
  assert (Hv : read_u32 data (36 + 4 + length N) = Z.of_nat (length V)).
  { rewrite D3. replace (36 + 4 + length N)%nat with (length ((hdr ++ LN) ++ N))
      by (rewrite !length_app, Hh, HLN; lia).
    apply read_u32_be_bytes. lia. }
  assert (H1 : copy_to_array 4 (slice data 0 4) = QMB_magic) by reflexivity.
  assert (H2 : copy_to_array 32 (slice data 4 36) = Ep).
  { unfold data. rewrite slice_app by (rewrite ?HE; reflexivity).
    apply copy_to_array_vec_to_list. }
  assert (H3 : slice data (36 + 4) (36 + 4 + length N) = N).
  { rewrite D2. apply slice_app; rewrite !length_app, Hh, HLN; lia. }
  assert (H4 : slice data (36 + 4 + length N + 4) (36 + 4 + length N + 4 + length V) = V).
  { rewrite D4. apply slice_app; rewrite !length_app, Hh, HLN, HLV; lia. }
  assert (H5 : drop (36 + 4 + length N + 4 + length V) data = sd).
  { rewrite D5. apply drop_app_length'. rewrite !length_app, Hh, HLN, HLV. lia. }
  assert (Hb : byte_at data 0 = "Q"%byte /\ byte_at data 1 = "M"%byte /\
               byte_at data 2 = "B"%byte /\ byte_at data 3 = "001"%byte)
    by (repeat split; reflexivity).
  destruct Hb as (B0 & B1 & B2 & B3).
  fold E LN LV data. unfold Decode. cbv zeta. rewrite B0, B1, B2, B3. cbn [Byte.eqb negb orb].
  rewrite Hn, Nat2Z.id, Hv, Nat2Z.id, H1, H2, H3, H4, H5.
  rewrite !(proj2 (Nat.ltb_ge _ _)) by lia.
  rewrite !(proj2 (Z.ltb_ge _ _)) by lia.
  reflexivity.
Qed.

(** X16.  A container built by [Embed] and encoded is accepted by
    [NewRunner]: the runner reports the embedded name, version and
    entrypoint, and its store is empty, since [Embed] leaves the store data
    nil whatever the store it is given holds. *)
Theorem Runner_of_Embed (entrypoint : QGID_t) (name version : string) (s : State) :
  Z.of_nat (String.length name) < 2 ^ 32 ->
  Z.of_nat (String.length version) < 2 ^ 32 ->
  exists r,
    NewRunner (Binary_Encode (Embed entrypoint name version)) s
    = (Ok (Some r, None), mkState (heap s) NewStore) /\
    Runner_Name r = name /\ Runner_Version r = version /\
    Runner_Entrypoint r = entrypoint /\
    (forall id, Runner_GetValue id (mkState (heap s) NewStore)
                = (Ok None, mkState (heap s) NewStore)).
Proof.
  intros HN HV. exists (mkRunner (Embed entrypoint name version)).
  assert (Hl : forall x, length (bytes_of_string x) = String.length x).
  { intros x. unfold bytes_of_string, list_byte_of_string. rewrite length_map.
    induction x as [|a x IH]; simpl; congruence. }
  assert (Hd : Decode (Binary_Encode (Embed entrypoint name version))
               = (Some (Embed entrypoint name version), None)).
  { rewrite Binary_Encode_concat. unfold Embed at 1 2 3 4 5 6 7.
    cbv beta iota delta [Magic Entrypoint Name Version StoreData].
    rewrite Decode_concat by (rewrite Hl; assumption).
    now rewrite !string_of_bytes_of_string. }
  split; [unfold NewRunner; rewrite Hd; reflexivity|].
  split; [reflexivity|]. split; [reflexivity|]. split; [reflexivity|].
  intros id. unfold Runner_GetValue, Store_GetValue. cbn [store values NewStore].
  now rewrite lookup_empty.
Qed.

Lemma Runner_of_Embed_witness :
  exists r,
    NewRunner (Binary_Encode (Embed id_QGID "id" "1.0.0")) empty_state
    = (Ok (Some r, None), mkState (heap empty_state) NewStore) /\
    Runner_Name r = "id"%string.
Proof.
  destruct (Runner_of_Embed id_QGID "id" "1.0.0" empty_state) as (r & H1 & H2 & _);
    [vm_compute; reflexivity | vm_compute; reflexivity |].
  exists r. split; assumption.
Defined.

(** ** Further properties: matrices *)

Lemma data_get_ok (s : State) (p : nat) (m : Matrix) (i : nat) (x : QI) :
  heap s !! p = Some m -> MData m !! i = Some x ->
  data_get (Some p) (Z.of_nat i) s = (Ok x, s).
Proof.
  intros Hm Hx. unfold data_get, bind. rewrite (deref_ok _ _ _ Hm).
  pose proof (lookup_lt_Some _ _ _ Hx) as Hl.
  replace (Z.of_nat i <? 0) with false by (symmetry; apply Z.ltb_ge; lia).
  replace (Z.of_nat (length (MData m)) <=? Z.of_nat i) with false
    by (symmetry; apply Z.leb_gt; lia).
  cbn [orb]. now rewrite Nat2Z.id, Hx.
Qed.

Lemma data_get_out (s : State) (p : nat) (m : Matrix) (i : Z) :
  heap s !! p = Some m -> ~ 0 <= i < Z.of_nat (length (MData m)) ->
  data_get (Some p) i s = (Panic index_out_of_range, s).
Proof.
  intros Hm Hi. unfold data_get, bind. rewrite (deref_ok _ _ _ Hm).
  destruct (i <? 0) eqn:E1; [reflexivity|].
  destruct (Z.of_nat (length (MData m)) <=? i) eqn:E2; [reflexivity|].
  apply Z.ltb_ge in E1. apply Z.leb_gt in E2. lia.
Qed.

Lemma deref_lookup_new (s : State) (m : Matrix) :
  heap (pushed s m) !! length (heap s) = Some m.
Proof. unfold pushed. cbn [heap]. apply list_lookup_middle. reflexivity. Qed.

Lemma pushed_lookup_old (s : State) (c : Matrix) (p : nat) (m : Matrix) :
  heap s !! p = Some m -> heap (pushed s c) !! p = Some m.
Proof. intros H. unfold pushed. simpl. now apply lookup_app_l_Some. Qed.

(** A loop that writes [vals] into a freshly allocated matrix, one entry
    per round. *)
Lemma for_loop_fill (s : State) (r c : Z) (body : Z -> M unit) (vals : list QI) :
  (forall (i : nat) (q : QI) (d : list QI),
     vals !! i = Some q -> length d = length vals ->
     body (Z.of_nat i) (pushed s (mkMatrix r c d))
     = (Ok tt, pushed s (mkMatrix r c (<[i := q]> d)))) ->
  forall d, length d = length vals ->
  for_loop (length vals) 0 body (pushed s (mkMatrix r c d))
  = (Ok tt, pushed s (mkMatrix r c vals)).
Proof.
  intros Hbody d Hd.
  destruct (for_loop_inv
    (fun t st => 0 <= t /\ exists d', st = pushed s (mkMatrix r c d') /\
                 length d' = length vals /\
                 take (Z.to_nat t) d' = take (Z.to_nat t) vals)
    body (length vals) 0 (pushed s (mkMatrix r c d))) as (s' & Hl & Ht & d' & -> & Hlen & Htake).
  - split; [lia|]. exists d. auto.
  - intros t st Ht (_ & d' & -> & Hlen & Htake).
    destruct (lookup_lt_is_Some_2 vals (Z.to_nat t) ltac:(lia)) as [q Hq].
    exists (pushed s (mkMatrix r c (<[Z.to_nat t := q]> d'))). split.
    + rewrite <- (Z2Nat.id t) at 1 by lia. now apply Hbody.
    + split; [lia|]. eexists. split; [reflexivity|]. split; [now rewrite length_insert|].
      replace (Z.to_nat (t + 1)) with (S (Z.to_nat t)) by lia.
      rewrite (take_S_r _ _ q) by (rewrite list_lookup_insert_eq by lia; reflexivity).
      rewrite (take_S_r vals _ q) by exact Hq.
      rewrite take_insert_ge by lia. now rewrite Htake.
  - rewrite Hl. f_equal. f_equal. f_equal.
    rewrite Z.add_0_l, Nat2Z.id in Htake.
    rewrite <- (take_ge d' (length vals)) by lia.
    rewrite <- (take_ge vals (length vals)) at 2 by lia. exact Htake.
Qed.

Lemma NewMatrix_wf (a : Matrix) (s : State) :
  wf_matrix a ->
  NewMatrix (Rows a) (Cols a) s
  = (Ok (Some (length (heap s))),
     pushed s (mkMatrix (Rows a) (Cols a) (replicate (length (MData a)) QIZero))).
Proof.
  intros (Hr & Hc & Hl & Hb).
  rewrite NewMatrix_ok by (rewrite wrap64_small; nia).
  rewrite wrap64_small by nia. rewrite <- Hl, Nat2Z.id. reflexivity.
Qed.

(** The common shape of [MatAdd], [MatSub], [MatScale] and [Clone]: a new
    matrix of the shape of [a] whose entries are computed one by one. *)
Lemma elementwise_ok (s : State) (a : Matrix) (body : ptr -> Z -> M unit) (vals : list QI) :
  wf_matrix a -> length vals = length (MData a) ->
  (forall (i : nat) (q : QI) (d : list QI),
     vals !! i = Some q -> length d = length vals ->
     body (Some (length (heap s))) (Z.of_nat i) (pushed s (mkMatrix (Rows a) (Cols a) d))
     = (Ok tt, pushed s (mkMatrix (Rows a) (Cols a) (<[i := q]> d)))) ->
  (C <- NewMatrix (Rows a) (Cols a) ;;
   for_upto (Z.of_nat (length (MData a))) (body C) ;;;
   ret C) s
  = (Ok (Some (length (heap s))), pushed s (mkMatrix (Rows a) (Cols a) vals)).
Proof.
  intros Hwf Hlen Hbody. unfold bind. rewrite (NewMatrix_wf a s Hwf).
  unfold for_upto. rewrite Nat2Z.id, <- Hlen.
  rewrite (for_loop_fill s (Rows a) (Cols a) _ vals Hbody)
    by (now rewrite length_replicate).
  reflexivity.
Qed.

Lemma data_set_fresh (s : State) (r c : Z) (d : list QI) (i : nat) (v : QI) :
  (i < length d)%nat ->
  data_set (Some (length (heap s))) (Z.of_nat i) v (pushed s (mkMatrix r c d))
  = (Ok tt, pushed s (mkMatrix r c (<[i := v]> d))).
Proof.
  intros Hi. rewrite data_set_pushed by (simpl; lia). simpl. now rewrite Nat2Z.id.
Qed.

Lemma zip_step (f : QI -> QI -> QI) (s : State) (pa pb : nat) (a b : Matrix) :
  heap s !! pa = Some a -> heap s !! pb = Some b ->
  forall (i : nat) (q : QI) (d : list QI),
  zip_with f (MData a) (MData b) !! i = Some q ->
  length d = length (zip_with f (MData a) (MData b)) ->
  (x <- data_get (Some pa) (Z.of_nat i) ;;
   y <- data_get (Some pb) (Z.of_nat i) ;;
   data_set (Some (length (heap s))) (Z.of_nat i) (f x y))
    (pushed s (mkMatrix (Rows a) (Cols a) d))
  = (Ok tt, pushed s (mkMatrix (Rows a) (Cols a) (<[i := q]> d))).
Proof.
  intros Ha Hb i q d Hq Hd.
  pose proof (lookup_lt_Some _ _ _ Hq) as Hi.
  apply lookup_zip_with_Some in Hq as (x & y & -> & Hx & Hy).
  rewrite (bind_Ok _ _ _ _ _ (data_get_ok _ pa a i x (pushed_lookup_old _ _ _ _ Ha) Hx)).
  rewrite (bind_Ok _ _ _ _ _ (data_get_ok _ pb b i y (pushed_lookup_old _ _ _ _ Hb) Hy)).
  apply data_set_fresh. lia.
Qed.

Lemma map_step (f : QI -> QI) (s : State) (pa : nat) (a : Matrix) :
  heap s !! pa = Some a ->
  forall (i : nat) (q : QI) (d : list QI),
  map f (MData a) !! i = Some q ->
  length d = length (map f (MData a)) ->
  (x <- data_get (Some pa) (Z.of_nat i) ;;
   data_set (Some (length (heap s))) (Z.of_nat i) (f x))
    (pushed s (mkMatrix (Rows a) (Cols a) d))
  = (Ok tt, pushed s (mkMatrix (Rows a) (Cols a) (<[i := q]> d))).
Proof.
  intros Ha i q d Hq Hd.
  pose proof (lookup_lt_Some _ _ _ Hq) as Hi.
  rewrite list_lookup_fmap in Hq. destruct (MData a !! i) as [x|] eqn:Hx; [|discriminate].
  injection Hq as <-.
  rewrite (bind_Ok _ _ _ _ _ (data_get_ok _ pa a i x (pushed_lookup_old _ _ _ _ Ha) Hx)).
  apply data_set_fresh. lia.
Qed.

Lemma wf_same_length (a b : Matrix) :
  wf_matrix a -> wf_matrix b -> Rows a = Rows b -> Cols a = Cols b ->
  length (MData a) = length (MData b).
Proof. intros (_ & _ & Ha & _) (_ & _ & Hb & _) Hr Hc. rewrite Hr, Hc in Ha. lia. Qed.

Lemma QIEqual_eq (a b : QI) : QIEqual a b = true <-> a = b.
Proof.
  unfold QIEqual. rewrite andb_true_iff. split.
  - intros [H1 H2]. apply Qc_eq_bool_correct in H1, H2. destruct a, b; simpl in *; congruence.
  - intros ->. unfold Qc_eq_bool.
    destruct (Qcanon.Qc_eq_dec (Re b) (Re b)), (Qcanon.Qc_eq_dec (Im b) (Im b));
      try contradiction; auto.
Qed.

Lemma MatAdd_ok (s : State) (pa pb : nat) (a b : Matrix) :
  heap s !! pa = Some a -> heap s !! pb = Some b ->
  wf_matrix a -> wf_matrix b -> Rows a = Rows b -> Cols a = Cols b ->
  MatAdd (Some pa) (Some pb) s
  = (Ok (Some (length (heap s))),
     pushed s (mkMatrix (Rows a) (Cols a) (zip_with QIAdd (MData a) (MData b)))).
Proof.
  intros Ha Hb Hwa Hwb Hr Hc.
  pose proof (wf_same_length a b Hwa Hwb Hr Hc) as Hl.
  unfold MatAdd.
  rewrite !(bind_Ok _ _ _ _ _ (deref_ok _ _ _ Ha)), !(bind_Ok _ _ _ _ _ (deref_ok _ _ _ Hb)).
  rewrite Hr, Hc, !Z.eqb_refl. cbn [negb orb]. rewrite <- Hr, <- Hc.
  apply (elementwise_ok s a
    (fun C i => x <- data_get (Some pa) i ;; y <- data_get (Some pb) i ;;
                data_set C i (QIAdd x y))); [exact Hwa | rewrite length_zip_with; lia |].
  apply (zip_step QIAdd); assumption.
Qed.

Lemma MatSub_ok (s : State) (pa pb : nat) (a b : Matrix) :
  heap s !! pa = Some a -> heap s !! pb = Some b ->
  wf_matrix a -> wf_matrix b -> Rows a = Rows b -> Cols a = Cols b ->
  MatSub (Some pa) (Some pb) s
  = (Ok (Some (length (heap s))),
     pushed s (mkMatrix (Rows a) (Cols a) (zip_with QISub (MData a) (MData b)))).
Proof.
  intros Ha Hb Hwa Hwb Hr Hc.
  pose proof (wf_same_length a b Hwa Hwb Hr Hc) as Hl.
  unfold MatSub.
  rewrite !(bind_Ok _ _ _ _ _ (deref_ok _ _ _ Ha)), !(bind_Ok _ _ _ _ _ (deref_ok _ _ _ Hb)).
  rewrite Hr, Hc, !Z.eqb_refl. cbn [negb orb]. rewrite <- Hr, <- Hc.
  apply (elementwise_ok s a
    (fun C i => x <- data_get (Some pa) i ;; y <- data_get (Some pb) i ;;
                data_set C i (QISub x y))); [exact Hwa | rewrite length_zip_with; lia |].
  apply (zip_step QISub); assumption.
Qed.

Lemma MatScale_ok (s : State) (pa : nat) (a : Matrix) (r : Qc) :
  heap s !! pa = Some a -> wf_matrix a ->
  MatScale (Some pa) r s
  = (Ok (Some (length (heap s))),
     pushed s (mkMatrix (Rows a) (Cols a) (map (fun x => QIScale x r) (MData a)))).
Proof.
  intros Ha Hwa. unfold MatScale. rewrite (bind_Ok _ _ _ _ _ (deref_ok _ _ _ Ha)).
  apply (elementwise_ok s a
    (fun C i => x <- data_get (Some pa) i ;; data_set C i (QIScale x r)));
    [exact Hwa | now rewrite length_map |].
  apply (map_step (fun x => QIScale x r)). exact Ha.
Qed.

Lemma Matrix_Clone_ok (s : State) (pa : nat) (a : Matrix) :
  heap s !! pa = Some a -> wf_matrix a ->
  Matrix_Clone (Some pa) s = (Ok (Some (length (heap s))), pushed s a).
Proof.
  intros Ha Hwa. unfold Matrix_Clone. rewrite (bind_Ok _ _ _ _ _ (deref_ok _ _ _ Ha)).
  assert (Hid : map (fun x => NewQI (Re x) (Im x)) (MData a) = MData a).
  { rewrite <- (map_id (MData a)) at 2. apply map_ext. now intros []. }
  rewrite (elementwise_ok s a
    (fun C i => x <- data_get (Some pa) i ;; data_set C i (NewQI (Re x) (Im x)))
    (map (fun x => NewQI (Re x) (Im x)) (MData a)) Hwa).
  - rewrite Hid. now destruct a.
  - now rewrite length_map.
  - apply (map_step (fun x => NewQI (Re x) (Im x))). exact Ha.
Qed.

(** X17.  The entrywise operations on matrices that satisfy the matrix
    invariant.  [MatAdd] and [MatSub] return nil, allocating nothing, when
    the shapes differ, and otherwise a new matrix of that shape whose
    entries are the sums (differences) of the operands' entries; [MatScale]
    returns a new matrix with every entry scaled by [r]; [Clone] returns a
    new matrix equal to the original.  The operands stay in place, so later
    writes to a result do not reach them. *)
Theorem Matrix_elementwise_spec (s : State) (pa pb : nat) (a b : Matrix) (r : Qc) :
  heap s !! pa = Some a -> heap s !! pb = Some b ->
  wf_matrix a -> wf_matrix b ->
  (Rows a <> Rows b \/ Cols a <> Cols b ->
   MatAdd (Some pa) (Some pb) s = (Ok None, s) /\
   MatSub (Some pa) (Some pb) s = (Ok None, s)) /\
  (Rows a = Rows b -> Cols a = Cols b ->
   MatAdd (Some pa) (Some pb) s
   = (Ok (Some (length (heap s))),
      pushed s (mkMatrix (Rows a) (Cols a) (zip_with QIAdd (MData a) (MData b)))) /\
   MatSub (Some pa) (Some pb) s
   = (Ok (Some (length (heap s))),
      pushed s (mkMatrix (Rows a) (Cols a) (zip_with QISub (MData a) (MData b))))) /\
  MatScale (Some pa) r s
  = (Ok (Some (length (heap s))),
     pushed s (mkMatrix (Rows a) (Cols a) (map (fun x => QIScale x r) (MData a)))) /\
  Matrix_Clone (Some pa) s = (Ok (Some (length (heap s))), pushed s a) /\
  heap (pushed s a) !! pa = Some a /\ pa <> length (heap s).
Proof.
  intros Ha Hb Hwa Hwb. split; [|split; [|split; [|split; [|split]]]].
  - intros Hne.
    assert (Hc : negb (Rows a =? Rows b) || negb (Cols a =? Cols b) = true).
    { destruct Hne as [H|H]; apply Z.eqb_neq in H; rewrite H; [reflexivity|].
      now rewrite orb_true_r. }
    unfold MatAdd, MatSub.
    rewrite !(bind_Ok _ _ _ _ _ (deref_ok _ _ _ Ha)), !(bind_Ok _ _ _ _ _ (deref_ok _ _ _ Hb)).
    rewrite Hc. split; reflexivity.
  - intros Hr Hc. split; [now apply MatAdd_ok | now apply MatSub_ok].
  - now apply MatScale_ok.
  - now apply Matrix_Clone_ok.
  - now apply pushed_lookup_old.
  - apply lookup_lt_Some in Ha. lia.
Qed.

Lemma Matrix_elementwise_spec_witness :
  MatAdd (Some 0%nat) (Some 1%nat) row_col_state = (Ok None, row_col_state) /\
  Matrix_Clone (Some 0%nat) row_col_state
  = (Ok (Some 2%nat), pushed row_col_state (mkMatrix 1 2 [QIOne; QII])).
Proof.
  assert (W0 : wf_matrix (mkMatrix 1 2 [QIOne; QII])) by (unfold wf_matrix; simpl; lia).
  assert (W1 : wf_matrix (mkMatrix 2 1 [QII; QIOne])) by (unfold wf_matrix; simpl; lia).
  destruct (Matrix_elementwise_spec row_col_state 0 1 _ _ 0%Qc eq_refl eq_refl W0 W1)
    as (Hne & _ & _ & Hclone & _).
  split; [|exact Hclone].
  apply Hne. left. simpl. lia.
Defined.

Lemma MatrixEqual_loop_ok (s : State) (pa pb : nat) (a b : Matrix) :
  heap s !! pa = Some a -> heap s !! pb = Some b ->
  forall (k i : nat),
  (i + k <= length (MData a))%nat -> (i + k <= length (MData b))%nat ->
  exists r,
    MatrixEqual_loop k (Z.of_nat i) (Some pa) (Some pb) s = (Ok r, s) /\
    (r = true <-> take k (drop i (MData a)) = take k (drop i (MData b))).
Proof.
  intros Ha Hb. induction k as [|k IH]; intros i Hla Hlb.
  - exists true. split; [reflexivity|]. now rewrite !take_0.
  - destruct (lookup_lt_is_Some_2 (MData a) i ltac:(lia)) as [x Hx].
    destruct (lookup_lt_is_Some_2 (MData b) i ltac:(lia)) as [y Hy].
    cbn [MatrixEqual_loop].
    rewrite (bind_Ok _ _ _ _ _ (data_get_ok _ _ _ _ _ Ha Hx)).
    rewrite (bind_Ok _ _ _ _ _ (data_get_ok _ _ _ _ _ Hb Hy)).
    rewrite (drop_S _ _ _ Hx), (drop_S _ _ _ Hy). cbn [take].
    destruct (QIEqual x y) eqn:E; cbn [negb].
    + apply QIEqual_eq in E. subst y.
      destruct (IH (S i) ltac:(lia) ltac:(lia)) as (r & Hr & Hiff).
      exists r. split.
      * replace (Z.of_nat i + 1) with (Z.of_nat (S i)) by lia. exact Hr.
      * rewrite Hiff. split; [now intros -> | now intros [= ->]].
    + exists false. split; [reflexivity|]. split; [discriminate|].
      intros [= H _]. subst y.
      assert (QIEqual x x = true) by now apply QIEqual_eq. congruence.
Qed.

(** X18.  [MatrixEqual] on two matrices that satisfy the matrix invariant
    returns true exactly when they have the same shape and the same
    entries; it changes nothing. *)
Theorem MatrixEqual_spec (s : State) (pa pb : nat) (a b : Matrix) :
  heap s !! pa = Some a -> heap s !! pb = Some b ->
  wf_matrix a -> wf_matrix b ->
  exists r, MatrixEqual (Some pa) (Some pb) s = (Ok r, s) /\ (r = true <-> a = b).
Proof.
  intros Ha Hb Hwa Hwb. unfold MatrixEqual.
  rewrite (bind_Ok _ _ _ _ _ (deref_ok _ _ _ Ha)), (bind_Ok _ _ _ _ _ (deref_ok _ _ _ Hb)).
  destruct (Z.eqb_spec (Rows a) (Rows b)) as [Hr|Hr]; cbn [negb orb].
  2:{ exists false. split; [reflexivity|]. split; [discriminate | intros ->; contradiction]. }
  destruct (Z.eqb_spec (Cols a) (Cols b)) as [Hc|Hc]; cbn [negb].
  2:{ exists false. split; [reflexivity|]. split; [discriminate | intros ->; contradiction]. }
  pose proof (wf_same_length a b Hwa Hwb Hr Hc) as Hl.
  destruct (MatrixEqual_loop_ok s pa pb a b Ha Hb (length (MData a)) 0
              ltac:(lia) ltac:(lia)) as (r & Hrun & Hiff).
  exists r. split; [exact Hrun|]. rewrite Hiff. rewrite !drop_0.
  rewrite (take_ge (MData a)) by lia. rewrite (take_ge (MData b)) by lia.
  split; [|now intros ->].
  destruct a, b; simpl in *. congruence.
Qed.

Lemma MatrixEqual_spec_witness :
  exists r, MatrixEqual (Some 0%nat) (Some 1%nat) row_col_state = (Ok r, row_col_state) /\
            (r = true <-> mkMatrix 1 2 [QIOne; QII] = mkMatrix 2 1 [QII; QIOne]).
Proof.
  apply (MatrixEqual_spec row_col_state 0 1); try reflexivity;
    unfold wf_matrix; simpl; lia.
Defined.

(** X19.  [Get] and [Set] check the linear index [i*Cols + j] only: when it
    lies in the data array, [Set] replaces that one entry of the matrix in
    place and [Get] then returns the value written; otherwise both panic
    with an index error and change nothing. *)
Theorem Matrix_Get_Set_spec (s : State) (p : nat) (a : Matrix) (i j : Z) (v : QI) :
  heap s !! p = Some a ->
  let k := wrap64 (i * Cols a + j) in
  (0 <= k < Z.of_nat (length (MData a)) ->
   Matrix_Set (Some p) i j v s = (Ok tt, stored s p (with_entry a k v)) /\
   Matrix_Get (Some p) i j (stored s p (with_entry a k v))
   = (Ok v, stored s p (with_entry a k v))) /\
  (~ 0 <= k < Z.of_nat (length (MData a)) ->
   Matrix_Set (Some p) i j v s = (Panic index_out_of_range, s) /\
   Matrix_Get (Some p) i j s = (Panic index_out_of_range, s)).
Proof.
  intros Ha k. pose proof (lookup_lt_Some _ _ _ Ha) as Hp. split; intros Hk.
  - assert (Hc : (k <? 0) || (Z.of_nat (length (MData a)) <=? k) = false).
    { apply orb_false_intro; [apply Z.ltb_ge | apply Z.leb_gt]; lia. }
    split.
    + unfold Matrix_Set. rewrite (bind_Ok _ _ _ _ _ (deref_ok _ _ _ Ha)).
      unfold data_set. rewrite (bind_Ok _ _ _ _ _ (deref_ok _ _ _ Ha)).
      fold k. rewrite Hc. reflexivity.
    + assert (Hs : heap (stored s p (with_entry a k v)) !! p = Some (with_entry a k v)).
      { unfold stored. cbn [heap]. apply list_lookup_insert_eq. exact Hp. }
      unfold Matrix_Get. rewrite (bind_Ok _ _ _ _ _ (deref_ok _ _ _ Hs)).
      cbn [with_entry Cols]. fold k.
      rewrite <- (Z2Nat.id k) at 1 by lia.
      apply (data_get_ok _ p (with_entry a k v)); [exact Hs|].
      cbn [with_entry MData]. apply list_lookup_insert_eq. lia.
  - split.
    + unfold Matrix_Set. rewrite (bind_Ok _ _ _ _ _ (deref_ok _ _ _ Ha)).
      unfold data_set. rewrite (bind_Ok _ _ _ _ _ (deref_ok _ _ _ Ha)). fold k.
      destruct (k <? 0) eqn:E1; [reflexivity|].
      destruct (Z.of_nat (length (MData a)) <=? k) eqn:E2; [reflexivity|].
      apply Z.ltb_ge in E1. apply Z.leb_gt in E2. lia.
    + unfold Matrix_Get. rewrite (bind_Ok _ _ _ _ _ (deref_ok _ _ _ Ha)).
      now apply (data_get_out _ _ a).
Qed.

Lemma Matrix_Get_Set_spec_witness :
  Matrix_Get (Some 0%nat) 0 2 row_col_state = (Panic index_out_of_range, row_col_state).
Proof.
  refine (proj2 (proj2 (Matrix_Get_Set_spec row_col_state 0 _ 0 2 QIOne eq_refl) _)).
  vm_compute. intros [_ H]. discriminate H.
Defined.

Lemma Matrix_Get_ok (s : State) (p : nat) (a : Matrix) (i j : Z) :
  heap s !! p = Some a -> wf_matrix a -> 0 <= i < Rows a -> 0 <= j < Cols a ->
  Matrix_Get (Some p) i j s = (Ok (entry a i j), s).
Proof.
  intros Ha Hwf Hi Hj. destruct (wf_index a i j Hwf Hi Hj) as [Hidx Hb].
  unfold Matrix_Get. rewrite (bind_Ok _ _ _ _ _ (deref_ok _ _ _ Ha)).
  rewrite wrap64_small by lia.
  destruct (lookup_lt_is_Some_2 (MData a) (Z.to_nat (i * Cols a + j)) ltac:(lia)) as [x Hx].
  rewrite <- (Z2Nat.id (i * Cols a + j)) at 1 by lia.
  rewrite (data_get_ok _ _ _ _ _ Ha Hx). unfold entry.
  now rewrite (nth_lookup_Some _ _ _ _ Hx).
Qed.

Lemma Trace_square (s : State) (p : nat) (a : Matrix) :
  heap s !! p = Some a -> wf_matrix a -> Rows a = Cols a ->
  Trace (Some p) s = (Ok (diagonal_sum a), s).
Proof.
  intros Ha Hwf Hsq. unfold Trace. rewrite (bind_Ok _ _ _ _ _ (deref_ok _ _ _ Ha)).
  rewrite Hsq, Z.eqb_refl. cbn [negb]. rewrite <- Hsq.
  unfold for_acc, diagonal_sum.
  apply (for_acc_loop_pure _ (fun i sum => QIAdd sum (entry a i i))).
  intros t acc Ht. destruct Hwf as (Hr & Hwf').
  rewrite (bind_Ok _ _ _ _ _ (Matrix_Get_ok s p a t t Ha (conj Hr Hwf') ltac:(lia) ltac:(lia))).
  reflexivity.
Qed.

(** X20.  [Trace] returns zero for a matrix that is not square, and the sum
    of the diagonal entries for a square one; it changes nothing. *)
Theorem Trace_spec (s : State) (p : nat) (a : Matrix) :
  heap s !! p = Some a -> wf_matrix a ->
  Trace (Some p) s = (Ok (if Rows a =? Cols a then diagonal_sum a else QIZero), s).
Proof.
  intros Ha Hwf. destruct (Z.eqb_spec (Rows a) (Cols a)) as [Hsq|Hsq].
  - now apply Trace_square.
  - unfold Trace. rewrite (bind_Ok _ _ _ _ _ (deref_ok _ _ _ Ha)).
    replace (Rows a =? Cols a) with false by (symmetry; now apply Z.eqb_neq).
    reflexivity.
Qed.

Lemma Trace_spec_witness :
  Trace (Some 0%nat) row_col_state = (Ok QIZero, row_col_state).
Proof.
  refine (Trace_spec row_col_state 0 (mkMatrix 1 2 [QIOne; QII]) eq_refl _).
  unfold wf_matrix; simpl; lia.
Defined.

(** *** Loops that write entries of a fresh matrix *)

Lemma apply_writes_length (ws : list (nat * QI)) :
  forall d, length (apply_writes ws d) = length d.
Proof.
  induction ws as [|w ws IH]; intros d; [reflexivity|].
  unfold apply_writes in *. cbn [fold_left]. now rewrite IH, length_insert.
Qed.

Lemma apply_writes_app (ws1 ws2 : list (nat * QI)) (d : list QI) :
  apply_writes (ws1 ++ ws2) d = apply_writes ws2 (apply_writes ws1 d).
Proof. apply fold_left_app. Qed.

(** An index that is written, always with the same value, holds it. *)
Lemma apply_writes_lookup (ws : list (nat * QI)) (d : list QI) (k : nat) (v : QI) :
  (k < length d)%nat -> In (k, v) ws -> (forall v', In (k, v') ws -> v' = v) ->
  apply_writes ws d !! k = Some v.
Proof.
  intros Hk. induction ws as [|[k' v'] ws IH] using rev_ind; intros Hin Hsame;
    [destruct Hin|].
  rewrite apply_writes_app. unfold apply_writes at 1. cbn [fold_left fst snd].
  destruct (Nat.eq_dec k' k) as [->|Hne].
  - rewrite (Hsame v') by (apply in_or_app; right; now left).
    apply list_lookup_insert_eq. now rewrite apply_writes_length.
  - rewrite list_lookup_insert_ne by exact Hne.
    apply IH.
    + apply in_app_or in Hin as [Hin|[Hin|[]]]; [exact Hin | congruence].
    + intros v'' H. apply Hsame. apply in_or_app. now left.
Qed.


Lemma Zseq_In (t i0 : Z) (k : nat) : In t (Zseq i0 k) <-> i0 <= t < i0 + Z.of_nat k.
Proof.
  revert i0. induction k as [|k IH]; intros i0; cbn [Zseq In]; [lia|].
  rewrite IH. rewrite Nat2Z.inj_succ. split; [intros [->|H]; lia | intros H].
  destruct (Z.eq_dec i0 t); [now left | right; lia].
Qed.

Lemma for_loop_writes (s : State) (r c : Z) (L : nat) (body : Z -> M unit)
    (W : Z -> list (nat * QI)) :
  forall (k : nat) (i0 : Z),
  (forall t d, i0 <= t < i0 + Z.of_nat k -> length d = L ->
     body t (pushed s (mkMatrix r c d))
     = (Ok tt, pushed s (mkMatrix r c (apply_writes (W t) d)))) ->
  forall d, length d = L ->
  for_loop k i0 body (pushed s (mkMatrix r c d))
  = (Ok tt, pushed s (mkMatrix r c (apply_writes (concat (map W (Zseq i0 k))) d))).
Proof.
  induction k as [|k IH]; intros i0 Hbody d Hd; [reflexivity|].
  cbn [for_loop Zseq map concat].
  rewrite (bind_Ok _ _ _ _ _ (Hbody i0 d ltac:(lia) Hd)).
  rewrite apply_writes_app. apply IH.
  - intros t d' Ht. apply Hbody. lia.
  - now rewrite apply_writes_length.
Qed.

Lemma In_writes (W : Z -> list (nat * QI)) (n : nat) (w : nat * QI) :
  In w (concat (map W (Zseq 0 n))) <-> exists t, 0 <= t < Z.of_nat n /\ In w (W t).
Proof.
  rewrite in_concat. split.
  - intros (l & Hl & Hw). apply in_map_iff in Hl as (t & <- & Ht).
    apply Zseq_In in Ht. exists t. split; [lia | exact Hw].
  - intros (t & Ht & Hw). exists (W t). split; [|exact Hw].
    apply in_map_iff. exists t. split; [reflexivity|]. apply Zseq_In. lia.
Qed.

(** Row-major indices determine the row and the column. *)
Lemma index_inj (n a b a' b' : Z) :
  0 <= b < n -> 0 <= b' < n -> a * n + b = a' * n + b' -> a = a' /\ b = b'.
Proof.
  intros Hb Hb' H.
  assert (Ha : a = a').
  { destruct (Z.lt_trichotomy a a') as [Hlt|[Heq|Hgt]]; [|exact Heq|].
    - assert (n <= (a' - a) * n) by nia. lia.
    - assert (n <= (a - a') * n) by nia. lia. }
  subst a'. lia.
Qed.

(** *** Identity *)






(** *** Conjugate transpose *)

Lemma Dagger_ok (s : State) (pa : nat) (a : Matrix) :
  heap s !! pa = Some a -> wf_matrix a ->
  exists d,
    Dagger (Some pa) s
    = (Ok (Some (length (heap s))), pushed s (mkMatrix (Cols a) (Rows a) d)) /\
    Z.of_nat (length d) = Cols a * Rows a /\
    forall i j, 0 <= i < Rows a -> 0 <= j < Cols a ->
      d !! Z.to_nat (j * Rows a + i) = Some (QIConj (entry a i j)).
Proof.
  intros Ha Hwf. pose proof Hwf as (Hr & Hc & Hl & Hb).
  set (N := Z.to_nat (Cols a * Rows a)).
  set (Win := fun i j : Z => [(Z.to_nat (j * Rows a + i), QIConj (entry a i j))]).
  set (Wout := fun i : Z => concat (map (Win i) (Zseq 0 (Z.to_nat (Cols a))))).
  set (ws := concat (map Wout (Zseq 0 (Z.to_nat (Rows a))))).
  exists (apply_writes ws (replicate N QIZero)).
  assert (Hw : wrap64 (Cols a * Rows a) = Cols a * Rows a) by (apply wrap64_small; nia).
  assert (Hin : forall i d, 0 <= i < 0 + Z.of_nat (Z.to_nat (Rows a)) -> length d = N ->
    for_upto (Cols a) (fun j => x <- Matrix_Get (Some pa) i j ;;
                                Matrix_Set (Some (length (heap s))) j i (QIConj x))
      (pushed s (mkMatrix (Cols a) (Rows a) d))
    = (Ok tt, pushed s (mkMatrix (Cols a) (Rows a) (apply_writes (Wout i) d)))).
  { intros i d Hi Hd. unfold for_upto.
    apply (for_loop_writes s (Cols a) (Rows a) N _ (Win i)); [|exact Hd].
    intros j d' Hj Hd'.
    rewrite (bind_Ok _ _ _ _ _ (Matrix_Get_old s a pa i j _ Ha Hwf ltac:(lia) ltac:(lia))).
    apply (Matrix_Set_pushed s (mkMatrix (Cols a) (Rows a) d')); cbn [Cols MData]; nia. }
  split; [|split].
  - unfold Dagger. rewrite (bind_Ok _ _ _ _ _ (deref_ok _ _ _ Ha)).
    rewrite (bind_Ok _ _ _ _ _ (NewMatrix_ok _ _ s ltac:(rewrite Hw; nia))).
    rewrite Hw. fold N. unfold for_upto at 1.
    rewrite (bind_Ok _ _ _ _ _
      (for_loop_writes s (Cols a) (Rows a) N _ Wout (Z.to_nat (Rows a)) 0 Hin
         (replicate N QIZero) (length_replicate _ _))).
    reflexivity.
  - rewrite apply_writes_length, length_replicate. unfold N. nia.
  - intros i j Hi Hj. apply apply_writes_lookup.
    + rewrite length_replicate. unfold N. nia.
    + apply In_writes. exists i. split; [lia|].
      apply In_writes. exists j. split; [lia | now left].
    + intros v' H. apply In_writes in H as (i' & Hi' & H).
      apply In_writes in H as (j' & Hj' & [[= H <-]|[]]).
      assert (Heq : j' * Rows a + i' = j * Rows a + i) by nia.
      destruct (index_inj (Rows a) j' i' j i) as [-> ->]; [lia | lia | exact Heq | reflexivity].
Qed.

Lemma QIConj_QIConj (q : QI) : QIConj (QIConj q) = q.
Proof. destruct q as [re im]. unfold QIConj. cbn [Re Im]. f_equal. ring. Qed.

(** X22.  [Dagger] returns a new matrix of the transposed shape whose entry
    [(j,i)] is the conjugate of the operand's entry [(i,j)]; applied to its
    own result it returns a copy of the operand. *)
Theorem Dagger_spec (s : State) (pa : nat) (a : Matrix) :
  heap s !! pa = Some a -> wf_matrix a ->
  exists m,
    Dagger (Some pa) s = (Ok (Some (length (heap s))), pushed s m) /\
    wf_matrix m /\ Rows m = Cols a /\ Cols m = Rows a /\
    (forall i j, 0 <= i < Rows a -> 0 <= j < Cols a ->
       entry m j i = QIConj (entry a i j)) /\
    Dagger (Some (length (heap s))) (pushed s m)
    = (Ok (Some (S (length (heap s)))), pushed (pushed s m) a).
Proof.
  intros Ha Hwf. pose proof Hwf as (Hr & Hc & Hl & Hb).
  destruct (Dagger_ok s pa a Ha Hwf) as (d & Hrun & Hld & Hd).
  set (m := mkMatrix (Cols a) (Rows a) d).
  assert (Hwm : wf_matrix m) by (unfold wf_matrix, m; cbn [Rows Cols MData]; lia).
  assert (Hent : forall i j, 0 <= i < Rows a -> 0 <= j < Cols a ->
            entry m j i = QIConj (entry a i j)).
  { intros i j Hi Hj. unfold entry, m. cbn [Cols MData]. apply nth_lookup_Some. now apply Hd. }
  exists m. split; [exact Hrun|]. split; [exact Hwm|].
  split; [reflexivity|]. split; [reflexivity|]. split; [exact Hent|].
  destruct (Dagger_ok (pushed s m) (length (heap s)) m (deref_lookup_new s m) Hwm)
    as (d2 & Hrun2 & Hld2 & Hd2).
  rewrite Hrun2.
  replace (length (heap (pushed s m))) with (S (length (heap s)))
    by (unfold pushed; cbn [heap]; rewrite length_app; simpl; lia).
  f_equal. f_equal. subst m. destruct a as [ra ca da]. cbn [Rows Cols MData] in *. f_equal.
  apply list_eq. intros k.
  destruct (Nat.lt_ge_cases k (length da)) as [Hk|Hk].
  2:{ rewrite !(proj2 (lookup_ge_None _ _)) by lia. reflexivity. }
  assert (Hca : 0 < ca) by nia.
  set (i := Z.of_nat k / ca). set (j := Z.of_nat k mod ca).
  assert (Hj : 0 <= j < ca) by (apply Z.mod_pos_bound; lia).
  assert (Hk' : Z.of_nat k = i * ca + j)
    by (unfold i, j; rewrite Z.mul_comm; apply Z.div_mod; lia).
  assert (Hi : 0 <= i < ra) by nia.
  replace k with (Z.to_nat (i * ca + j)) by lia.
  rewrite (Hd2 j i Hj Hi). rewrite (Hent i j Hi Hj), QIConj_QIConj.
  unfold entry. cbn [Cols MData].
  destruct (lookup_lt_is_Some_2 da (Z.to_nat (i * ca + j)) ltac:(lia)) as [x Hx].
  now rewrite Hx, (nth_lookup_Some _ _ _ _ Hx).
Qed.

Lemma Dagger_spec_witness :
  exists m,
    Dagger (Some 0%nat) row_col_state = (Ok (Some 2%nat), pushed row_col_state m) /\
    Rows m = 2 /\ Cols m = 1 /\
    Dagger (Some 2%nat) (pushed row_col_state m)
    = (Ok (Some 3%nat), pushed (pushed row_col_state m) (mkMatrix 1 2 [QIOne; QII])).
Proof.
  destruct (Dagger_spec row_col_state 0 (mkMatrix 1 2 [QIOne; QII]) eq_refl)
    as (m & H1 & _ & H2 & H3 & _ & H4); [unfold wf_matrix; simpl; lia|].
  exists m. repeat split; assumption.
Defined.

(** *** Kronecker product *)




(** *** Outer product *)



(** *** Matrices as values *)

Lemma qiFromValue_qi_to_value (q : QI) : qiFromValue (qi_to_value q) = (q, true).
Proof. now destruct q. Qed.

Lemma MatrixFromValue_ok (s : State) (a : Matrix) (rest : list Value) :
  wf_matrix a -> Rows a < 2 ^ 63 -> Cols a < 2 ^ 63 ->
  MatrixFromValue (Some (matrix_value (Rows a) (Cols a) (map qi_to_value (MData a)) rest)) s
  = (Ok (Some (length (heap s)), true), pushed s a).
Proof.
  intros Hwf HR HC. pose proof Hwf as (Hr & Hc & Hl & Hb).
  unfold MatrixFromValue, matrix_value, big_Int64.
  cbn [String.eqb Ascii.eqb Bool.eqb andb negb].
  rewrite !wrap64_small by lia.
  rewrite (bind_Ok _ _ _ _ _ (NewMatrix_wf a s Hwf)).
  assert (Hp : entries_parse (map qi_to_value (MData a)) (MData a)).
  { unfold entries_parse. rewrite map_map. apply map_ext. apply qiFromValue_qi_to_value. }
  assert (Hle : (length (MData a) <= length (replicate (length (MData a)) QIZero))%nat)
    by (rewrite length_replicate; lia).
  rewrite (bind_Ok _ _ _ _ _
    (MatrixFromValue_loop_ok s (Rows a) (Cols a) _ (MData a) [] _ Hp Hle)).
  cbn [app]. rewrite drop_replicate, Nat.sub_diag. cbn [replicate]. rewrite app_nil_r.
  now destruct a.
Qed.

(** X25.  Reading back the value [MatrixToValue] gives for a matrix yields a
    new matrix equal to the original. *)
Theorem Matrix_value_roundtrip (s : State) (p : nat) (a : Matrix) :
  heap s !! p = Some a -> wf_matrix a -> Rows a < 2 ^ 63 -> Cols a < 2 ^ 63 ->
  (v <- MatrixToValue (Some p) ;; MatrixFromValue (Some v)) s
  = (Ok (Some (length (heap s)), true), pushed s a).
Proof.
  intros Ha Hwf HR HC.
  assert (Htv : MatrixToValue (Some p) s
    = (Ok (matrix_value (Rows a) (Cols a) (map qi_to_value (MData a)) []), s)).
  { unfold MatrixToValue. now rewrite (bind_Ok _ _ _ _ _ (deref_ok _ _ _ Ha)). }
  rewrite (bind_Ok _ _ _ _ _ Htv). now apply MatrixFromValue_ok.
Qed.

Lemma Matrix_value_roundtrip_witness :
  (v <- MatrixToValue (Some 0%nat) ;; MatrixFromValue (Some v)) row_col_state
  = (Ok (Some 2%nat, true), pushed row_col_state (mkMatrix 1 2 [QIOne; QII])).
Proof.
  apply (Matrix_value_roundtrip row_col_state 0 (mkMatrix 1 2 [QIOne; QII]) eq_refl);
    [unfold wf_matrix; simpl; lia | reflexivity | reflexivity].
Defined.

Lemma MatrixFromValue_no_matrix (v : option Value) (s : State) :
  (forall rows cols entries rest, v <> Some (matrix_value rows cols entries rest)) ->
  MatrixFromValue v s = (Ok (None, false), s).
Proof.
  intros Hv. unfold MatrixFromValue.
  destruct v as [[| | | | |[| | |label| | | |] [| | | |[|[rows| | | | | | |] [|[cols| | | | | | |]
    [|[| | | |data| | |] rest]]]| | |]| |]|]; try reflexivity.
  destruct (String.eqb_spec label "matrix") as [->|Hne]; [|reflexivity].
  now destruct (Hv rows cols data rest).
Qed.




(** ** Further properties: the executor *)



Ltac exec_prim Hp :=
  cbn [Execute]; rewrite Hp;
  cbn [Z.eqb Pos.eqb PrimId PrimCompose PrimTensor PrimSwap PrimDiscard PrimZero
       PrimUnitary PrimChoi PrimPrepare PrimAdd PrimScale].












(** X28.  The errors of [Execute], each returned without running a child,
    allocating a matrix or changing the store: a primitive without a case
    (13 of the 24 declared ones), a wrong number of children, scale data
    that is no rational, a child that is not in the store, and circuit data
    that is no matrix value. *)
Theorem Execute_errors (fuel : nat) (c : Circuit) (input : ptr) (s : State) :
  (~ In (CPrim c) executable_prims ->
   fails_with (Execute (S fuel) c input s)
     ("unsupported primitive: " ++ string_of_Z (CPrim c)) s) /\
  (CPrim c = PrimTensor -> length (Children c) <> 2%nat ->
   fails_with (Execute (S fuel) c input s) "tensor requires 2 children" s) /\
  (CPrim c = PrimAdd -> length (Children c) <> 2%nat ->
   fails_with (Execute (S fuel) c input s) "add requires 2 children" s) /\
  (CPrim c = PrimScale -> length (Children c) <> 1%nat ->
   fails_with (Execute (S fuel) c input s) "scale requires 1 child" s) /\
  (CPrim c = PrimScale -> length (Children c) = 1%nat ->
   (forall r, Data c <> Some (Rat r)) ->
   fails_with (Execute (S fuel) c input s) "scale data must be Rat" s) /\
  (forall c0 r, CPrim c = PrimScale -> Children c = [c0] -> Data c = Some (Rat r) ->
   circuits (store s) !! c0 = None ->
   fails_with (Execute (S fuel) c input s) "child not found" s) /\
  (forall c0 c1, CPrim c = PrimTensor \/ CPrim c = PrimAdd -> Children c = [c0; c1] ->
   (circuits (store s) !! c0 = None ->
    fails_with (Execute (S fuel) c input s) "child 0 not found" s) /\
   (circuits (store s) !! c0 <> None -> circuits (store s) !! c1 = None ->
    fails_with (Execute (S fuel) c input s) "child 1 not found" s)) /\
  ((forall rows cols entries rest, Data c <> Some (matrix_value rows cols entries rest)) ->
   (CPrim c = PrimUnitary ->
    fails_with (Execute (S fuel) c input s) "unitary data must be matrix" s) /\
   (CPrim c = PrimChoi ->
    fails_with (Execute (S fuel) c input s) "choi data must be matrix" s) /\
   (CPrim c = PrimPrepare ->
    fails_with (Execute (S fuel) c input s) "prepare data must be matrix" s)).
Proof.
  unfold fails_with. repeat apply conj.
  - intros Hno.
    assert (H : forall p, In p executable_prims -> (CPrim c =? p) = false).
    { intros p Hp. apply Z.eqb_neq. intros E. apply Hno. now rewrite E. }
    cbn [Execute]. rewrite !H by (unfold executable_prims; simpl; tauto). reflexivity.
  - intros Hp Hl. exec_prim Hp.
    destruct (Children c) as [|c0 [|c1 [|c2 l]]]; try reflexivity. now contradiction Hl.
  - intros Hp Hl. exec_prim Hp.
    destruct (Children c) as [|c0 [|c1 [|c2 l]]]; try reflexivity. now contradiction Hl.
  - intros Hp Hl. exec_prim Hp.
    destruct (Children c) as [|c0 [|c1 l]]; try reflexivity. now contradiction Hl.
  - intros Hp Hl Hd. exec_prim Hp.
    destruct (Children c) as [|c0 [|c1 l]]; try discriminate Hl.
    destruct (Data c) as [[| r | | | | | |]|]; try reflexivity. now destruct (Hd r).
  - intros c0 r Hp Hc Hd H0. exec_prim Hp. rewrite Hc, Hd.
    unfold bind, Store_Get. now rewrite H0.
  - intros c0 c1 Hp Hc. split.
    + intros H0. destruct Hp as [Hp|Hp]; exec_prim Hp; rewrite Hc;
        unfold bind, Store_Get; now rewrite H0.
    + intros H0 H1. destruct (circuits (store s) !! c0) as [f|] eqn:Hf; [|contradiction].
      destruct Hp as [Hp|Hp]; exec_prim Hp; rewrite Hc;
        unfold bind, Store_Get; now rewrite Hf, H1.
  - intros Hd. pose proof (MatrixFromValue_no_matrix (Data c) s Hd) as Hm.
    repeat apply conj; intros Hp; exec_prim Hp;
      unfold applyUnitary, applyChoi, applyPrepare; now rewrite (bind_Ok _ _ _ _ _ Hm).
Qed.

Lemma Execute_errors_witness :
  fails_with (Execute 1 (mkCircuit (mkObject []) (mkObject []) PrimKraus None []) None
                empty_state)
    "unsupported primitive: 14" empty_state.
Proof.
  apply (proj1 (Execute_errors 0 (mkCircuit (mkObject []) (mkObject []) PrimKraus None [])
                  None empty_state)).
  vm_compute. intuition discriminate.
Defined.

Lemma Execute_at (n k : nat) (c : Circuit) (input : ptr) (s s' : State)
    (r : Res (ptr * error)) :
  (n <= k)%nat -> Execute n c input s = (r, s') -> r <> OutOfFuel ->
  Execute k c input s = (r, s').
Proof. intros Hle H Hr. exact (Execute_fuel_le n k c input Hle s r s' H Hr). Qed.

Lemma Add_unfold (fuel : nat) (c : Circuit) (input : ptr) (s : State) c0 c1 f g :
  CPrim c = PrimAdd -> Children c = [c0; c1] ->
  circuits (store s) !! c0 = Some f -> circuits (store s) !! c1 = Some g ->
  Execute (S fuel) c input s
  = (r <- Execute fuel f input ;;
     match r with
     | (_, Some err) => ret (None, Some err)
     | (fResult, None) =>
         r <- Execute fuel g input ;;
         match r with
         | (_, Some err) => ret (None, Some err)
         | (gResult, None) => k <- MatAdd fResult gResult ;; ret (k, None)
         end
     end) s.
Proof.
  intros Hp Hc Hf Hg. exec_prim Hp. rewrite Hc. unfold bind at 1 2, Store_Get.
  now rewrite Hf, Hg.
Qed.

Lemma Scale_unfold (fuel : nat) (c : Circuit) (input : ptr) (s : State) c0 r child :
  CPrim c = PrimScale -> Children c = [c0] -> Data c = Some (Rat r) ->
  circuits (store s) !! c0 = Some child ->
  Execute (S fuel) c input s
  = (res <- Execute fuel child input ;;
     match res with
     | (_, Some err) => ret (None, Some err)
     | (result, None) => k <- MatScale result r ;; ret (k, None)
     end) s.
Proof.
  intros Hp Hc Hd Hf. exec_prim Hp. rewrite Hc, Hd. unfold bind at 1, Store_Get.
  now rewrite Hf.
Qed.

Lemma Tensor_unfold (fuel : nat) (c : Circuit) (input : ptr) (s : State) c0 c1 f g :
  CPrim c = PrimTensor -> Children c = [c0; c1] ->
  circuits (store s) !! c0 = Some f -> circuits (store s) !! c1 = Some g ->
  Execute (S fuel) c input s
  = (fId <- Identity (objectDim (Domain f)) ;;
     gId <- Identity (objectDim (Domain g)) ;;
     r <- Execute fuel f fId ;;
     match r with
     | (_, Some err) => ret (None, Some err)
     | (fResult, None) =>
         r <- Execute fuel g gId ;;
         match r with
         | (_, Some err) => ret (None, Some err)
         | (gResult, None) => k <- Kronecker fResult gResult ;; ret (k, None)
         end
     end) s.
Proof.
  intros Hp Hc Hf Hg. exec_prim Hp. rewrite Hc. unfold bind at 1 2, Store_Get.
  now rewrite Hf, Hg.
Qed.

(** X29.  The primitives with children, whose circuits are in the store.
    [Add] runs both children on the same input, the second in the state the
    first leaves, and returns the entrywise sum of their results; [Scale]
    runs its child and returns the result scaled by the rational in the
    circuit data; [Tensor] never reads its input: it runs each child on the
    identity matrix of the dimension of that child's domain and returns the
    Kronecker product of the results.  An error of a child is returned as it
    is. *)
Theorem Execute_children_spec (c : Circuit) (input : ptr) (s : State) :
  (forall c0 c1 f g, CPrim c = PrimAdd -> Children c = [c0; c1] ->
   circuits (store s) !! c0 = Some f -> circuits (store s) !! c1 = Some g ->
   (forall p1 p2 s1 s2 m1 m2,
      Executes f input s (Ok (Some p1, None)) s1 ->
      Executes g input s1 (Ok (Some p2, None)) s2 ->
      heap s2 !! p1 = Some m1 -> heap s2 !! p2 = Some m2 ->
      wf_matrix m1 -> wf_matrix m2 -> Rows m1 = Rows m2 -> Cols m1 = Cols m2 ->
      Executes c input s (Ok (Some (length (heap s2)), None))
        (pushed s2 (mkMatrix (Rows m1) (Cols m1) (zip_with QIAdd (MData m1) (MData m2))))) /\
   (forall m e s1, Executes f input s (Ok (m, Some e)) s1 ->
      Executes c input s (Ok (None, Some e)) s1) /\
   (forall m1 m2 e s1 s2,
      Executes f input s (Ok (m1, None)) s1 -> Executes g input s1 (Ok (m2, Some e)) s2 ->
      Executes c input s (Ok (None, Some e)) s2)) /\
  (forall c0 r child, CPrim c = PrimScale -> Children c = [c0] -> Data c = Some (Rat r) ->
   circuits (store s) !! c0 = Some child ->
   (forall p s1 m,
      Executes child input s (Ok (Some p, None)) s1 ->
      heap s1 !! p = Some m -> wf_matrix m ->
      Executes c input s (Ok (Some (length (heap s1)), None))
        (pushed s1 (mkMatrix (Rows m) (Cols m) (map (fun x => QIScale x r) (MData m))))) /\
   (forall m e s1, Executes child input s (Ok (m, Some e)) s1 ->
      Executes c input s (Ok (None, Some e)) s1)) /\
  (forall c0 c1 f g, CPrim c = PrimTensor -> Children c = [c0; c1] ->
   circuits (store s) !! c0 = Some f -> circuits (store s) !! c1 = Some g ->
   forall fId gId sf sg fr gr s1 s2 k s3,
     Identity (objectDim (Domain f)) s = (Ok fId, sf) ->
     Identity (objectDim (Domain g)) sf = (Ok gId, sg) ->
     Executes f fId sg (Ok (fr, None)) s1 ->
     Executes g gId s1 (Ok (gr, None)) s2 ->
     Kronecker fr gr s2 = (Ok k, s3) ->
     Executes c input s (Ok (k, None)) s3).
Proof.
  split; [|split].
  - intros c0 c1 f g Hp Hc Hf Hg. split; [|split].
    + intros p1 p2 s1 s2 m1 m2 (n1 & H1 & _) (n2 & H2 & _) Hm1 Hm2 Hw1 Hw2 Hr Hcl.
      exists (S (Nat.max n1 n2)). split; [|discriminate].
      rewrite (Add_unfold _ _ _ _ _ _ _ _ Hp Hc Hf Hg).
      rewrite (bind_Ok _ _ _ _ _
        (Execute_at n1 _ f input s s1 _ (Nat.le_max_l _ _) H1 ltac:(discriminate))).
      rewrite (bind_Ok _ _ _ _ _
        (Execute_at n2 _ g input s1 s2 _ (Nat.le_max_r _ _) H2 ltac:(discriminate))).
      now rewrite (bind_Ok _ _ _ _ _ (MatAdd_ok s2 p1 p2 m1 m2 Hm1 Hm2 Hw1 Hw2 Hr Hcl)).
    + intros m e s1 (n1 & H1 & _). exists (S n1). split; [|discriminate].
      rewrite (Add_unfold _ _ _ _ _ _ _ _ Hp Hc Hf Hg).
      now rewrite (bind_Ok _ _ _ _ _ H1).
    + intros m1 m2 e s1 s2 (n1 & H1 & _) (n2 & H2 & _).
      exists (S (Nat.max n1 n2)). split; [|discriminate].
      rewrite (Add_unfold _ _ _ _ _ _ _ _ Hp Hc Hf Hg).
      rewrite (bind_Ok _ _ _ _ _
        (Execute_at n1 _ f input s s1 _ (Nat.le_max_l _ _) H1 ltac:(discriminate))).
      now rewrite (bind_Ok _ _ _ _ _
        (Execute_at n2 _ g input s1 s2 _ (Nat.le_max_r _ _) H2 ltac:(discriminate))).
  - intros c0 r child Hp Hc Hd Hf. split.
    + intros p s1 m (n1 & H1 & _) Hm Hw. exists (S n1). split; [|discriminate].
      rewrite (Scale_unfold _ _ _ _ _ _ _ Hp Hc Hd Hf).
      rewrite (bind_Ok _ _ _ _ _ H1).
      now rewrite (bind_Ok _ _ _ _ _ (MatScale_ok s1 p m r Hm Hw)).
    + intros m e s1 (n1 & H1 & _). exists (S n1). split; [|discriminate].
      rewrite (Scale_unfold _ _ _ _ _ _ _ Hp Hc Hd Hf).
      now rewrite (bind_Ok _ _ _ _ _ H1).
  - intros c0 c1 f g Hp Hc Hf Hg fId gId sf sg fr gr s1 s2 k s3 HI1 HI2
      (n1 & H1 & _) (n2 & H2 & _) Hk.
    exists (S (Nat.max n1 n2)). split; [|discriminate].
    rewrite (Tensor_unfold _ _ _ _ _ _ _ _ Hp Hc Hf Hg).
    rewrite (bind_Ok _ _ _ _ _ HI1), (bind_Ok _ _ _ _ _ HI2).
    rewrite (bind_Ok _ _ _ _ _
      (Execute_at n1 _ f fId sg s1 _ (Nat.le_max_l _ _) H1 ltac:(discriminate))).
    rewrite (bind_Ok _ _ _ _ _
      (Execute_at n2 _ g gId s1 s2 _ (Nat.le_max_r _ _) H2 ltac:(discriminate))).
    now rewrite (bind_Ok _ _ _ _ _ Hk).
Qed.

Lemma Execute_children_spec_witness :
  Executes scale_circuit (Some 0%nat) compose_state (Ok (Some 2%nat, None))
    (pushed (pushed compose_state (mkMatrix 1 1 [QIOne]))
       (mkMatrix 1 1 [QIScale QIOne (Q2Qc 2)])).
Proof.
  assert (Hl : circuits (store compose_state) !! id_QGID = Some id_circuit)
    by apply lookup_singleton_eq.
  assert (H1 : Executes id_circuit (Some 0%nat) compose_state (Ok (Some 1%nat, None))
                 (pushed compose_state (mkMatrix 1 1 [QIOne]))).
  { exists 1%nat. split; [reflexivity | discriminate]. }
  destruct (Execute_children_spec scale_circuit (Some 0%nat) compose_state) as (_ & HS & _).
  destruct (HS id_QGID (Q2Qc 2) id_circuit eq_refl eq_refl eq_refl Hl) as [Hok _].
  apply (Hok 1%nat _ (mkMatrix 1 1 [QIOne]) H1 eq_refl).
  unfold wf_matrix; simpl; lia.
Defined.

(** *** Circuits that carry a matrix *)





